(** * serviceRain: label placement on a character grid

    A shallow embedding of [src/utils/serviceRain.ts]: the region calculator,
    the line splitter, the paragraph wrapper, the fit checker, the layout
    planner and the placement engine, followed by the properties the
    specification states about them.

    Conventions of the embedding.
    - A JavaScript string is the list of its UTF-16 code units ([jsstring]).
    - Grid quantities ([cols], [rows], columns, rows, lengths, margins) are
      integers ([Z]).
    - A fraction given to [computeRegion] is a double, given by its exact
      rational value ([Q]); a product of doubles is the exact product
      rounded to the nearest double ([jsmul]), and a decimal literal is the
      double nearest to it ([doubleOf]).
    - The values drawn from [Math.random] are exact rationals ([Q]).
    - The [Set<string>] of occupied cells is a [gset string] of the keys
      [`${col},${row}`] ([cellKey]).
    - A function that mutates the occupied set returns the new set next to
      its result; a thrown [TypeError] is [None]. *)

From Stdlib Require Import ZArith QArith Qround Qabs Qpower Lia Lqa String Ascii.
From stdpp Require Import gmap list strings pretty.

Open Scope Z_scope.

(** ** Strings *)

Module JsString.

Abbreviation codeunit := N.
Abbreviation jsstring := (list codeunit).

Definition lit (s : string) : jsstring :=
  map N_of_ascii (list_ascii_of_string s).

Definition SPACE : codeunit := 32%N.
Definition HYPHEN : codeunit := 45%N.

(** [s.length] *)
Definition len (s : jsstring) : Z := Z.of_nat (length s).

(** The characters matched by [\s] and removed by [trimEnd]: the
    ECMAScript WhiteSpace and LineTerminator code points. *)
Definition isSpace (c : codeunit) : bool :=
  ((9 <=? c) && (c <=? 13) || (c =? 32) || (c =? 160) || (c =? 5760)
   || (8192 <=? c) && (c <=? 8202) || (c =? 8232) || (c =? 8233)
   || (c =? 8239) || (c =? 8287) || (c =? 12288) || (c =? 65279))%N.

(** [s.replace(/^\s+/, "")] *)
Fixpoint trimStart (s : jsstring) : jsstring :=
  match s with
  | c :: s' => if isSpace c then trimStart s' else s
  | [] => []
  end.

(** [s.trimEnd()] *)
Definition trimEnd (s : jsstring) : jsstring :=
  reverse (trimStart (reverse s)).

(** A relative index of [slice]: negative indices count from the end,
    everything is clamped to [0, length]. *)
Definition relIndex (s : jsstring) (k : Z) : nat :=
  if k <? 0 then Z.to_nat (Z.max (len s + k) 0)
  else Z.to_nat (Z.min k (len s)).

(** [s.slice(b, e)] *)
Definition slice (s : jsstring) (b e : Z) : jsstring :=
  let from := relIndex s b in
  let to := relIndex s e in
  take (to - from)%nat (drop from s).

(** [s.slice(b)] *)
Definition sliceFrom (s : jsstring) (b : Z) : jsstring :=
  slice s b (len s).

(** [s.split(/\s+/)]: the pieces between maximal runs of white space; a
    run at either end leaves an empty piece there, and the empty string
    splits into one empty piece. [piece] is the piece being read,
    [inrun] tells whether the previous character was white space. *)
Fixpoint splitLoop (s : jsstring) (piece : jsstring) (inrun : bool)
  : list jsstring :=
  match s with
  | [] => [piece]
  | c :: s' =>
      if isSpace c then
        if inrun then splitLoop s' piece true
        else piece :: splitLoop s' [] true
      else splitLoop s' (piece ++ [c]) false
  end.

Definition splitSpaces (s : jsstring) : list jsstring := splitLoop s [] false.

(** [Boolean(s)] on a string *)
Definition truthy (s : jsstring) : bool :=
  match s with [] => false | _ => true end.

End JsString.
Import JsString.

(** ** Data model

    The records of the source. Field names are global here, so the second
    use of a name is prefixed: [mStartCol] is [MatrixMetaLine.startCol],
    [rText] is the result's [text], [sLines] the [lines] of a split, and
    [optLines], [optBaseRow] the fields of the options. The occupied set
    the engine mutates is returned next to the result. *)

Record MatrixRegion := { startCol : Z; endCol : Z }.

Record ServiceLayoutStep := { lines : list jsstring; baseRow : Z }.

Record MatrixLetter :=
  { char : codeunit; x : Z; y : Z; ty : Q; locked : bool }.

Record MatrixMetaLine := { text : jsstring; mStartCol : Z; row : Z }.

Record PlaceWordIntoGridOptions :=
  { optLines : option (list jsstring); optBaseRow : option Z }.

Record PlaceWordIntoGridResult :=
  { rText : jsstring; letters : list MatrixLetter; meta : list MatrixMetaLine }.

Record SplitResult := { sLines : list jsstring; wrapped : bool }.

(** ** Small helpers *)

Definition clampInt (v lo hi : Z) : Z := Z.max lo (Z.min hi v).

(** ** Double-precision numbers

    A number that need not be an integer is given by the exact rational
    value of the double.  An operation on doubles returns the exact result
    rounded to the nearest double, halves to the even significand (IEEE 754
    binary64: 53 bits, least exponent -1074).  Overflow to [Infinity] lies
    outside the integer fields of the model, as do the integers past
    [2^53]. *)

Definition pow2 (k : Z) : Q := (2 ^ k)%Q.

(** [floor(log2 x)] for [x > 0]. *)
Definition Qlog2 (x : Q) : Z :=
  let k := Z.log2 (Qnum x) - Z.log2 (Z.pos (Qden x)) in
  if Qle_bool (pow2 k) x then k else k - 1.

(** Rounding to the nearest integer, halves to the even one. *)
Definition rne (x : Q) : Z :=
  let f := Qfloor x in
  match (x - inject_Z f ?= 1 # 2)%Q with
  | Lt => f
  | Gt => f + 1
  | Eq => if Z.even f then f else f + 1
  end.

(** The exponent of the last place of the double nearest to [x]: 52 below
    the exponent of [x], and never below -1074 (subnormal numbers). *)
Definition ulpExp (x : Q) : Z := Z.max (Qlog2 (Qabs x) - 52) (-1074).

(** Rounding on the grid of the multiples of [2^e]. *)
Definition roundAt (e : Z) (x : Q) : Q :=
  (inject_Z (rne (x / pow2 e)) * pow2 e)%Q.

(** The double nearest to [x]. *)
Definition roundDouble (x : Q) : Q := roundAt (ulpExp x) x.

(** [a * b] on doubles. *)
Definition jsmul (a b : Q) : Q := roundDouble (a * b).

(** The double a decimal literal denotes. *)
Definition doubleOf (q : Q) : Q := roundDouble q.

(** The rationals that are doubles. *)
Definition isDouble (q : Q) : Prop := (roundDouble q == q)%Q.

(** ** Region calculator *)

Definition computeRegion (cols : Z) (startFrac endFrac : Q) : MatrixRegion :=
  {| startCol := Qfloor (jsmul (inject_Z cols) startFrac);
     endCol := Qfloor (jsmul (inject_Z cols) endFrac) |}.

(** ** Line splitter *)

Definition isBreakChar (c : codeunit) : bool :=
  ((c =? SPACE) || (c =? HYPHEN))%N.

(** The backward scan [for (i = ...; i >= 1; i--)], started at index [i]:
    the first index, going down to 1, that holds a space or a hyphen. *)
Fixpoint scanBreak (text : jsstring) (i : nat) : option nat :=
  match i with
  | O => None
  | S i' =>
      match text !! i with
      | Some ch => if isBreakChar ch then Some i else scanBreak text i'
      | None => scanBreak text i'
      end
  end.

Definition splitIntoTwoLines (text : jsstring) (maxLen : Z) : SplitResult :=
  if len text <=? maxLen then {| sLines := [text]; wrapped := false |}
  else
    let breakAt :=
      match scanBreak text (Z.to_nat (Z.min maxLen (len text - 1))) with
      | Some i => Z.of_nat i
      | None => maxLen
      end in
    let first := trimEnd (slice text 0 breakAt) in
    let rest := trimStart (sliceFrom text breakAt) in
    {| sLines := [first; rest]; wrapped := true |}.

(** ** Paragraph wrapper *)

(** The [for (const w of words)] loop; the result is the pair of [lines]
    and [current] when the loop ends, by exhaustion or by [break]. *)
Fixpoint wrapLoop (maxCols maxLines : Z) (words : list jsstring)
    (lns : list jsstring) (current : jsstring) : list jsstring * jsstring :=
  match words with
  | [] => (lns, current)
  | w :: words' =>
      let join := if truthy current then current ++ [SPACE] ++ w else w in
      if len join <=? maxCols then wrapLoop maxCols maxLines words' lns join
      else
        let lns' := if truthy current then lns ++ [current] else lns in
        if Z.of_nat (length lns') >=? maxLines - 1 then (lns', w)
        else wrapLoop maxCols maxLines words' lns' w
  end.

Definition wordsOf (text : jsstring) : list jsstring :=
  filter (fun w => truthy w = true) (splitSpaces text).

Definition wrapTextToLines (text : jsstring) (maxCols maxLines : Z)
  : list jsstring :=
  let '(lns, current) := wrapLoop maxCols maxLines (wordsOf text) [] [] in
  if truthy current && (Z.of_nat (length lns) <? maxLines)
  then lns ++ [current] else lns.

(** ** Fit checker *)

Abbreviation OccupiedSet := (gset string).

(** The key [`${col},${row}`] of a cell. *)
Definition cellKey (col row : Z) : string :=
  pretty col +:+ "," +:+ pretty row.

(** The loop [for (i = 0; i < textLen; i++) if (blocked.has(key)) return false],
    read from column [col] on for [n] more cells: is one of them occupied? *)
Fixpoint anyBlocked (blocked : OccupiedSet) (row col : Z) (n : nat) : bool :=
  match n with
  | O => false
  | S n' =>
      if bool_decide (cellKey col row ∈ blocked) then true
      else anyBlocked blocked row (col + 1) n'
  end.

Definition canFitInRegion (textLen startCol0 row0 : Z) (blocked : OccupiedSet)
    (region : MatrixRegion) (margin cols : Z) : bool :=
  if startCol0 <? startCol region + margin then false
  else if startCol0 + textLen - 1 >? endCol region - margin then false
  else if (startCol0 <? 0) || (startCol0 + textLen - 1 >=? cols) then false
  else negb (anyBlocked blocked row0 startCol0 (Z.to_nat textLen)).

(** ** Layout planner *)

Definition TOP : Z := 2.
Definition bottomOf (rows : Z) : Z := Z.max 3 (rows - 3).

(** [arr[i]] for a numeric index: [undefined] outside the array. *)
Definition index {A} (l : list A) (i : Z) : option A :=
  if i <? 0 then None else l !! Z.to_nat i.

(** The loop that pushes one step per label; [n] is [services.length] and
    [items] pairs [lineData[i]] with [blockHeights[i]] from index [i] on. *)
Fixpoint planLoop (n gapRows : Z) (items : list (list jsstring * Z))
    (i cursor extra : Z) : list ServiceLayoutStep :=
  match items with
  | [] => []
  | (ln, h) :: items' =>
      {| lines := ln; baseRow := cursor |} ::
      (if i <? n - 1 then
         let advance := h + gapRows + (if extra >? 0 then 1 else 0) in
         planLoop n gapRows items' (i + 1) (cursor + advance)
                  (if extra >? 0 then extra - 1 else extra)
       else planLoop n gapRows items' (i + 1) cursor extra)
  end.

Definition regionColsOf (region : MatrixRegion) : Z :=
  Z.max 1 (endCol region - startCol region + 1).

Definition maxLineLenOf (region : MatrixRegion) (margin : Z) : Z :=
  Z.max 1 (regionColsOf region - margin * 2).

Definition planServiceLayout (services : list jsstring) (cols rows : Z)
    (region : MatrixRegion) (margin : Z) : option (list ServiceLayoutStep) :=
  let top := TOP in
  let bottom := bottomOf rows in
  let available := Z.max 0 (bottom - top + 1) in
  let maxLineLen := maxLineLenOf region margin in
  let lineData :=
    map (fun s => take 2 (sLines (splitIntoTwoLines s maxLineLen))) services in
  let blockHeights :=
    map (fun arr : list jsstring => if (length arr =? 2)%nat then 2 else 1)
        lineData in
  let sumBlocks := fold_left Z.add blockHeights 0 in
  let n := Z.of_nat (length services) in
  let gaps := Z.max 0 (n - 1) in
  let leftover := Z.max 0 (available - sumBlocks) in
  let gapRows := if gaps >? 0 then leftover / gaps else 0 in
  let extra := if gaps >? 0 then leftover mod gaps else 0 in
  let plan := planLoop n gapRows (zip lineData blockHeights) 0 top extra in
  let lastIdx := n - 1 in
  let lastHeight :=
    match index blockHeights lastIdx with
    | Some h => if h =? 0 then 1 else h
    | None => 1
    end in
  match index plan lastIdx with
  | None => None
  | Some lastStep =>
      let overflow := baseRow lastStep + lastHeight - 1 - bottom in
      if overflow >? 0 then
        Some (map (fun p => {| lines := lines p;
                               baseRow := Z.max top (baseRow p - overflow) |})
                  plan)
      else Some plan
  end.

(** ** Placement engine *)

Definition LINE_GAP_ROWS : Z := 1.
Definition MARGIN : Z := 1.

(** [Math.round(p / q)] for integers [p] and [q > 0]: halves go up. *)
Definition roundDiv (p q : Z) : Z := (2 * p + q) / (2 * q).

Section PlaceLine.

Variables (cols rows : Z) (blocked : OccupiedSet) (region : MatrixRegion).
(** [lines.length === 2] *)
Variable twoLines : bool.
(** line length, start column after clamping, offset of the line's row
    from [baseRow] *)
Variables (tlen startCol1 lineOff : Z).

Definition fitsAt (col r : Z) : bool :=
  canFitInRegion tlen col r blocked region MARGIN cols.

(** The horizontal sweep [for (off = 1; off <= sweepMax; off++)], with
    [n] offsets left to try from [off] on. *)
Fixpoint hSweep (minStart maxStart r : Z) (n : nat) (off : Z) : option Z :=
  match n with
  | O => None
  | S n' =>
      let left := startCol1 - off in
      let right := startCol1 + off in
      if (left >=? minStart) && (left <=? maxStart) && fitsAt left r
      then Some left
      else if (right >=? minStart) && (right <=? maxStart) && fitsAt right r
      then Some right
      else hSweep minStart maxStart r n' (off + 1)
  end.

(** [for (const cand of candidates)] *)
Fixpoint tryCandidates (cands : list Z) : option Z :=
  match cands with
  | [] => None
  | cand :: cands' =>
      if twoLines && ((cand <? TOP) || (cand + 1 >? bottomOf rows))
      then tryCandidates cands'
      else if fitsAt startCol1 (cand + lineOff) then Some cand
      else tryCandidates cands'
  end.

(** The vertical sweep [for (vOff = 1; vOff < rows; vOff++)], with [n]
    offsets left to try from [vOff] on. *)
Fixpoint vSweep (base : Z) (n : nat) (vOff : Z) : option Z :=
  match n with
  | O => None
  | S n' =>
      match tryCandidates [base - vOff; base + vOff] with
      | Some cand => Some cand
      | None => vSweep base n' (vOff + 1)
      end
  end.

End PlaceLine.

(** One turn of the loop over [lines]: the start column chosen for line
    [li] and the (possibly moved) [baseRow], or [None] for [return null]. *)
Definition placeLine (cols rows : Z) (blocked : OccupiedSet)
    (region : MatrixRegion) (twoLines : bool) (li : nat) (L : jsstring)
    (base : Z) : option (Z * Z) :=
  let regionCols := regionColsOf region in
  let tlen := len L in
  let idealStart := startCol region + (regionCols - tlen) / 2 in
  let minStart := startCol region + MARGIN in
  let maxStart := endCol region - MARGIN - tlen + 1 in
  let startCol1 := clampInt idealStart minStart (Z.min maxStart (cols - tlen)) in
  let lineOff := match li with O => 0 | _ => LINE_GAP_ROWS end in
  let r := base + lineOff in
  if fitsAt cols blocked region tlen startCol1 r then Some (startCol1, base)
  else
    let sweepMax := Z.max regionCols 40 in
    match hSweep cols blocked region tlen startCol1 minStart maxStart r
                 (Z.to_nat sweepMax) 1 with
    | Some c => Some (c, base)
    | None =>
        match vSweep cols rows blocked region twoLines tlen startCol1 lineOff
                     base (Z.to_nat (rows - 1)) 1 with
        | Some cand => Some (startCol1, cand)
        | None => None
        end
    end.

(** The first loop over [lines], from line [li] on: the list [starts] and
    the final [baseRow]. *)
Fixpoint placeLines (cols rows : Z) (blocked : OccupiedSet)
    (region : MatrixRegion) (twoLines : bool) (li : nat) (ls : list jsstring)
    (base : Z) : option (list Z * Z) :=
  match ls with
  | [] => Some ([], base)
  | L :: ls' =>
      match placeLine cols rows blocked region twoLines li L base with
      | None => None
      | Some (c, base') =>
          match placeLines cols rows blocked region twoLines (S li) ls' base' with
          | None => None
          | Some (cs, base'') => Some (c :: cs, base'')
          end
      end
  end.

(** The random source: [rnd k] is the value of the [k]-th call of
    [Math.random] made by the invocation, a number in [0, 1). *)
Definition RandomSource := nat -> Q.

(** The inner loop over the characters of one line, from column [col] on;
    [k] counts the calls of [Math.random] made so far. *)
Fixpoint buildLine (fontSize : Z) (rnd : RandomSource) (r : Z) (L : jsstring)
    (col : Z) (k : nat) (blocked : OccupiedSet)
    : list MatrixLetter * nat * OccupiedSet :=
  match L with
  | [] => ([], k, blocked)
  | ch :: L' =>
      let blocked' := {[ cellKey col r ]} ∪ blocked in
      if (ch =? SPACE)%N then buildLine fontSize rnd r L' (col + 1) k blocked'
      else
        let '(ls, k', b') :=
          buildLine fontSize rnd r L' (col + 1) (S k) blocked' in
        ({| char := ch; x := col * fontSize; y := r * fontSize;
            ty := (-100 - rnd k * 300)%Q; locked := false |} :: ls, k', b')
  end.

(** The second loop over [lines], from line [li] on. *)
Fixpoint buildLines (fontSize : Z) (rnd : RandomSource) (base : Z) (li : nat)
    (ls : list jsstring) (starts : list Z) (k : nat) (blocked : OccupiedSet)
    : list MatrixLetter * list MatrixMetaLine * OccupiedSet :=
  match ls, starts with
  | L :: ls', c :: starts' =>
      let r := base + match li with O => 0 | _ => LINE_GAP_ROWS end in
      let '(letters1, k1, b1) := buildLine fontSize rnd r L c k blocked in
      let '(letters2, metas, b2) :=
        buildLines fontSize rnd base (S li) ls' starts' k1 b1 in
      (letters1 ++ letters2,
       {| text := L; mStartCol := c; row := r |} :: metas, b2)
  | _, _ => ([], [], blocked)
  end.

(** The lines to place: [opts.lines] when given and non-empty, else the
    two-line split, in both cases cut to two entries. *)
Definition linesOf (txt : jsstring) (region : MatrixRegion)
    (opts : PlaceWordIntoGridOptions) : list jsstring :=
  let maxLineLen := maxLineLenOf region MARGIN in
  let initialLines :=
    match optLines opts with
    | Some (l :: ls) => take 2 (l :: ls)
    | _ => sLines (splitIntoTwoLines txt maxLineLen)
    end in
  take 2 initialLines.

(** The row the label starts from. *)
Definition initialBaseRow (rows idx total : Z) (nlines : nat)
    (opts : PlaceWordIntoGridOptions) : Z :=
  let top := TOP in
  let bottom := bottomOf rows in
  let bands := Z.max 1 total in
  let base :=
    match optBaseRow opts with
    | Some b => clampInt b top bottom
    | None =>
        if bands =? 1 then (top + bottom) / 2
        else
          let span := bottom - top in
          clampInt (top + roundDiv (idx * span) (bands - 1)) top bottom
    end in
  if (nlines =? 2)%nat && (base + 1 >? bottom) then Z.max 2 (bottom - 1)
  else base.

Definition placeWordIntoGrid (txt : jsstring) (cols rows : Z)
    (blocked : OccupiedSet) (fontSize idx total : Z) (region : MatrixRegion)
    (opts : PlaceWordIntoGridOptions) (rnd : RandomSource)
    : option PlaceWordIntoGridResult * OccupiedSet :=
  if negb (truthy txt) || (cols =? 0) || (rows =? 0) then (None, blocked)
  else
    let lns := linesOf txt region opts in
    let twoLines := (length lns =? 2)%nat in
    let base0 := initialBaseRow rows idx total (length lns) opts in
    match placeLines cols rows blocked region twoLines 0 lns base0 with
    | None => (None, blocked)
    | Some (starts, base) =>
        let '(ltrs, metas, blocked') :=
          buildLines fontSize rnd base 0 lns starts 0 blocked in
        (Some {| rText := txt; letters := ltrs; meta := metas |}, blocked')
    end.

(** ** Notions used to state the properties *)

(** The cells a placed line covers, one per character, spaces included. *)
Definition metaCells (m : MatrixMetaLine) : list (Z * Z) :=
  map (fun c => (c, row m)) (seqZ (mStartCol m) (len (text m))).

(** The cells a placement claims. *)
Definition claimedCells (p : PlaceWordIntoGridResult) : list (Z * Z) :=
  concat (map metaCells (meta p)).

(** Does a key text hold a comma? *)
Fixpoint hasComma (s : string) : bool :=
  match s with
  | EmptyString => false
  | String c s' => if Ascii.eqb c "," then true else hasComma s'
  end.

(** The keys of a list of cells, as a set. *)
Definition keysOf (cells : list (Z * Z)) : OccupiedSet :=
  list_to_set (map (fun cell => cellKey cell.1 cell.2) cells).

(** A letter without its animation offset [ty]. *)
Definition eraseTy (l : MatrixLetter) : codeunit * Z * Z * bool :=
  (char l, x l, y l, locked l).

(** A placement without the [ty] of its letters. *)
Definition shape (p : PlaceWordIntoGridResult)
  : jsstring * list (codeunit * Z * Z * bool) * list MatrixMetaLine :=
  (rText p, map eraseTy (letters p), meta p).

(** Words joined by single spaces. *)
Definition unwords (g : list jsstring) : jsstring :=
  match g with
  | [] => []
  | w :: g' => fold_left (fun acc v => acc ++ [SPACE] ++ v) g' w
  end.

(** Consecutive lines are filled greedily: the first word of a line did
    not fit at the end of the line before it. *)
Fixpoint greedy (maxCols : Z) (groups : list (list jsstring)) : Prop :=
  match groups with
  | g :: ((g' :: _) as rest) =>
      match g' with
      | w :: _ => maxCols < len (unwords (g ++ [w]))
      | [] => True
      end /\ greedy maxCols rest
  | _ => True
  end.

(** A line is within [maxCols], or it is a single word longer than
    [maxCols]. *)
Definition lineOk (maxCols : Z) (g : list jsstring) : Prop :=
  len (unwords g) <= maxCols \/ exists w, g = [w] /\ maxCols < len w.

(** The line in progress, as a list of at most one line. *)
Definition inProgress (cur : list jsstring) : list (list jsstring) :=
  match cur with [] => [] | _ => [cur] end.

(** The layout rule in the words of the specification. The gap after
    label [j] has [leftover / gapCount] rows, one more for the first
    [leftover mod gapCount] gaps. *)
Definition gapAfter (leftover gapCount : Z) (j : nat) : Z :=
  leftover / gapCount + (if Z.of_nat j <? leftover mod gapCount then 1 else 0).

(** The cursor before each block, from label [j] on. *)
Fixpoint cursorRows (gap : nat -> Z) (heights : list Z) (j : nat) (cursor : Z)
  : list Z :=
  match heights with
  | [] => []
  | h :: hs => cursor :: cursorRows gap hs (S j) (cursor + h + gap j)
  end.

(** Base rows for given block heights and a given number of leftover rows,
    with the final overflow correction. *)
Definition rowsFor (leftover : Z) (heights : list Z) (rows : Z) : list Z :=
  let gapCount := Z.of_nat (length heights) - 1 in
  let bases := cursorRows (gapAfter leftover gapCount) heights 0 TOP in
  match last bases, last heights with
  | Some b, Some h =>
      let overflow := b + h - 1 - bottomOf rows in
      if overflow >? 0 then map (fun r => Z.max TOP (r - overflow)) bases
      else bases
  | _, _ => bases
  end.

Definition availableRows (rows : Z) : Z := bottomOf rows - TOP + 1.

(** The rule as the specification words it: leftover is the available rows
    minus the block heights. *)
Definition claimedRows (heights : list Z) (rows : Z) : list Z :=
  rowsFor (availableRows rows - fold_right Z.add 0 heights) heights rows.

(** The rule with the leftover kept non-negative. *)
Definition plannedRows (heights : list Z) (rows : Z) : list Z :=
  rowsFor (Z.max 0 (availableRows rows - fold_right Z.add 0 heights))
          heights rows.

(** Block height of a label: 2 if its two-line split wraps, else 1. *)
Definition blockHeight (region : MatrixRegion) (margin : Z) (s : jsstring) : Z :=
  if wrapped (splitIntoTwoLines s (maxLineLenOf region margin)) then 2 else 1.

(** A line cannot be placed from [base]: the clamped ideal column is
    rejected, no column of the horizontal sweep is accepted, and no row of
    the vertical sweep is accepted. *)
Definition unplaceable (cols rows : Z) (blocked : OccupiedSet)
    (region : MatrixRegion) (twoLines : bool) (li : nat) (L : jsstring)
    (base : Z) : Prop :=
  let regionCols := regionColsOf region in
  let tlen := len L in
  let minStart := startCol region + MARGIN in
  let maxStart := endCol region - MARGIN - tlen + 1 in
  let c0 := clampInt (startCol region + (regionCols - tlen) / 2) minStart
                     (Z.min maxStart (cols - tlen)) in
  let lineOff := match li with O => 0 | _ => LINE_GAP_ROWS end in
  let fits c r := canFitInRegion tlen c r blocked region MARGIN cols = true in
  ~ fits c0 (base + lineOff) /\
  (forall off c, 1 <= off <= Z.max regionCols 40 ->
     c = c0 - off \/ c = c0 + off ->
     ~ (minStart <= c <= maxStart /\ fits c (base + lineOff))) /\
  (forall vOff cand, 1 <= vOff < rows ->
     cand = base - vOff \/ cand = base + vOff ->
     ~ ((twoLines = true -> TOP <= cand /\ cand + 1 <= bottomOf rows) /\
        fits c0 (cand + lineOff))).

(** [t] is [s] without its leading white space. *)
Definition isTrimStartOf (s t : jsstring) : Prop :=
  exists ws, s = ws ++ t /\ Forall (fun c => isSpace c = true) ws /\
             forall c, head t = Some c -> isSpace c = false.

(** [t] is [s] without its trailing white space. *)
Definition isTrimEndOf (s t : jsstring) : Prop :=
  exists ws, s = t ++ ws /\ Forall (fun c => isSpace c = true) ws /\
             forall c, last t = Some c -> isSpace c = false.

(** Index [j] of [s] holds a space or a hyphen. *)
Definition breaksAt (s : jsstring) (j : nat) : Prop :=
  exists ch, s !! j = Some ch /\ (ch = SPACE \/ ch = HYPHEN).

(** Example inputs: a region of ten columns on a grid of ten rows, a
    one-line label asked for at row 2 (resp. row 7), and occupied cells that
    block that row along the whole region and the rows next to it at the
    label's ideal column. *)
Definition tenCols : MatrixRegion := {| startCol := 0; endCol := 9 |}.

Definition blockedAbove : OccupiedSet :=
  keysOf [(4, 0); (4, 1); (4, 2); (5, 2); (4, 3); (4, 4)].

Definition blockedBelow : OccupiedSet :=
  keysOf [(4, 4); (4, 5); (4, 6); (4, 7); (5, 7); (4, 8); (4, 9)].

(** Occupied cells that leave a label of four characters no place on a
    grid of four rows: row 2 is blocked along the region, and the ideal
    column is blocked on every row the vertical sweep can reach. *)
Definition blockedAround : OccupiedSet :=
  keysOf [(4, -1); (4, 0); (4, 1); (4, 2); (5, 2); (4, 3); (4, 4); (4, 5)].

Definition atRow (r : Z) : PlaceWordIntoGridOptions :=
  {| optLines := None; optBaseRow := Some r |}.

Definition noOptions : PlaceWordIntoGridOptions :=
  {| optLines := None; optBaseRow := None |}.

(** Three labels placed one after the other on an empty grid of 20 rows,
    each invocation given the occupied set the one before left. *)
Definition firstLabel :=
  placeWordIntoGrid (lit "abcdefgh") 20 20 ∅ 10 0 3 tenCols (atRow 6)
                    (fun _ => 0%Q).
Definition secondLabel :=
  placeWordIntoGrid (lit "abcd") 20 20 firstLabel.2 10 1 3 tenCols (atRow 4)
                    (fun _ => 0%Q).
Definition thirdLabel :=
  placeWordIntoGrid (lit "abcd efgh") 20 20 secondLabel.2 10 2 3 tenCols
                    (atRow 5) (fun _ => 0%Q).

(** Two random sources: every draw is 0, every draw is 1/2. *)
Definition drawZero : RandomSource := fun _ => 0%Q.
Definition drawHalf : RandomSource := fun _ => (1 # 2)%Q.

(** ** Notions used to state further properties *)

(** The offset of line [li] from the base row. *)
Definition lineOffset (li : nat) : Z :=
  match li with O => 0 | _ => LINE_GAP_ROWS end.

(** The anchors of the lines [ls] placed at the columns [starts] from the
    base row [base], from line [li] on. *)
Fixpoint metaLinesAt (base : Z) (li : nat) (ls : list jsstring)
    (starts : list Z) : list MatrixMetaLine :=
  match ls, starts with
  | L :: ls', c :: starts' =>
      {| text := L; mStartCol := c; row := base + lineOffset li |}
      :: metaLinesAt base (S li) ls' starts'
  | _, _ => []
  end.

(** The letters of a placed line without their [ty]: one per character
    that is not a space, at the pixel position of its cell. *)
Definition lineLetters (fontSize : Z) (m : MatrixMetaLine)
  : list (codeunit * Z * Z * bool) :=
  filter (fun l => l.1.1.1 <> SPACE)
    (imap (fun i ch => (ch, (mStartCol m + Z.of_nat i) * fontSize,
                        row m * fontSize, false))
          (text m)).

(** The column the engine tries first for a line: the centred column,
    clamped to the region's margins and the grid width. *)
Definition idealCol (cols : Z) (region : MatrixRegion) (L : jsstring) : Z :=
  clampInt (startCol region + (regionColsOf region - len L) / 2)
           (startCol region + MARGIN)
           (Z.min (endCol region - MARGIN - len L + 1) (cols - len L)).

(** The sum of the first [m] gaps. *)
Fixpoint gapSum (gap : nat -> Z) (m : nat) : Z :=
  match m with
  | O => 0
  | S m' => gapSum gap m' + gap m'
  end.

(** ** Placement tick of the component

    The callback the component runs every [cadenceMs] milliseconds.  Its
    state is the two refs it writes, [placedRef] and [planRef]; the grid
    size [cols], [rows], the width [w] and the font size [fs] are read from
    refs that the tick does not write.  A [TypeError] thrown by the planner
    is [None]. *)

Record TickState := {
  placed : list PlaceWordIntoGridResult;
  planRef : option (list ServiceLayoutStep)
}.

(** The text of [Math.floor(a / b)] in a template string, for integers:
    the quotient is not finite when [b] is zero. *)
Definition floorDivText (a b : Z) : string :=
  if b =? 0 then
    if a =? 0 then "NaN" else if 0 <? a then "Infinity" else "-Infinity"
  else pretty (a / b).

(** The loop over the characters of one recorded line, from index [i] on,
    with [n] characters left. *)
Fixpoint blockLine (ln : MatrixMetaLine) (n : nat) (i : Z)
    (tmpBlocked : OccupiedSet) : OccupiedSet :=
  match n with
  | O => tmpBlocked
  | S n' =>
      blockLine ln n' (i + 1)
                ({[ cellKey (mStartCol ln + i) (row ln) ]} ∪ tmpBlocked)
  end.

(** The body of [placedRef.current.forEach]: the recorded lines when there
    are some, else the cells under the letters. *)
Definition blockWord (fs : Z) (tmpBlocked : OccupiedSet)
    (wObj : PlaceWordIntoGridResult) : OccupiedSet :=
  match meta wObj with
  | [] =>
      fold_left
        (fun acc letter =>
           {[ floorDivText (x letter) fs +:+ "," +:+
              floorDivText (y letter) fs ]} ∪ acc)
        (letters wObj) tmpBlocked
  | lns =>
      fold_left (fun acc ln => blockLine ln (length (text ln)) 0 acc)
                lns tmpBlocked
  end.

(** The set rebuilt at every tick from the placements made so far. *)
Definition tmpBlockedOf (fs : Z) (ps : list PlaceWordIntoGridResult)
  : OccupiedSet :=
  fold_left (blockWord fs) ps ∅.

(** The region of a tick: narrow containers use fixed fractions. *)
Definition tickRegion (cols w : Z) (regionStartFrac regionEndFrac : Q)
  : MatrixRegion :=
  let startFrac := if w <? 900 then doubleOf (52 # 100) else regionStartFrac in
  let endFrac := if w <? 900 then doubleOf (96 # 100) else regionEndFrac in
  computeRegion cols startFrac endFrac.

(** The options a tick passes for the label at index [idx]. *)
Definition tickOptions (plan : list ServiceLayoutStep) (idx : nat)
  : PlaceWordIntoGridOptions :=
  let step := plan !! idx in
  {| optLines := lines <$> step; optBaseRow := baseRow <$> step |}.

(** The call of the engine a tick makes; an index past the end of
    [services] reads [undefined], for which the engine returns [null]. *)
Definition tickPlace (services : list jsstring) (cols rows w fs : Z)
    (regionStartFrac regionEndFrac : Q) (rnd : RandomSource)
    (plan : list ServiceLayoutStep) (ps : list PlaceWordIntoGridResult)
  : option PlaceWordIntoGridResult * OccupiedSet :=
  let region := tickRegion cols w regionStartFrac regionEndFrac in
  let tmpBlocked := tmpBlockedOf fs ps in
  let idx := length ps in
  match services !! idx with
  | Some name =>
      placeWordIntoGrid name cols rows tmpBlocked fs (Z.of_nat idx)
                        (Z.of_nat (length services)) region
                        (tickOptions plan idx) rnd
  | None => (None, tmpBlocked)
  end.

Definition placementTick (services : list jsstring) (cols rows w fs : Z)
    (regionStartFrac regionEndFrac : Q) (rnd : RandomSource)
    (st : TickState) : option TickState :=
  if (length services <=? length (placed st))%nat then Some st
  else
    let region := tickRegion cols w regionStartFrac regionEndFrac in
    let planned :=
      match planRef st with
      | Some plan => Some plan
      | None => planServiceLayout services cols rows region 1
      end in
    match planned with
    | None => None
    | Some plan =>
        let res :=
          (tickPlace services cols rows w fs regionStartFrac regionEndFrac
                     rnd plan (placed st)).1 in
        Some {| placed := match res with
                          | Some p => placed st ++ [p]
                          | None => placed st
                          end;
                planRef := Some plan |}
    end.

(** [n] ticks in a row with the same measurements; tick [k] draws from
    [rnd k]. *)
Fixpoint runTicks (services : list jsstring) (cols rows w fs : Z)
    (regionStartFrac regionEndFrac : Q) (rnd : nat -> RandomSource)
    (n : nat) (st : TickState) : option TickState :=
  match n with
  | O => Some st
  | S n' =>
      match runTicks services cols rows w fs regionStartFrac regionEndFrac
                     rnd n' st with
      | Some st' =>
          placementTick services cols rows w fs regionStartFrac
                        regionEndFrac (rnd n') st'
      | None => None
      end
  end.

(** The state after a change of font size. *)
Definition resetState : TickState := {| placed := []; planRef := None |}.

(** ** Detail block of the component *)

Record DetailLetter := {
  dChar : codeunit;
  cx : Z;
  tx : Z;
  dTy : Q;
  dY : Z;
  alpha : Q
}.

(** The loop over the characters of one line of the detail copy, from
    index [i] on; [k] counts the calls of [Math.random] made so far. *)
Fixpoint detailLine (fs : Z) (rnd : RandomSource) (startX yy : Z)
    (line : jsstring) (i : Z) (k : nat) : list DetailLetter * nat :=
  match line with
  | [] => ([], k)
  | ch :: line' =>
      let xx := startX + i * fs in
      if (ch =? SPACE)%N then detailLine fs rnd startX yy line' (i + 1) k
      else
        let '(ls, k') := detailLine fs rnd startX yy line' (i + 1) (S k) in
        ({| dChar := ch; cx := xx; tx := xx;
            dTy := (-100 - rnd k * 400)%Q; dY := yy;
            alpha := (95 # 100)%Q |} :: ls, k')
  end.

(** The column of pixels a line of [n] characters starts at. *)
Definition detailStartX (centerX fs n : Z) : Z :=
  roundDiv (2 * centerX - n * fs) 2.

(** [lines.forEach], from line [li] on. *)
Fixpoint detailLines (fs : Z) (rnd : RandomSource) (centerX startRow : Z)
    (lns : list jsstring) (li : Z) (k : nat) : list DetailLetter :=
  match lns with
  | [] => []
  | line :: lns' =>
      let startX := detailStartX centerX fs (len line) in
      let yy := (startRow + li * 2) * fs in
      let '(ls, k') := detailLine fs rnd startX yy line 0 k in
      ls ++ detailLines fs rnd centerX startRow lns' (li + 1) k'
  end.

(** The widest line of the detail block, in columns. *)
Definition detailMaxWidth (cols : Z) : Z :=
  Z.max 10 (Z.min (cols - 4)
                  (Qfloor (jsmul (inject_Z cols) (doubleOf (66 # 100))))).

(** The lines of the detail block. *)
Definition detailCopyLines (copy : jsstring) (cols : Z) : list jsstring :=
  wrapTextToLines copy (detailMaxWidth cols) 6.

(** The letters and the [meta] the component stores for a detail copy. *)
Definition buildDetailLetters (copy : jsstring) (startRow cols fs w : Z)
    (rnd : RandomSource) : list DetailLetter * (Z * jsstring) :=
  let lns := detailCopyLines copy cols in
  let centerX := w / 2 in
  (detailLines fs rnd centerX startRow lns 0 0, (startRow, copy)).

(** Example inputs of the component: two services, and the first letter
    of the detail copy [ab cd] in a container 200 pixels wide. *)
Definition twoServices : list jsstring := [lit "ab cd"; lit "ef"].

Definition firstDetailLetter : DetailLetter :=
  {| dChar := 97%N; cx := 75; tx := 75;
     dTy := (-100 - drawZero 0%nat * 400)%Q; dY := 50;
     alpha := (95 # 100)%Q |}.

(** What the paragraph wrapper returns for [words], as groups of words,
    one group per line: at most [maxLines] non-empty groups that hold the
    words from the first on, each within [maxCols] or a single word, each
    filled greedily; fewer than [maxLines] lines hold all the words,
    [maxLines >= 2] lines end in a single word, and the one line for
    [maxLines = 1] is filled greedily too. *)
Definition wrapsTo (maxCols maxLines : Z) (words : list jsstring)
    (groups : list (list jsstring)) : Prop :=
  Z.of_nat (length groups) <= maxLines /\
  Forall (fun g => g <> []) groups /\
  concat groups `prefix_of` words /\
  Forall (lineOk maxCols) groups /\
  greedy maxCols groups /\
  (Z.of_nat (length groups) < maxLines -> concat groups = words) /\
  (2 <= maxLines -> Z.of_nat (length groups) = maxLines ->
   exists w, last groups = Some [w]) /\
  (maxLines = 1 -> forall g w rest,
     groups = [g] -> words = g ++ w :: rest ->
     maxCols < len (unwords (g ++ [w]))).

(** The same conditions for the lines after the first [j] lines. *)
Definition wrapsFrom (maxCols maxLines : Z) (j : nat) (words : list jsstring)
    (groups : list (list jsstring)) : Prop :=
  Z.of_nat (j + length groups) <= maxLines /\
  Forall (fun g => g <> []) groups /\
  concat groups `prefix_of` words /\
  Forall (lineOk maxCols) groups /\
  greedy maxCols groups /\
  (Z.of_nat (j + length groups) < maxLines -> concat groups = words) /\
  (2 <= maxLines -> Z.of_nat (j + length groups) = maxLines ->
   groups <> [] -> exists w, last groups = Some [w]) /\
  (maxLines = 1 -> j = 0%nat -> forall g w rest,
     groups = [g] -> words = g ++ w :: rest ->
     maxCols < len (unwords (g ++ [w]))).

(** In a narrow container the region of a grid of [cols] columns runs
    from 52 to 96 hundredths of the columns, rounded down. *)
Definition narrowRegionOk (cols : Z) : bool :=
  let region := tickRegion cols 0 0 0 in
  (startCol region =? cols * 52 / 100) && (endCol region =? cols * 96 / 100).

(** * Properties *)

(** ** Powers of two and logarithms *)

Lemma pow2_pos k : (0 < pow2 k)%Q.
Proof. apply Qpower_0_lt. reflexivity. Qed.

Lemma pow2_add a b : (pow2 (a + b) == pow2 a * pow2 b)%Q.
Proof. apply Qpower_plus. discriminate. Qed.

Lemma pow2_le a b : a <= b -> (pow2 a <= pow2 b)%Q.
Proof. intros H. apply Qpower_le_compat_l; [exact H | discriminate]. Qed.

Lemma pow2_lt a b : a < b -> (pow2 a < pow2 b)%Q.
Proof. intros H. apply Qpower_lt_compat_l; [exact H | reflexivity]. Qed.

Lemma pow2_lt_inv a b : (pow2 a < pow2 b)%Q -> a < b.
Proof. intros H. eapply Qpower_lt_compat_l_inv; [exact H | reflexivity]. Qed.

Lemma pow2_Z k : 0 <= k -> (pow2 k == inject_Z (2 ^ k))%Q.
Proof. intros H. unfold pow2. rewrite Zpower_Qpower by exact H. reflexivity. Qed.

Lemma Qlog2_spec (x : Q) :
  (0 < x)%Q -> (pow2 (Qlog2 x) <= x)%Q /\ (x < pow2 (Qlog2 x + 1))%Q.
Proof.
  intros Hx. destruct x as [n d]. unfold Qlog2. cbn [Qnum Qden].
  assert (Hn : 0 < n).
  { unfold Qlt in Hx. cbn in Hx. lia. }
  pose proof (Z.log2_spec n Hn) as [Hn1 Hn2].
  pose proof (Z.log2_spec (Z.pos d) (Pos2Z.is_pos d)) as [Hd1 Hd2].
  pose proof (Z.log2_nonneg n) as Ha. pose proof (Z.log2_nonneg (Z.pos d)) as Hb.
  set (a := Z.log2 n) in *. set (b := Z.log2 (Z.pos d)) in *.
  assert (Hx' : (n # d == inject_Z n / inject_Z (Z.pos d))%Q)
    by apply Qmake_Qdiv.
  assert (Hdpos : (0 < inject_Z (Z.pos d))%Q).
  { change 0%Q with (inject_Z 0). rewrite <- Zlt_Qlt. lia. }
  assert (Hup : (n # d < pow2 (a - b + 1))%Q).
  { rewrite Hx'. apply Qlt_shift_div_r; [exact Hdpos|].
    apply Qlt_le_trans with (pow2 (a - b + 1) * pow2 b)%Q.
    - rewrite <- pow2_add. replace (a - b + 1 + b) with (Z.succ a) by lia.
      rewrite pow2_Z by lia. rewrite <- Zlt_Qlt. exact Hn2.
    - apply Qmult_le_l; [apply pow2_pos|].
      rewrite pow2_Z by lia. rewrite <- Zle_Qle. exact Hd1. }
  assert (Hlo : (pow2 (a - b - 1) <= n # d)%Q).
  { rewrite Hx'. apply Qle_shift_div_l; [exact Hdpos|].
    apply Qle_trans with (pow2 (a - b - 1) * pow2 (b + 1))%Q.
    - apply Qmult_le_l; [apply pow2_pos|].
      rewrite pow2_Z by lia. rewrite <- Zle_Qle.
      change (Z.succ b) with (b + 1) in Hd2. lia.
    - rewrite <- pow2_add. replace (a - b - 1 + (b + 1)) with a by lia.
      rewrite pow2_Z by lia. rewrite <- Zle_Qle. exact Hn1. }
  destruct (Qle_bool (pow2 (a - b)) (n # d)) eqn:Hle.
  - apply Qle_bool_iff in Hle. split; [exact Hle | exact Hup].
  - split; [exact Hlo|]. replace (a - b - 1 + 1) with (a - b) by lia.
    apply Qnot_le_lt. intros H. apply Qle_bool_iff in H. congruence.
Qed.

Lemma Qlog2_unique (x : Q) (k : Z) :
  (pow2 k <= x)%Q -> (x < pow2 (k + 1))%Q -> Qlog2 x = k.
Proof.
  intros H1 H2.
  assert (Hx : (0 < x)%Q) by (eapply Qlt_le_trans; [apply pow2_pos | exact H1]).
  destruct (Qlog2_spec x Hx) as [H3 H4].
  assert (Qlog2 x < k + 1).
  { apply pow2_lt_inv. eapply Qle_lt_trans; [exact H3 | exact H2]. }
  assert (k < Qlog2 x + 1).
  { apply pow2_lt_inv. eapply Qle_lt_trans; [exact H1 | exact H4]. }
  lia.
Qed.

Lemma Qlog2_mono (x y : Q) :
  (0 < x)%Q -> (x <= y)%Q -> Qlog2 x <= Qlog2 y.
Proof.
  intros Hx Hxy.
  assert (Hy : (0 < y)%Q) by (eapply Qlt_le_trans; eassumption).
  destruct (Qlog2_spec x Hx) as [H1 _]. destruct (Qlog2_spec y Hy) as [_ H2].
  assert (Qlog2 x < Qlog2 y + 1); [|lia].
  apply pow2_lt_inv. eapply Qle_lt_trans; [exact H1|].
  eapply Qle_lt_trans; [exact Hxy | exact H2].
Qed.

Lemma rne_cases (x : Q) :
  let f := Qfloor x in
  (rne x = f /\ (x - inject_Z f <= 1 # 2)%Q) \/
  (rne x = f + 1 /\ (1 # 2 <= x - inject_Z f)%Q).
Proof.
  cbv zeta. unfold rne.
  destruct (x - inject_Z (Qfloor x) ?= 1 # 2)%Q eqn:Hc.
  - apply Qeq_alt in Hc. destruct (Z.even (Qfloor x)).
    + left. split; [reflexivity|]. rewrite Hc. apply Qle_refl.
    + right. split; [reflexivity|]. rewrite Hc. apply Qle_refl.
  - apply Qlt_alt in Hc. left. split; [reflexivity|]. apply Qlt_le_weak, Hc.
  - apply Qgt_alt in Hc. right. split; [reflexivity|]. apply Qlt_le_weak, Hc.
Qed.

Lemma Qfloor_bounds (x : Q) :
  (inject_Z (Qfloor x) <= x)%Q /\ (x < inject_Z (Qfloor x) + 1)%Q.
Proof.
  split; [apply Qfloor_le|]. pose proof (Qlt_floor x) as H.
  rewrite inject_Z_plus in H. exact H.
Qed.

Lemma rne_upper (x : Q) : (inject_Z (rne x) <= x + (1 # 2))%Q.
Proof.
  destruct (Qfloor_bounds x) as [H1 H2].
  destruct (rne_cases x) as [[-> H]|[-> H]].
  - lra.
  - rewrite inject_Z_plus. change (inject_Z 1) with 1%Q. lra.
Qed.

Lemma rne_lower (x : Q) : (x - (1 # 2) <= inject_Z (rne x))%Q.
Proof.
  destruct (Qfloor_bounds x) as [H1 H2].
  destruct (rne_cases x) as [[-> H]|[-> H]].
  - lra.
  - rewrite inject_Z_plus. change (inject_Z 1) with 1%Q. lra.
Qed.

Lemma rne_mono (x y : Q) : (x <= y)%Q -> rne x <= rne y.
Proof.
  intros Hxy. pose proof (Qfloor_resp_le x y Hxy) as Hf.
  destruct (Qfloor_bounds x) as [Hx1 Hx2].
  destruct (Qfloor_bounds y) as [Hy1 Hy2].
  destruct (Z.eq_dec (Qfloor x) (Qfloor y)) as [Heq|Hne].
  - unfold rne. rewrite <- Heq.
    destruct (Qcompare_spec (x - inject_Z (Qfloor x)) (1 # 2)) as [Hcx|Hcx|Hcx];
      destruct (Qcompare_spec (y - inject_Z (Qfloor x)) (1 # 2))
        as [Hcy|Hcy|Hcy];
      try (destruct (Z.even (Qfloor x))); try lia; exfalso; lra.
  - destruct (rne_cases x) as [[-> _]|[-> _]];
      destruct (rne_cases y) as [[-> _]|[-> _]]; lia.
Qed.

Lemma rne_Z (n : Z) : rne (inject_Z n) = n.
Proof.
  unfold rne. rewrite Qfloor_Z.
  destruct (Qcompare_spec (inject_Z n - inject_Z n) (1 # 2)) as [H|H|H];
    [exfalso; lra | reflexivity | exfalso; lra].
Qed.

Lemma rne_comp (x y : Q) : (x == y)%Q -> rne x = rne y.
Proof.
  intros H. apply Z.le_antisymm; apply rne_mono; rewrite H; apply Qle_refl.
Qed.

(** ** Rounding to a double *)

Lemma roundDouble_roundAt (x : Q) : roundDouble x = roundAt (ulpExp x) x.
Proof. reflexivity. Qed.

Lemma roundAt_mono (e : Z) (x y : Q) :
  (x <= y)%Q -> (roundAt e x <= roundAt e y)%Q.
Proof.
  intros Hxy. unfold roundAt. pose proof (pow2_pos e) as Hp.
  apply Qmult_le_compat_r; [|apply Qlt_le_weak, Hp].
  rewrite <- Zle_Qle. apply rne_mono.
  apply Qmult_le_compat_r; [exact Hxy|].
  apply Qlt_le_weak, Qinv_lt_0_compat, Hp.
Qed.

Lemma roundAt_grid (e m : Z) :
  (roundAt e (inject_Z m * pow2 e) == inject_Z m * pow2 e)%Q.
Proof.
  unfold roundAt. pose proof (pow2_pos e) as Hp.
  rewrite (rne_comp (inject_Z m * pow2 e / pow2 e) (inject_Z m)).
  - rewrite rne_Z. reflexivity.
  - field. intros H. rewrite H in Hp. discriminate Hp.
Qed.

Lemma roundAt_comp (e : Z) (x y : Q) :
  (x == y)%Q -> (roundAt e x == roundAt e y)%Q.
Proof.
  intros H. apply Qle_antisym; apply roundAt_mono; rewrite H; apply Qle_refl.
Qed.

Lemma roundAt_le (e m : Z) (x : Q) :
  (x <= inject_Z m * pow2 e)%Q -> (roundAt e x <= inject_Z m * pow2 e)%Q.
Proof.
  intros H. rewrite <- (roundAt_grid e m). by apply roundAt_mono.
Qed.

Lemma roundAt_ge (e m : Z) (x : Q) :
  (inject_Z m * pow2 e <= x)%Q -> (inject_Z m * pow2 e <= roundAt e x)%Q.
Proof.
  intros H. rewrite <- (roundAt_grid e m). by apply roundAt_mono.
Qed.

Lemma pow2_shift (e k : Z) :
  0 <= k -> (pow2 (e + k) == inject_Z (2 ^ k) * pow2 e)%Q.
Proof.
  intros Hk. rewrite Z.add_comm, pow2_add, (pow2_Z k) by exact Hk. reflexivity.
Qed.

(** The magnitude of a number against its grid. *)
Lemma ulpExp_upper (x : Q) : (Qabs x < pow2 (ulpExp x + 53))%Q.
Proof.
  destruct (Qlt_le_dec 0 (Qabs x)) as [Hpos|Hzero].
  - destruct (Qlog2_spec _ Hpos) as [_ H]. eapply Qlt_le_trans; [exact H|].
    apply pow2_le. unfold ulpExp. lia.
  - eapply Qle_lt_trans; [exact Hzero | apply pow2_pos].
Qed.

Lemma ulpExp_lower (x : Q) :
  (0 < Qabs x)%Q -> -1074 < ulpExp x -> (pow2 (ulpExp x + 52) <= Qabs x)%Q.
Proof.
  intros Hpos Hun. unfold ulpExp in *.
  assert (He : Z.max (Qlog2 (Qabs x) - 52) (-1074) + 52 = Qlog2 (Qabs x))
    by lia.
  rewrite He. by apply Qlog2_spec.
Qed.

Lemma ulpExp_mono (x y : Q) :
  (Qabs x <= Qabs y)%Q -> (0 < Qabs x)%Q -> ulpExp x <= ulpExp y.
Proof.
  intros Hxy Hx. unfold ulpExp.
  pose proof (Qlog2_mono _ _ Hx Hxy). lia.
Qed.

Lemma roundAt_zero (e : Z) (x : Q) : (x == 0)%Q -> (roundAt e x == 0)%Q.
Proof.
  intros Hx. unfold roundAt. rewrite (rne_comp (x / pow2 e) (inject_Z 0)).
  - rewrite rne_Z. apply Qmult_0_l.
  - rewrite Hx. apply Qmult_0_l.
Qed.

Lemma roundAt_nonneg (e : Z) (x : Q) : (0 <= x)%Q -> (0 <= roundAt e x)%Q.
Proof.
  intros Hx. rewrite <- (roundAt_zero e 0) by reflexivity.
  by apply roundAt_mono.
Qed.

Lemma roundAt_nonpos (e : Z) (x : Q) : (x <= 0)%Q -> (roundAt e x <= 0)%Q.
Proof.
  intros Hx. rewrite <- (roundAt_zero e 0) by reflexivity.
  by apply roundAt_mono.
Qed.

(** Rounding of positive numbers is monotone. *)
Lemma roundDouble_mono_pos (x y : Q) :
  (0 < x)%Q -> (x <= y)%Q -> (roundDouble x <= roundDouble y)%Q.
Proof.
  intros Hx Hxy. rewrite !roundDouble_roundAt.
  assert (Hy : (0 < y)%Q) by (eapply Qlt_le_trans; eassumption).
  assert (Hax : (Qabs x == x)%Q) by (apply Qabs_pos; lra).
  assert (Hay : (Qabs y == y)%Q) by (apply Qabs_pos; lra).
  assert (Hexp : ulpExp x <= ulpExp y).
  { apply ulpExp_mono; rewrite ?Hax, ?Hay; done. }
  destruct (Z.eq_dec (ulpExp x) (ulpExp y)) as [->|Hne].
  { by apply roundAt_mono. }
  pose proof (ulpExp_upper x) as Hup. rewrite Hax in Hup.
  pose proof (ulpExp_lower y) as Hlo. rewrite Hay in Hlo.
  specialize (Hlo Hy). unfold ulpExp at 1 in Hlo.
  assert (Hun : -1074 < ulpExp y) by (unfold ulpExp in *; lia).
  fold (ulpExp y) in Hlo. specialize (Hlo Hun).
  apply Qle_trans with (pow2 (ulpExp x + 53)).
  - rewrite (pow2_shift (ulpExp x) 53) by lia.
    apply roundAt_le. rewrite <- pow2_shift by lia. by apply Qlt_le_weak.
  - apply Qle_trans with (pow2 (ulpExp y + 52)).
    + apply pow2_le. lia.
    + rewrite (pow2_shift (ulpExp y) 52) by lia.
      apply roundAt_ge. by rewrite <- pow2_shift by lia.
Qed.

(** Rounding of negative numbers is monotone. *)
Lemma roundDouble_mono_neg (x y : Q) :
  (y < 0)%Q -> (x <= y)%Q -> (roundDouble x <= roundDouble y)%Q.
Proof.
  intros Hy Hxy. rewrite !roundDouble_roundAt.
  assert (Hx : (x < 0)%Q) by (eapply Qle_lt_trans; eassumption).
  assert (Hax : (Qabs x == - x)%Q) by (apply Qabs_neg; lra).
  assert (Hay : (Qabs y == - y)%Q) by (apply Qabs_neg; lra).
  assert (Hexp : ulpExp y <= ulpExp x).
  { apply ulpExp_mono; rewrite ?Hax, ?Hay; lra. }
  destruct (Z.eq_dec (ulpExp x) (ulpExp y)) as [->|Hne].
  { by apply roundAt_mono. }
  pose proof (ulpExp_upper y) as Hup. rewrite Hay in Hup.
  pose proof (ulpExp_lower x) as Hlo. rewrite Hax in Hlo.
  assert (Hun : -1074 < ulpExp x) by (unfold ulpExp in *; lia).
  specialize (Hlo ltac:(lra) Hun).
  apply Qle_trans with (inject_Z (- 2 ^ 52) * pow2 (ulpExp x))%Q.
  - apply roundAt_le. rewrite inject_Z_opp.
    rewrite (pow2_shift (ulpExp x) 52) in Hlo by lia. lra.
  - apply Qle_trans with (inject_Z (- 2 ^ 53) * pow2 (ulpExp y))%Q.
    + rewrite !inject_Z_opp.
      assert (H : (pow2 (ulpExp y + 53) <= pow2 (ulpExp x + 52))%Q)
        by (apply pow2_le; lia).
      rewrite (pow2_shift (ulpExp y) 53), (pow2_shift (ulpExp x) 52) in H
        by lia. lra.
    + apply roundAt_ge. rewrite inject_Z_opp.
      rewrite (pow2_shift (ulpExp y) 53) in Hup by lia. lra.
Qed.

(** Correctly rounded operations are monotone. *)
Lemma roundDouble_mono (x y : Q) :
  (x <= y)%Q -> (roundDouble x <= roundDouble y)%Q.
Proof.
  intros Hxy.
  destruct (Qlt_le_dec 0 x) as [Hx|Hx]; [by apply roundDouble_mono_pos|].
  destruct (Qlt_le_dec y 0) as [Hy|Hy]; [by apply roundDouble_mono_neg|].
  apply Qle_trans with 0%Q.
  - rewrite roundDouble_roundAt. by apply roundAt_nonpos.
  - rewrite roundDouble_roundAt. by apply roundAt_nonneg.
Qed.

Lemma roundDouble_comp (x y : Q) :
  (x == y)%Q -> (roundDouble x == roundDouble y)%Q.
Proof.
  intros H. apply Qle_antisym; apply roundDouble_mono; rewrite H;
    apply Qle_refl.
Qed.

(** Every integer of less than 54 bits is a double. *)
Lemma roundDouble_int (n : Z) :
  0 <= n < 2 ^ 53 -> (roundDouble (inject_Z n) == inject_Z n)%Q.
Proof.
  intros [Hn0 Hn]. rewrite roundDouble_roundAt.
  destruct (Z.eq_dec n 0) as [->|Hne]; [by apply roundAt_zero|].
  assert (Hpos : (0 < inject_Z n)%Q).
  { change 0%Q with (inject_Z 0). rewrite <- Zlt_Qlt. lia. }
  assert (Hab : (Qabs (inject_Z n) == inject_Z n)%Q) by (apply Qabs_pos; lra).
  assert (He : ulpExp (inject_Z n) <= 0).
  { pose proof (ulpExp_lower (inject_Z n)) as Hlo. rewrite Hab in Hlo.
    destruct (Z_lt_le_dec (-1074) (ulpExp (inject_Z n))) as [Hun|]; [|lia].
    specialize (Hlo Hpos Hun).
    assert (ulpExp (inject_Z n) + 52 < 53); [|lia].
    apply pow2_lt_inv. eapply Qle_lt_trans; [exact Hlo|].
    rewrite (pow2_Z 53) by lia. by rewrite <- Zlt_Qlt. }
  set (e := ulpExp (inject_Z n)) in *.
  assert (Hgrid : (inject_Z n == inject_Z (n * 2 ^ (- e)) * pow2 e)%Q).
  { rewrite inject_Z_mult, <- (pow2_Z (- e)) by lia.
    rewrite <- Qmult_assoc, <- pow2_add. replace (- e + e) with 0 by lia.
    change (pow2 0) with 1%Q. by rewrite Qmult_1_r. }
  rewrite (roundAt_comp e _ _ Hgrid), roundAt_grid. symmetry. exact Hgrid.
Qed.

Lemma pow2_m53 : (pow2 (-53) == 1 # 9007199254740992)%Q.
Proof. reflexivity. Qed.

(** Rounding moves a number by at most half the spacing of its grid. *)
Lemma roundAt_upper (e : Z) (x : Q) :
  (roundAt e x <= x + pow2 e * (1 # 2))%Q.
Proof.
  unfold roundAt. pose proof (pow2_pos e) as Hp.
  pose proof (rne_upper (x / pow2 e)) as Hr.
  apply Qle_trans with ((x / pow2 e + (1 # 2)) * pow2 e)%Q.
  - apply Qmult_le_compat_r; [exact Hr | by apply Qlt_le_weak].
  - apply Qle_lteq. right. field. intros H. rewrite H in Hp. discriminate Hp.
Qed.

(** The largest double below one is [1 - 2^-53]. *)
Lemma isDouble_below_one (e : Q) :
  isDouble e -> (e < 1)%Q -> (e <= 1 - pow2 (-53))%Q.
Proof.
  intros Hd He. rewrite pow2_m53.
  destruct (Qlt_le_dec e (1 # 2)) as [Hs|Hb]; [lra|].
  assert (Hab : (Qabs e == e)%Q) by (apply Qabs_pos; lra).
  assert (HL : Qlog2 (Qabs e) = -1).
  { apply Qlog2_unique; rewrite Hab.
    - change (pow2 (-1)) with (1 # 2)%Q. exact Hb.
    - change (pow2 (-1 + 1)) with 1%Q. exact He. }
  assert (Hexp : ulpExp e = -53) by (unfold ulpExp; rewrite HL; reflexivity).
  unfold isDouble in Hd. rewrite roundDouble_roundAt, Hexp in Hd.
  unfold roundAt in Hd. set (m := rne _) in Hd. rewrite pow2_m53 in Hd.
  assert (Hm : m < 2 ^ 53).
  { rewrite Zlt_Qlt. change (inject_Z (2 ^ 53)) with 9007199254740992%Q. lra. }
  assert (Hm' : (inject_Z m <= 9007199254740991)%Q).
  { change 9007199254740991%Q with (inject_Z (2 ^ 53 - 1)).
    rewrite <- Zle_Qle. lia. }
  lra.
Qed.

(** A product with a double below one rounds below the other factor. *)
Lemma roundDouble_below (c : Z) (x : Q) :
  0 < c -> (x <= inject_Z c * (1 - pow2 (-53)))%Q ->
  (roundDouble x < inject_Z c)%Q.
Proof.
  intros Hc Hx. set (x0 := (inject_Z c * (1 - pow2 (-53)))%Q) in *.
  eapply Qle_lt_trans; [apply (roundDouble_mono x x0 Hx)|].
  assert (Hc1 : (1 <= inject_Z c)%Q).
  { change 1%Q with (inject_Z 1). rewrite <- Zle_Qle. lia. }
  assert (Hx0 : (x0 == inject_Z c - inject_Z c * (1 # 9007199254740992))%Q).
  { unfold x0. rewrite pow2_m53. ring. }
  assert (Hhalf : (1 # 2 <= x0)%Q) by lra.
  assert (Hab : (Qabs x0 == x0)%Q) by (apply Qabs_pos; lra).
  assert (Hun : -1074 < ulpExp x0).
  { unfold ulpExp. assert (-1 <= Qlog2 (Qabs x0)); [|lia].
    rewrite <- (Qlog2_unique (1 # 2) (-1)).
    - apply Qlog2_mono; [reflexivity | by rewrite Hab].
    - apply Qle_refl.
    - reflexivity. }
  pose proof (ulpExp_lower x0) as Hlo. rewrite Hab in Hlo.
  specialize (Hlo ltac:(lra) Hun).
  rewrite (pow2_shift (ulpExp x0) 52) in Hlo by lia.
  change (inject_Z (2 ^ 52)) with 4503599627370496%Q in Hlo.
  rewrite roundDouble_roundAt.
  eapply Qle_lt_trans; [apply roundAt_upper|].
  pose proof (pow2_pos (ulpExp x0)). lra.
Qed.

(** ** Region calculator *)

Lemma Qfloor_nonneg (q : Q) : (0 <= q)%Q -> 0 <= Qfloor q.
Proof.
  intros H. change 0 with (Qfloor (inject_Z 0)). by apply Qfloor_resp_le.
Qed.

Lemma Qfloor_le_int (q : Q) (n : Z) : (q <= inject_Z n)%Q -> Qfloor q <= n.
Proof.
  intros H. rewrite <- (Qfloor_Z n). by apply Qfloor_resp_le.
Qed.

Lemma Qfloor_lt_int (q : Q) (n : Z) : (q < inject_Z n)%Q -> Qfloor q < n.
Proof.
  intros H. rewrite Zlt_Qlt.
  eapply Qle_lt_trans; [apply Qfloor_le | exact H].
Qed.

Lemma scale_le (cols : Z) (a b : Q) :
  0 <= cols -> (a <= b)%Q -> (inject_Z cols * a <= inject_Z cols * b)%Q.
Proof.
  intros Hc Hab. rewrite !(Qmult_comm (inject_Z cols)).
  apply Qmult_le_compat_r; [exact Hab|].
  change 0%Q with (inject_Z 0). by rewrite <- Zle_Qle.
Qed.

(** The double product grows with the fraction. *)
Lemma jsmul_mono (cols : Z) (a b : Q) :
  0 <= cols -> (a <= b)%Q ->
  (jsmul (inject_Z cols) a <= jsmul (inject_Z cols) b)%Q.
Proof.
  intros Hc Hab. apply roundDouble_mono. by apply scale_le.
Qed.

Lemma jsmul_nonneg (cols : Z) (a : Q) :
  0 <= cols -> (0 <= a)%Q -> (0 <= jsmul (inject_Z cols) a)%Q.
Proof.
  intros Hc Ha. unfold jsmul, roundDouble. apply roundAt_nonneg.
  apply Qmult_le_0_compat; [|exact Ha].
  change 0%Q with (inject_Z 0). by rewrite <- Zle_Qle.
Qed.

(** The double product with a fraction of at most one does not exceed the
    other factor, an integer that is a double. *)
Lemma jsmul_le_one (cols : Z) (a : Q) :
  0 <= cols < 2 ^ 53 -> (a <= 1)%Q ->
  (jsmul (inject_Z cols) a <= inject_Z cols)%Q.
Proof.
  intros Hc Ha. rewrite <- (roundDouble_int cols Hc) at 2.
  apply roundDouble_mono.
  eapply Qle_trans; [apply (scale_le cols a 1); [lia | exact Ha]|].
  rewrite Qmult_1_r. apply Qle_refl.
Qed.

(** The double product with a double below one is below the other
    factor. *)
Lemma jsmul_lt_one (cols : Z) (a : Q) :
  0 < cols -> isDouble a -> (a < 1)%Q ->
  (jsmul (inject_Z cols) a < inject_Z cols)%Q.
Proof.
  intros Hc Hd Ha. apply roundDouble_below; [exact Hc|].
  apply scale_le; [lia|]. by apply isDouble_below_one.
Qed.

(** The model follows the rounding of the code: with the fractions the
    component uses by default, [100 * 0.58] is [57.99999999999999] and
    [50 * 0.58] is [28.999999999999996]. *)
Lemma computeRegion_default_fractions :
  computeRegion 100 (doubleOf (58 # 100)) (doubleOf (96 # 100))
    = {| startCol := 57; endCol := 96 |} /\
  computeRegion 50 (doubleOf (58 # 100)) (doubleOf (96 # 100))
    = {| startCol := 28; endCol := 48 |}.
Proof. split; vm_compute; reflexivity. Qed.

(** C3, as the specification states it, fails at the right end of the grid:
    with [endFrac = 1] the end column is [cols] itself, outside [0, cols). *)
Lemma computeRegion_endCol_reaches_cols :
  0 < 10 /\ (0 <= 0)%Q /\ (0 <= 1)%Q /\ (1 <= 1)%Q /\
  ~ (let r := computeRegion 10 0 1 in
     startCol r <= endCol r /\
     (0 <= startCol r < 10) /\ (0 <= endCol r < 10)).
Proof.
  repeat split; try done. vm_compute. intros (_ & _ & _ & H). discriminate H.
Qed.

(** C3 (amended): [computeRegion cols s e] is the pair of floors of the
    double products [cols * s] and [cols * e] (so
    [computeRegion 100 0.5 0.8] is [{50, 80}]); for an integer
    [0 < cols < 2^53] and [0 <= s <= e <= 1] the start column is at most the
    end column and both lie in [0, cols], and in [0, cols) when [e], a
    double, is below 1. *)
Theorem computeRegion_bounds (cols : Z) (s e : Q) :
  0 < cols < 2 ^ 53 -> (0 <= s)%Q -> (s <= e)%Q -> (e <= 1)%Q ->
  let r := computeRegion cols s e in
  r = {| startCol := Qfloor (jsmul (inject_Z cols) s);
         endCol := Qfloor (jsmul (inject_Z cols) e) |} /\
  computeRegion 100 (doubleOf (5 # 10)) (doubleOf (8 # 10))
    = {| startCol := 50; endCol := 80 |} /\
  startCol r <= endCol r /\
  0 <= startCol r /\ endCol r <= cols /\
  (isDouble e -> (e < 1)%Q -> startCol r < cols /\ endCol r < cols).
Proof.
  intros Hc Hs Hse He r. subst r. cbn [computeRegion startCol endCol].
  assert (Hmono : Qfloor (jsmul (inject_Z cols) s)
                  <= Qfloor (jsmul (inject_Z cols) e)).
  { apply Qfloor_resp_le. apply jsmul_mono; [lia | exact Hse]. }
  assert (Hlo : 0 <= Qfloor (jsmul (inject_Z cols) s)).
  { apply Qfloor_nonneg. apply jsmul_nonneg; [lia | exact Hs]. }
  assert (Hhi : Qfloor (jsmul (inject_Z cols) e) <= cols).
  { apply Qfloor_le_int. apply jsmul_le_one; [lia | exact He]. }
  split; [reflexivity|]. split; [by vm_compute|].
  split; [exact Hmono|]. split; [exact Hlo|]. split; [exact Hhi|].
  intros Hd He1.
  assert (Qfloor (jsmul (inject_Z cols) e) < cols); [|lia].
  apply Qfloor_lt_int. apply jsmul_lt_one; [lia | exact Hd | exact He1].
Qed.

Lemma computeRegion_bounds_witness :
  let r := computeRegion 120 (doubleOf (6 # 10)) (doubleOf (9 # 10)) in
  startCol r <= endCol r /\ 0 <= startCol r /\ endCol r < 120.
Proof.
  assert (H := computeRegion_bounds 120 (doubleOf (6 # 10))
                                    (doubleOf (9 # 10))).
  destruct H as (_ & _ & H1 & H2 & _ & H3);
    [lia | by vm_compute | by vm_compute | by vm_compute |].
  destruct H3 as [_ H3]; [by vm_compute | by vm_compute |].
  repeat split; assumption.
Defined.

(** ** Cell keys *)

(** Distinct cells have distinct keys: the decimal numerals hold no comma,
    so a key splits at its comma in one way only. *)
Lemma pretty_N_go_no_comma (n : N) (s : string) :
  hasComma s = false -> hasComma (pretty_N_go n s) = false.
Proof.
  revert s. induction (N.lt_wf_0 n) as [n _ IH]; intros s Hs.
  destruct (decide (n = 0%N)) as [->|Hn]; [by rewrite pretty_N_go_0|].
  rewrite pretty_N_go_step by lia. apply IH; [apply N.div_lt; lia|].
  cbn [hasComma]. unfold pretty_N_char. by repeat case_match.
Qed.

Lemma pretty_Z_no_comma (z : Z) : hasComma (pretty z) = false.
Proof.
  unfold pretty, pretty_Z, pretty, pretty_positive, pretty, pretty_N.
  destruct z as [|q|q]; [done | |]; case_decide; try done.
  - by apply pretty_N_go_no_comma.
  - change (hasComma (pretty_N_go (N.pos q) "") = false).
    by apply pretty_N_go_no_comma.
Qed.

Lemma comma_split (a a' b b' : string) :
  hasComma a = false -> hasComma a' = false ->
  a +:+ "," +:+ b = a' +:+ "," +:+ b' -> a = a' /\ b = b'.
Proof.
  revert a'. induction a as [|c a IH]; intros [|c' a'] Ha Ha' Heq.
  - change (String "," b = String "," b') in Heq. by injection Heq as ->.
  - change (String "," b = String c' (a' +:+ "," +:+ b')) in Heq.
    injection Heq as <- _. discriminate Ha'.
  - change (String c (a +:+ "," +:+ b) = String "," b') in Heq.
    injection Heq as -> _. discriminate Ha.
  - change (String c (a +:+ "," +:+ b) = String c' (a' +:+ "," +:+ b')) in Heq.
    injection Heq as -> Heq. cbn [hasComma] in Ha, Ha'.
    destruct (Ascii.eqb c' ","); [done|].
    by destruct (IH a' Ha Ha' Heq) as [-> ->].
Qed.

Lemma cellKey_inj (c r c' r' : Z) :
  cellKey c r = cellKey c' r' -> c = c' /\ r = r'.
Proof.
  unfold cellKey. intros Heq.
  apply comma_split in Heq as [Hc Hr]; try apply pretty_Z_no_comma.
  split; by apply (inj pretty).
Qed.

Lemma elem_of_keysOf (cells : list (Z * Z)) (c r : Z) :
  cellKey c r ∈ keysOf cells <-> (c, r) ∈ cells.
Proof.
  unfold keysOf. rewrite elem_of_list_to_set, list_elem_of_fmap. split.
  - intros ([c' r'] & Hkey & Hin). cbn [fst snd] in Hkey.
    by apply cellKey_inj in Hkey as [-> ->].
  - intros Hin. by exists (c, r).
Qed.

(** ** Fit checker *)

Lemma anyBlocked_true (blocked : OccupiedSet) (r col : Z) (n : nat) :
  anyBlocked blocked r col n = true <->
  exists i, 0 <= i < Z.of_nat n /\ cellKey (col + i) r ∈ blocked.
Proof.
  revert col. induction n as [|n IH]; intros col; cbn [anyBlocked].
  - split; [discriminate | intros (i & Hi & _); lia].
  - case_bool_decide as Hin.
    + split; [intros _ | done]. exists 0. rewrite Z.add_0_r. split; [lia | done].
    + rewrite IH. split.
      * intros (i & Hi & Hm). exists (i + 1).
        split; [lia|]. by replace (col + (i + 1)) with (col + 1 + i) by lia.
      * intros (i & Hi & Hm). destruct (decide (i = 0)) as [->|Hne].
        { rewrite Z.add_0_r in Hm. done. }
        exists (i - 1). split; [lia|].
        by replace (col + 1 + (i - 1)) with (col + i) by lia.
Qed.

Lemma anyBlocked_empty (r col : Z) (n : nat) : anyBlocked ∅ r col n = false.
Proof.
  apply not_true_is_false. rewrite anyBlocked_true.
  intros (i & _ & Hm). set_solver.
Qed.

(** What a successful check guarantees. *)
Lemma canFitInRegion_true (tlen c r : Z) (blocked : OccupiedSet)
    (region : MatrixRegion) (margin cols : Z) :
  canFitInRegion tlen c r blocked region margin cols = true <->
  startCol region + margin <= c /\
  c + tlen - 1 <= endCol region - margin /\
  0 <= c /\ c + tlen - 1 < cols /\
  forall i, 0 <= i < tlen -> cellKey (c + i) r ∉ blocked.
Proof.
  unfold canFitInRegion.
  destruct (Z.ltb_spec c (startCol region + margin)); [split; [done | lia]|].
  destruct (Z.gtb_spec (c + tlen - 1) (endCol region - margin));
    [split; [done | lia]|].
  destruct (Z.ltb_spec c 0); [split; [done | lia]|].
  destruct (Z.geb_spec (c + tlen - 1) cols); [split; [done | lia]|].
  cbn [orb]. rewrite negb_true_iff, <- not_true_iff_false, anyBlocked_true.
  split.
  - intros Hno. repeat split; try lia.
    intros i Hi Hm. apply Hno. exists i. split; [lia | done].
  - intros (_ & _ & _ & _ & Hfree) (i & Hi & Hm).
    apply (Hfree i); [lia | done].
Qed.

(** C6: [canFitInRegion] returns [false] exactly when the start column is
    left of the region's left margin, the last column is right of the
    region's right margin, the start column is negative, the last column is
    at or beyond [cols], or one of the cells [(startCol + i, row)],
    [0 <= i < length], is occupied; otherwise it returns [true]. The two
    checks of scenario B come out [true] and [false]. *)
Theorem canFitInRegion_false_iff (tlen c r : Z) (blocked : OccupiedSet)
    (region : MatrixRegion) (margin cols : Z) :
  (canFitInRegion tlen c r blocked region margin cols = false <->
   c < startCol region + margin \/
   c + tlen - 1 > endCol region - margin \/
   c < 0 \/
   c + tlen - 1 >= cols \/
   exists i, 0 <= i < tlen /\ cellKey (c + i) r ∈ blocked) /\
  (canFitInRegion tlen c r blocked region margin cols = true \/
   canFitInRegion tlen c r blocked region margin cols = false) /\
  canFitInRegion 4 52 10 ∅ {| startCol := 50; endCol := 80 |} 1 120 = true /\
  canFitInRegion 8 78 10 ∅ {| startCol := 50; endCol := 80 |} 1 120 = false.
Proof.
  split; [|split; [|split; reflexivity]].
  - rewrite <- not_true_iff_false, canFitInRegion_true. split.
    + intros Hn.
      destruct (Z.ltb_spec c (startCol region + margin)); [left; lia|].
      destruct (Z.gtb_spec (c + tlen - 1) (endCol region - margin));
        [right; left; lia|].
      destruct (Z.ltb_spec c 0); [right; right; left; lia|].
      destruct (Z.geb_spec (c + tlen - 1) cols);
        [right; right; right; left; lia|].
      right; right; right; right.
      destruct (anyBlocked blocked r c (Z.to_nat tlen)) eqn:Hany.
      * apply anyBlocked_true in Hany as (i & Hi & Hm).
        exists i. split; [lia | done].
      * exfalso. apply Hn. repeat split; try lia.
        intros i Hi Hm. apply not_true_iff_false in Hany. apply Hany.
        apply anyBlocked_true. exists i. split; [lia | done].
    + intros Hbad (H1 & H2 & H3 & H4 & Hfree).
      destruct Hbad as [?|[?|[?|[?|(i & Hi & Hm)]]]]; try lia.
      by apply (Hfree i).
  - destruct (canFitInRegion tlen c r blocked region margin cols); auto.
Qed.

Lemma canFitInRegion_false_iff_witness :
  canFitInRegion 4 52 10 {[ cellKey 54 10 ]} {| startCol := 50; endCol := 80 |}
                 1 120 = false.
Proof.
  destruct (canFitInRegion_false_iff 4 52 10 {[ cellKey 54 10 ]}
              {| startCol := 50; endCol := 80 |} 1 120) as [[_ H] _].
  apply H. right; right; right; right. exists 2. split; [lia|].
  by apply elem_of_singleton.
Defined.

(** The row is looked at only through the occupied set: on an empty set
    the answer is the same for every row. *)
Lemma canFitInRegion_any_row (tlen c r r' : Z) (region : MatrixRegion)
    (margin cols : Z) :
  canFitInRegion tlen c r ∅ region margin cols =
  canFitInRegion tlen c r' ∅ region margin cols.
Proof.
  unfold canFitInRegion. by rewrite !anyBlocked_empty.
Qed.

(** ** Line splitter *)

Lemma trimStart_spec (s : jsstring) : isTrimStartOf s (trimStart s).
Proof.
  induction s as [|c s (ws & Hs & Hws & Hhd)]; cbn [trimStart].
  - exists []. repeat split; [constructor | done].
  - destruct (isSpace c) eqn:Hc.
    + exists (c :: ws). split; [by rewrite Hs at 1|].
      split; [by constructor | done].
    + exists []. split; [done|]. split; [constructor|].
      intros c' [= <-]. done.
Qed.

Lemma trimEnd_spec (s : jsstring) : isTrimEndOf s (trimEnd s).
Proof.
  unfold trimEnd.
  destruct (trimStart_spec (reverse s)) as (ws & Hs & Hws & Hhd).
  exists (reverse ws). split; [|split].
  - rewrite <- reverse_app, <- Hs. by rewrite reverse_involutive.
  - by apply Forall_reverse.
  - intros c Hc. apply Hhd. by rewrite last_reverse in Hc.
Qed.

Lemma slice_take (s : jsstring) (b : Z) :
  0 <= b -> slice s 0 b = take (Z.to_nat b) s.
Proof.
  intros Hb. unfold slice, relIndex, len.
  destruct (Z.ltb_spec b 0); [lia|]. cbn [Z.ltb Z.compare drop].
  rewrite (Z.min_l 0) by lia. change (Z.to_nat 0) with 0%nat.
  rewrite drop_0, Nat.sub_0_r.
  destruct (Z.min_spec b (Z.of_nat (length s))) as [[? ->]|[? ->]]; [done|].
  rewrite Nat2Z.id, (take_ge s (length s)), (take_ge s (Z.to_nat b)) by lia.
  done.
Qed.

Lemma sliceFrom_drop (s : jsstring) (b : Z) :
  0 <= b -> sliceFrom s b = drop (Z.to_nat b) s.
Proof.
  intros Hb. unfold sliceFrom, slice, relIndex, len.
  destruct (Z.ltb_spec b 0); [lia|].
  destruct (Z.ltb_spec (Z.of_nat (length s)) 0); [lia|].
  rewrite Z.min_id, Nat2Z.id.
  destruct (Z.min_spec b (Z.of_nat (length s))) as [[? ->]|[? ->]].
  - apply take_ge. rewrite length_drop. lia.
  - rewrite Nat2Z.id, Nat.sub_diag, drop_all, drop_ge; [done | lia].
Qed.

Lemma isBreakChar_true (ch : codeunit) :
  isBreakChar ch = true <-> ch = SPACE \/ ch = HYPHEN.
Proof.
  unfold isBreakChar. rewrite orb_true_iff, !N.eqb_eq. done.
Qed.

Lemma scanBreak_Some (s : jsstring) (i b : nat) :
  scanBreak s i = Some b ->
  (1 <= b <= i)%nat /\ breaksAt s b /\
  forall j, (b < j <= i)%nat -> ~ breaksAt s j.
Proof.
  induction i as [|i IH]; cbn [scanBreak]; [discriminate|].
  destruct (s !! S i) as [ch|] eqn:Hch.
  - destruct (isBreakChar ch) eqn:Hbr.
    + intros [= <-]. split; [lia|]. split.
      * exists ch. split; [done|]. by apply isBreakChar_true.
      * intros j Hj. lia.
    + intros Hs. destruct (IH Hs) as (Hb & Hat & Hno).
      split; [lia|]. split; [done|].
      intros j Hj. destruct (decide (j = S i)) as [->|Hne].
      * intros (ch' & Hch' & Hbr'). rewrite Hch in Hch'.
        injection Hch' as <-. apply isBreakChar_true in Hbr'. congruence.
      * apply Hno. lia.
  - intros Hs. destruct (IH Hs) as (Hb & Hat & Hno).
    split; [lia|]. split; [done|].
    intros j Hj. destruct (decide (j = S i)) as [->|Hne].
    + intros (ch' & Hch' & _). congruence.
    + apply Hno. lia.
Qed.

Lemma scanBreak_None (s : jsstring) (i : nat) :
  scanBreak s i = None -> forall j, (1 <= j <= i)%nat -> ~ breaksAt s j.
Proof.
  induction i as [|i IH]; cbn [scanBreak]; [intros _ j Hj; lia|].
  destruct (s !! S i) as [ch|] eqn:Hch.
  - destruct (isBreakChar ch) eqn:Hbr; [discriminate|].
    intros Hs j Hj. destruct (decide (j = S i)) as [->|Hne].
    + intros (ch' & Hch' & Hbr'). rewrite Hch in Hch'.
      injection Hch' as <-. apply isBreakChar_true in Hbr'. congruence.
    + apply IH; [done | lia].
  - intros Hs j Hj. destruct (decide (j = S i)) as [->|Hne].
    + intros (ch' & Hch' & _). congruence.
    + apply IH; [done | lia].
Qed.

Lemma splitIntoTwoLines_length (s : jsstring) (maxLen : Z) :
  (length (sLines (splitIntoTwoLines s maxLen)) <= 2)%nat.
Proof.
  unfold splitIntoTwoLines. destruct (len s <=? maxLen); cbn; lia.
Qed.

(** C4: for [maxLen >= 1], a text no longer than [maxLen] comes back as the
    single line [text], not wrapped; a longer text comes back as exactly two
    lines, wrapped, cut at an index [b]: the largest index between 1 and
    [min(maxLen, length - 1)] holding a space or a hyphen, or [maxLen] when
    there is none; the first line is the text before [b] without its
    trailing white space, the second the text from [b] on without its
    leading white space. There are never more than two lines. *)
Theorem splitIntoTwoLines_spec (s : jsstring) (maxLen : Z) :
  1 <= maxLen ->
  (len s <= maxLen ->
   splitIntoTwoLines s maxLen = {| sLines := [s]; wrapped := false |}) /\
  (maxLen < len s ->
   exists (b : nat) (first rest : jsstring),
     splitIntoTwoLines s maxLen =
       {| sLines := [first; rest]; wrapped := true |} /\
     isTrimEndOf (take b s) first /\
     isTrimStartOf (drop b s) rest /\
     let hi := Z.min maxLen (len s - 1) in
     ((1 <= Z.of_nat b <= hi /\ breaksAt s b /\
       forall j, (b < j)%nat -> Z.of_nat j <= hi -> ~ breaksAt s j) \/
      (Z.of_nat b = maxLen /\
       forall j, 1 <= Z.of_nat j <= hi -> ~ breaksAt s j))) /\
  (length (sLines (splitIntoTwoLines s maxLen)) <= 2)%nat.
Proof.
  intros Hmax. split; [|split; [|apply splitIntoTwoLines_length]].
  - intros Hle. unfold splitIntoTwoLines.
    destruct (Z.leb_spec (len s) maxLen); [done | lia].
  - intros Hlt. unfold splitIntoTwoLines.
    destruct (Z.leb_spec (len s) maxLen); [lia|].
    destruct (scanBreak s (Z.to_nat (Z.min maxLen (len s - 1)))) as [b|] eqn:Hscan.
    + apply scanBreak_Some in Hscan as (Hb & Hat & Hno).
      exists b, (trimEnd (take b s)), (trimStart (drop b s)).
      rewrite slice_take, sliceFrom_drop, Nat2Z.id by lia.
      split; [done|]. split; [apply trimEnd_spec|].
      split; [apply trimStart_spec|].
      left. split; [lia|]. split; [done|].
      intros j Hj1 Hj2. apply Hno. lia.
    + exists (Z.to_nat maxLen), (trimEnd (take (Z.to_nat maxLen) s)),
        (trimStart (drop (Z.to_nat maxLen) s)).
      rewrite slice_take, sliceFrom_drop by lia.
      split; [done|]. split; [apply trimEnd_spec|].
      split; [apply trimStart_spec|].
      right. split; [lia|].
      intros j Hj. eapply scanBreak_None; [exact Hscan | lia].
Qed.

Lemma splitIntoTwoLines_spec_witness :
  exists (b : nat) (first rest : jsstring),
    splitIntoTwoLines (lit "Lead Generation") 10 =
      {| sLines := [first; rest]; wrapped := true |} /\
    isTrimEndOf (take b (lit "Lead Generation")) first /\
    isTrimStartOf (drop b (lit "Lead Generation")) rest.
Proof.
  destruct (splitIntoTwoLines_spec (lit "Lead Generation") 10) as (_ & H & _);
    [lia|].
  destruct H as (b & first & rest & H1 & H2 & H3 & _); [vm_compute; reflexivity|].
  exists b, first, rest. repeat split; assumption.
Defined.

(** ** Layout planner *)

Lemma planLoop_lines (n g : Z) (items : list (list jsstring * Z)) :
  forall i cursor extra,
    map lines (planLoop n g items i cursor extra) = map fst items.
Proof.
  induction items as [|[ln h] items IH]; intros i cursor extra; [done|].
  cbn [planLoop map fst lines]. f_equal. destruct (i <? n - 1); apply IH.
Qed.

(** The counter [extra] of the loop hands out one extra row to each of the
    first [e0] gaps. *)
Lemma planLoop_rows (n g e0 : Z) (gap : nat -> Z) :
  0 <= e0 ->
  (forall j : nat, Z.of_nat j < n - 1 ->
     gap j = g + (if Z.of_nat j <? e0 then 1 else 0)) ->
  forall items (i : nat) cursor,
    Z.of_nat i + Z.of_nat (length items) = n ->
    map baseRow
        (planLoop n g items (Z.of_nat i) cursor (Z.max 0 (e0 - Z.of_nat i))) =
    cursorRows gap (map snd items) i cursor.
Proof.
  intros He0 Hgap. induction items as [|[ln h] items IH]; intros i cursor Hn;
    [done|].
  cbn [planLoop map snd baseRow cursorRows length] in *. f_equal.
  destruct (Z.ltb_spec (Z.of_nat i) (n - 1)) as [Hlt|Hge].
  - rewrite (Hgap i Hlt).
    replace (Z.of_nat i + 1) with (Z.of_nat (S i)) by lia.
    destruct (Z.gtb_spec (Z.max 0 (e0 - Z.of_nat i)) 0) as [Hpos|Hzero];
      destruct (Z.ltb_spec (Z.of_nat i) e0); try lia.
    + replace (Z.max 0 (e0 - Z.of_nat i) - 1)
        with (Z.max 0 (e0 - Z.of_nat (S i))) by lia.
      rewrite IH by lia. f_equal. lia.
    + replace (Z.max 0 (e0 - Z.of_nat i))
        with (Z.max 0 (e0 - Z.of_nat (S i))) by lia.
      rewrite IH by lia. f_equal. lia.
  - destruct items; [done | cbn [length] in Hn; lia].
Qed.

Lemma fold_left_add (l : list Z) (a : Z) :
  fold_left Z.add l a = a + fold_right Z.add 0 l.
Proof.
  revert a. induction l as [|h l IH]; intros a; cbn; [lia|].
  rewrite IH. lia.
Qed.

Lemma index_last {A} (l : list A) :
  index l (Z.of_nat (length l) - 1) = last l.
Proof.
  unfold index. destruct l as [|a l]; [done|].
  destruct (Z.ltb_spec (Z.of_nat (length (a :: l)) - 1) 0) as [H|H];
    [cbn [length] in H; lia|].
  rewrite last_lookup. f_equal. cbn [length]. lia.
Qed.

Lemma wrapped_two_lines (s : jsstring) (m : Z) :
  (length (take 2 (sLines (splitIntoTwoLines s m))) =? 2)%nat =
  wrapped (splitIntoTwoLines s m).
Proof.
  unfold splitIntoTwoLines. by destruct (len s <=? m).
Qed.

Lemma take_two_lines (s : jsstring) (m : Z) :
  take 2 (sLines (splitIntoTwoLines s m)) = sLines (splitIntoTwoLines s m).
Proof.
  unfold splitIntoTwoLines. by destruct (len s <=? m).
Qed.

Lemma cursorRows_length (gap : nat -> Z) (hs : list Z) :
  forall j c, length (cursorRows gap hs j c) = length hs.
Proof.
  induction hs as [|h hs IH]; intros j c; cbn; [done|]. by rewrite IH.
Qed.

Lemma map_last {A B} (f : A -> B) (l : list A) :
  last (map f l) = option_map f (last l).
Proof.
  induction l as [|a [|b l] IH]; [done | done |].
  change (last (map f (a :: b :: l))) with (last (map f (b :: l))).
  by rewrite IH.
Qed.

(** On a non-empty list the planner returns a plan: the two-line split of
    each label, in order, at the rows of [plannedRows]. *)
Lemma planServiceLayout_nonempty (services : list jsstring) (cols rows : Z)
    (region : MatrixRegion) (margin : Z) :
  services <> [] ->
  exists plan,
    planServiceLayout services cols rows region margin = Some plan /\
    map lines plan =
      map (fun s => sLines (splitIntoTwoLines s (maxLineLenOf region margin)))
          services /\
    map baseRow plan = plannedRows (map (blockHeight region margin) services) rows.
Proof.
  intros Hne. unfold planServiceLayout, plannedRows, rowsFor.
  set (mx := maxLineLenOf region margin).
  set (lineData := map (fun s => take 2 (sLines (splitIntoTwoLines s mx))) services).
  set (hs := map (fun arr : list jsstring =>
                    if (length arr =? 2)%nat then 2 else 1) lineData).
  assert (Hhs : hs = map (blockHeight region margin) services).
  { subst hs lineData. rewrite map_map. apply map_ext. intros s.
    unfold blockHeight. fold mx. by rewrite wrapped_two_lines. }
  assert (Hld : lineData =
                map (fun s => sLines (splitIntoTwoLines s mx)) services).
  { subst lineData. apply map_ext. intros s. apply take_two_lines. }
  assert (Hlen : length hs = length services).
  { subst hs lineData. by rewrite !length_map. }
  assert (Hlen' : length lineData = length services).
  { subst lineData. by rewrite length_map. }
  assert (Hpos : (0 < length services)%nat).
  { destruct services; [done | cbn; lia]. }
  rewrite <- Hhs.
  set (n := Z.of_nat (length services)).
  assert (Hav : Z.max 0 (bottomOf rows - TOP + 1) = availableRows rows).
  { unfold availableRows, bottomOf, TOP. lia. }
  rewrite Hav, fold_left_add, Z.add_0_l.
  set (leftover := Z.max 0 (availableRows rows - fold_right Z.add 0 hs)).
  set (gaps := Z.max 0 (n - 1)).
  set (g := if gaps >? 0 then leftover / gaps else 0).
  set (e0 := if gaps >? 0 then leftover mod gaps else 0).
  set (plan := planLoop n g (zip lineData hs) 0 TOP e0).
  set (gap := gapAfter leftover (Z.of_nat (length hs) - 1)).
  assert (He0 : 0 <= e0).
  { subst e0. destruct (Z.gtb_spec gaps 0); [|lia].
    apply Z.mod_pos_bound. lia. }
  assert (Hrows : map baseRow plan = cursorRows gap hs 0 TOP).
  { subst plan.
    replace e0 with (Z.max 0 (e0 - Z.of_nat 0)) at 1 by lia.
    change 0 with (Z.of_nat 0) at 1.
    rewrite (planLoop_rows n g e0 gap He0).
    - by rewrite snd_zip by lia.
    - intros j Hj. subst gap g e0 gaps. unfold gapAfter.
      rewrite Hlen. fold n. rewrite Z.max_r by lia.
      destruct (Z.gtb_spec (n - 1) 0); [done | lia].
    - rewrite length_zip. subst n. lia. }
  assert (Hlines : map lines plan = lineData).
  { subst plan. rewrite planLoop_lines. apply fst_zip. lia. }
  assert (Hplen : length plan = length services).
  { rewrite <- (length_map lines), Hlines. done. }
  replace (index plan (n - 1)) with (last plan)
    by (subst n; rewrite <- Hplen; symmetry; apply index_last).
  replace (index hs (n - 1)) with (last hs)
    by (subst n; rewrite <- Hlen; symmetry; apply index_last).
  rewrite <- Hrows, map_last.
  destruct (last plan) as [lastStep|] eqn:Hlast.
  2:{ apply last_None in Hlast. rewrite Hlast in Hplen. cbn in Hplen. lia. }
  destruct (last hs) as [h|] eqn:Hlasth.
  2:{ apply last_None in Hlasth. rewrite Hlasth in Hlen. cbn in Hlen. lia. }
  cbn [option_map].
  assert (Hh : (if h =? 0 then 1 else h) = h).
  { assert (Hin : h ∈ hs) by (apply last_Some_elem_of; done).
    rewrite Hhs in Hin. apply list_elem_of_fmap in Hin as (s & -> & _).
    unfold blockHeight. by destruct (wrapped _). }
  rewrite Hh.
  destruct (baseRow lastStep + h - 1 - bottomOf rows >? 0).
  - eexists. split; [reflexivity|]. rewrite !map_map. cbn [lines baseRow].
    split; [by rewrite <- Hld, <- Hlines | done].
  - eexists. split; [reflexivity|]. by rewrite <- Hld, <- Hlines.
Qed.

(** C7, as the specification states it, fails when the blocks need more
    rows than the band has: three one-line labels on a grid of 6 rows have
    a band of 2 rows, the claimed leftover is [-1] and the claimed rule
    gives rows [2; 3; 3], while the planner keeps the leftover at 0 and
    returns rows [2; 2; 3]. *)
Lemma planServiceLayout_not_claimedRows :
  let services := [lit "a"; lit "b"; lit "c"] in
  let region := {| startCol := 0; endCol := 9 |} in
  services <> [] /\
  claimedRows (map (blockHeight region 1) services) 6 = [2; 3; 3] /\
  option_map (map baseRow) (planServiceLayout services 20 6 region 1) =
    Some [2; 2; 3] /\
  ~ (exists plan,
       planServiceLayout services 20 6 region 1 = Some plan /\
       map baseRow plan = claimedRows (map (blockHeight region 1) services) 6).
Proof.
  cbv zeta. split; [done|]. split; [by vm_compute|]. split; [by vm_compute|].
  intros (plan & Hplan & Hrows). vm_compute in Hplan. injection Hplan as <-.
  vm_compute in Hrows. discriminate Hrows.
Qed.

(** C7 (amended): for a non-empty list of labels the planner returns a plan
    whose base rows follow the rule of the specification inside the band from
    [top = 2] to [bottom = max(3, rows - 3)], with the leftover rows being the
    available rows minus the sum of the block heights but never less than 0:
    block height 2 for a label whose split wraps and 1 otherwise,
    [leftover / gapCount] rows per gap and one more row for each of the
    first [leftover mod gapCount] gaps, each base row the cursor before its
    block, and a final shift of every base row by the overflow of the last
    block, not above [top]. *)
Theorem planServiceLayout_rows (services : list jsstring) (cols rows : Z)
    (region : MatrixRegion) (margin : Z) :
  services <> [] ->
  exists plan,
    planServiceLayout services cols rows region margin = Some plan /\
    map baseRow plan = plannedRows (map (blockHeight region margin) services) rows.
Proof.
  intros Hne.
  destruct (planServiceLayout_nonempty services cols rows region margin Hne)
    as (plan & Hplan & _ & Hrows).
  by exists plan.
Qed.

Lemma planServiceLayout_rows_witness :
  exists plan,
    planServiceLayout [lit "Lead Generation"; lit "Outbound"; lit "CRM"]
                      40 20 {| startCol := 24; endCol := 36 |} 1 = Some plan /\
    map baseRow plan = [2; 10; 17].
Proof.
  destruct (planServiceLayout_rows
              [lit "Lead Generation"; lit "Outbound"; lit "CRM"]
              40 20 {| startCol := 24; endCol := 36 |} 1) as (plan & H1 & H2);
    [discriminate|].
  exists plan. split; [exact H1|]. rewrite H2. vm_compute. reflexivity.
Defined.

(** C10: on the empty list the planner fails, as the overflow correction
    reads the base row of a last plan entry that does not exist; on every
    non-empty list it returns exactly one step per label, in input order,
    each holding the two-line split of its label. *)
Theorem planServiceLayout_defined (services : list jsstring) (cols rows : Z)
    (region : MatrixRegion) (margin : Z) :
  planServiceLayout [] cols rows region margin = None /\
  (services <> [] ->
   exists plan,
     planServiceLayout services cols rows region margin = Some plan /\
     length plan = length services /\
     forall i s, services !! i = Some s ->
       lines <$> plan !! i =
       Some (sLines (splitIntoTwoLines s (maxLineLenOf region margin)))).
Proof.
  split; [reflexivity|]. intros Hne.
  destruct (planServiceLayout_nonempty services cols rows region margin Hne)
    as (plan & Hplan & Hlines & _).
  exists plan. split; [done|]. split.
  - by rewrite <- (length_map lines), Hlines, length_map.
  - intros i s Hs. rewrite <- list_lookup_fmap.
    change (lines <$> plan) with (map lines plan).
    rewrite Hlines. change (map ?f services) with (f <$> services).
    by rewrite list_lookup_fmap, Hs.
Qed.

Lemma planServiceLayout_defined_witness :
  exists plan,
    planServiceLayout [lit "Lead Generation"; lit "CRM"] 40 20
                      {| startCol := 24; endCol := 36 |} 1 = Some plan /\
    length plan = 2%nat.
Proof.
  destruct (planServiceLayout_defined [lit "Lead Generation"; lit "CRM"] 40 20
              {| startCol := 24; endCol := 36 |} 1) as (_ & H).
  destruct H as (plan & H1 & H2 & _); [discriminate|].
  exists plan. split; [exact H1 | exact H2].
Defined.

(** ** Placement engine: the search for a position *)

Section Sweeps.

Variables (cols rows : Z) (blocked : OccupiedSet) (region : MatrixRegion).
Variable twoLines : bool.
Variables (tlen c0 lineOff : Z).

Local Abbreviation fits c r := (fitsAt cols blocked region tlen c r = true).

(** A candidate row passes the band test of a two-line label. *)
Local Abbreviation inBand cand :=
  (twoLines = true -> TOP <= cand /\ cand + 1 <= bottomOf rows).

Lemma hSweep_Some (minStart maxStart r : Z) (n : nat) (off c : Z) :
  hSweep cols blocked region tlen c0 minStart maxStart r n off = Some c ->
  minStart <= c <= maxStart /\ fits c r.
Proof.
  revert off. induction n as [|n IH]; intros off; cbn [hSweep];
    [discriminate|].
  destruct (_ && _ && fitsAt _ _ _ _ (c0 - off) r) eqn:Hl.
  { intros [= <-]. apply andb_prop in Hl as [Hl ?].
    apply andb_prop in Hl as [?%Z.geb_le ?%Z.leb_le]. split; [lia | done]. }
  destruct (_ && _ && fitsAt _ _ _ _ (c0 + off) r) eqn:Hr.
  { intros [= <-]. apply andb_prop in Hr as [Hr ?].
    apply andb_prop in Hr as [?%Z.geb_le ?%Z.leb_le]. split; [lia | done]. }
  apply IH.
Qed.

Lemma hSweep_None (minStart maxStart r : Z) (n : nat) (off : Z) :
  hSweep cols blocked region tlen c0 minStart maxStart r n off = None <->
  forall o c, off <= o < off + Z.of_nat n -> c = c0 - o \/ c = c0 + o ->
    ~ (minStart <= c <= maxStart /\ fits c r).
Proof.
  revert off. induction n as [|n IH]; intros off; cbn [hSweep].
  { split; [intros _ o c Ho; lia | done]. }
  destruct (_ && _ && fitsAt _ _ _ _ (c0 - off) r) eqn:Hl.
  { split; [discriminate|]. intros Hall. exfalso.
    apply (Hall off (c0 - off)); [lia | by left |].
    apply andb_prop in Hl as [Hl ?].
    apply andb_prop in Hl as [?%Z.geb_le ?%Z.leb_le]. split; [lia | done]. }
  destruct (_ && _ && fitsAt _ _ _ _ (c0 + off) r) eqn:Hr.
  { split; [discriminate|]. intros Hall. exfalso.
    apply (Hall off (c0 + off)); [lia | by right |].
    apply andb_prop in Hr as [Hr ?].
    apply andb_prop in Hr as [?%Z.geb_le ?%Z.leb_le]. split; [lia | done]. }
  rewrite IH. split.
  - intros Hall o c Ho Hc. destruct (decide (o = off)) as [->|Hne].
    + intros [Hrange Hfit].
      destruct Hc as [-> | ->].
      * rewrite Hfit, andb_true_r in Hl.
        apply andb_false_iff in Hl as [Hl|Hl%Z.leb_gt];
          [rewrite Z.geb_leb in Hl; apply Z.leb_gt in Hl|]; lia.
      * rewrite Hfit, andb_true_r in Hr.
        apply andb_false_iff in Hr as [Hr|Hr%Z.leb_gt];
          [rewrite Z.geb_leb in Hr; apply Z.leb_gt in Hr|]; lia.
    + apply (Hall o); [lia | done].
  - intros Hall o c Ho Hc. apply (Hall o); [lia | done].
Qed.

Lemma tryCandidates_Some (cands : list Z) (cand : Z) :
  tryCandidates cols rows blocked region twoLines tlen c0 lineOff cands
    = Some cand ->
  cand ∈ cands /\ inBand cand /\ fits c0 (cand + lineOff).
Proof.
  induction cands as [|a cands IH]; cbn [tryCandidates]; [discriminate|].
  destruct (twoLines && _) eqn:Hskip.
  { intros H. destruct (IH H) as (? & ? & ?). split; [by right | done]. }
  destruct (fitsAt _ _ _ _ c0 (a + lineOff)) eqn:Hfit.
  - intros [= <-]. split; [by left|]. split; [|done].
    intros Htwo. rewrite Htwo in Hskip. cbn [andb] in Hskip.
    apply orb_false_elim in Hskip as [?%Z.ltb_ge Hgt].
    rewrite Z.gtb_ltb in Hgt. apply Z.ltb_ge in Hgt. lia.
  - intros H. destruct (IH H) as (? & ? & ?). split; [by right | done].
Qed.

Lemma tryCandidates_None (cands : list Z) :
  tryCandidates cols rows blocked region twoLines tlen c0 lineOff cands
    = None <->
  forall cand, cand ∈ cands -> ~ (inBand cand /\ fits c0 (cand + lineOff)).
Proof.
  induction cands as [|a cands IH]; cbn [tryCandidates].
  { split; [intros _ cand Hin; by apply elem_of_nil in Hin | done]. }
  destruct (twoLines && _) eqn:Hskip.
  { rewrite IH. split.
    - intros Hall cand [->|Hin]%elem_of_cons; [|by apply Hall].
      intros [Hband _]. apply andb_prop in Hskip as [Htwo Hout].
      destruct (Hband Htwo) as [? ?].
      apply orb_prop in Hout as [?%Z.ltb_lt|Hgt]; [lia|].
      rewrite Z.gtb_ltb in Hgt. apply Z.ltb_lt in Hgt. lia.
    - intros Hall cand Hin. apply Hall. by right. }
  destruct (fitsAt _ _ _ _ c0 (a + lineOff)) eqn:Hfit.
  - split; [discriminate|]. intros Hall. exfalso.
    apply (Hall a); [by left|]. split; [|done].
    intros Htwo. rewrite Htwo in Hskip. cbn [andb] in Hskip.
    apply orb_false_elim in Hskip as [?%Z.ltb_ge Hgt].
    rewrite Z.gtb_ltb in Hgt. apply Z.ltb_ge in Hgt. lia.
  - rewrite IH. split.
    + intros Hall cand [->|Hin]%elem_of_cons; [|by apply Hall].
      intros [_ Hf]. congruence.
    + intros Hall cand Hin. apply Hall. by right.
Qed.

Lemma vSweep_Some (base : Z) (n : nat) (vOff cand : Z) :
  vSweep cols rows blocked region twoLines tlen c0 lineOff base n vOff
    = Some cand ->
  inBand cand /\ fits c0 (cand + lineOff).
Proof.
  revert vOff. induction n as [|n IH]; intros vOff; cbn [vSweep];
    [discriminate|].
  destruct (tryCandidates _ _ _ _ _ _ _ _ _) as [a|] eqn:Htry; [|apply IH].
  intros [= <-]. by apply tryCandidates_Some in Htry as (_ & ? & ?).
Qed.

Lemma vSweep_None (base : Z) (n : nat) (vOff : Z) :
  vSweep cols rows blocked region twoLines tlen c0 lineOff base n vOff
    = None <->
  forall o cand, vOff <= o < vOff + Z.of_nat n ->
    cand = base - o \/ cand = base + o ->
    ~ (inBand cand /\ fits c0 (cand + lineOff)).
Proof.
  revert vOff. induction n as [|n IH]; intros vOff; cbn [vSweep].
  { split; [intros _ o cand Ho; lia | done]. }
  destruct (tryCandidates _ _ _ _ _ _ _ _ _) as [a|] eqn:Htry.
  - split; [discriminate|]. intros Hall. exfalso.
    apply tryCandidates_Some in Htry as (Hin & Hband & Hfit).
    apply (Hall vOff a); [lia | | done].
    apply elem_of_cons in Hin as [->|Hin]; [by left|].
    apply elem_of_cons in Hin as [->|Hin]; [by right|].
    by apply elem_of_nil in Hin.
  - rewrite IH. split.
    + intros Hall o cand Ho Hc. destruct (decide (o = vOff)) as [->|Hne].
      * rewrite tryCandidates_None in Htry. apply Htry.
        destruct Hc as [-> | ->]; [by left | right; by left].
      * apply (Hall o); [lia | done].
    + intros Hall o cand Ho Hc. apply (Hall o); [lia | done].
Qed.

End Sweeps.

Lemma placeLine_None (cols rows : Z) (blocked : OccupiedSet)
    (region : MatrixRegion) (twoLines : bool) (li : nat) (L : jsstring)
    (base : Z) :
  placeLine cols rows blocked region twoLines li L base = None <->
  unplaceable cols rows blocked region twoLines li L base.
Proof.
  unfold placeLine, unplaceable. cbv zeta.
  set (tlen := len L).
  set (minStart := startCol region + MARGIN).
  set (maxStart := endCol region - MARGIN - tlen + 1).
  set (c0 := clampInt _ minStart _).
  set (lineOff := match li with O => 0 | _ => LINE_GAP_ROWS end).
  set (sweepMax := Z.max (regionColsOf region) 40).
  change (canFitInRegion tlen ?c ?r blocked region MARGIN cols)
    with (fitsAt cols blocked region tlen c r).
  destruct (fitsAt cols blocked region tlen c0 (base + lineOff)) eqn:Hfit.
  { split; [discriminate | intros (Hn & _); by destruct Hn]. }
  destruct (hSweep _ _ _ _ _ _ _ _ _ _) as [c|] eqn:Hh.
  { split; [discriminate|]. intros (_ & Hall & _).
    assert (Hnone : hSweep cols blocked region tlen c0 minStart maxStart
                      (base + lineOff) (Z.to_nat sweepMax) 1 = None);
      [|congruence].
    apply hSweep_None. intros o c' Ho Hc. apply (Hall o); [lia | done]. }
  destruct (vSweep _ _ _ _ _ _ _ _ _ _ _) as [cand|] eqn:Hv.
  { split; [discriminate|]. intros (_ & _ & Hall).
    assert (Hnone : vSweep cols rows blocked region twoLines tlen c0 lineOff
                      base (Z.to_nat (rows - 1)) 1 = None);
      [|congruence].
    apply vSweep_None. intros o c' Ho Hc. apply (Hall o); [lia | done]. }
  split; [intros _ | done]. split; [congruence|]. split.
  - intros off c Hoff Hc.
    eapply (proj1 (hSweep_None _ _ _ _ _ _ _ _ _ _)); [exact Hh | | exact Hc].
    lia.
  - intros vOff cand Hoff Hc.
    eapply (proj1 (vSweep_None _ _ _ _ _ _ _ _ _ _ _)); [exact Hv | | exact Hc].
    lia.
Qed.

(** An accepted line fits where it is put, and the base row of a two-line
    label stays inside the band. *)
Lemma placeLine_Some (cols rows : Z) (blocked : OccupiedSet)
    (region : MatrixRegion) (twoLines : bool) (li : nat) (L : jsstring)
    (base c base' : Z) :
  placeLine cols rows blocked region twoLines li L base = Some (c, base') ->
  canFitInRegion (len L) c
    (base' + match li with O => 0 | _ => LINE_GAP_ROWS end)
    blocked region MARGIN cols = true /\
  (twoLines = true ->
   TOP <= base /\ base + 1 <= bottomOf rows ->
   TOP <= base' /\ base' + 1 <= bottomOf rows).
Proof.
  unfold placeLine. cbv zeta.
  destruct (fitsAt _ _ _ _ _ _) eqn:Hfit; [by intros [= <- <-]|].
  destruct (hSweep _ _ _ _ _ _ _ _ _ _) as [c1|] eqn:Hh.
  { intros [= <- <-]. by apply hSweep_Some in Hh as [_ ?]. }
  destruct (vSweep _ _ _ _ _ _ _ _ _ _ _) as [cand|] eqn:Hv; [|discriminate].
  intros [= <- <-]. apply vSweep_Some in Hv as [Hband ?]. split; [done|].
  intros Htwo _. by apply Hband.
Qed.

Lemma placeLines_None (cols rows : Z) (blocked : OccupiedSet)
    (region : MatrixRegion) (twoLines : bool) (ls : list jsstring) :
  forall li base,
    placeLines cols rows blocked region twoLines li ls base = None <->
    exists pre L post starts b,
      ls = pre ++ L :: post /\
      placeLines cols rows blocked region twoLines li pre base
        = Some (starts, b) /\
      unplaceable cols rows blocked region twoLines (li + length pre) L b.
Proof.
  induction ls as [|L ls IH]; intros li base; cbn [placeLines].
  { split; [discriminate|]. intros (pre & L & post & _ & _ & Heq & _).
    by destruct pre. }
  destruct (placeLine _ _ _ _ _ li L base) as [[c base']|] eqn:Hpl.
  - destruct (placeLines _ _ _ _ _ (S li) ls base') as [[cs b']|] eqn:Hrest.
    + split; [discriminate|].
      intros (pre & L' & post & starts & b & Heq & Hpre & Hun).
      destruct pre as [|L0 pre]; cbn [app] in Heq; injection Heq as <- ->.
      * cbn [placeLines] in Hpre. injection Hpre as <- <-.
        rewrite Nat.add_0_r in Hun. apply placeLine_None in Hun. congruence.
      * cbn [placeLines] in Hpre. rewrite Hpl in Hpre.
        destruct (placeLines _ _ _ _ _ (S li) pre base') as [[cs0 b0]|] eqn:Hp;
          [|discriminate].
        injection Hpre as <- <-.
        assert (Hnone : placeLines cols rows blocked region twoLines (S li)
                          (pre ++ L' :: post) base' = None); [|congruence].
        apply IH. exists pre, L', post, cs0, b0. split; [done|].
        split; [done|]. cbn [length] in Hun.
        by replace (S li + length pre)%nat with (li + S (length pre))%nat by lia.
    + split; [intros _ | done].
      apply IH in Hrest as (pre & L' & post & starts & b & -> & Hpre & Hun).
      exists (L :: pre), L', post, (c :: starts), b. split; [done|].
      cbn [placeLines length]. rewrite Hpl, Hpre. split; [done|].
      by replace (li + S (length pre))%nat with (S li + length pre)%nat by lia.
  - split; [intros _ | done].
    exists [], L, ls, [], base. split; [done|]. split; [done|].
    rewrite Nat.add_0_r. by apply placeLine_None.
Qed.

Lemma truthy_false (s : jsstring) : truthy s = false <-> s = [].
Proof. by destruct s. Qed.

(** C2: [placeWordIntoGrid] returns [null] exactly when the text is empty
    or [cols] or [rows] is zero, or when some line, reached after the lines
    before it were placed, is rejected at its ideal column, at every column
    of the horizontal sweep and at every row of the vertical sweep; and
    whenever it returns [null] the occupied set is the one it was given. *)
Theorem placeWordIntoGrid_null (txt : jsstring) (cols rows : Z)
    (blocked : OccupiedSet) (fontSize idx total : Z) (region : MatrixRegion)
    (opts : PlaceWordIntoGridOptions) (rnd : RandomSource) :
  let res := placeWordIntoGrid txt cols rows blocked fontSize idx total
                               region opts rnd in
  let lns := linesOf txt region opts in
  let twoLines := (length lns =? 2)%nat in
  let base0 := initialBaseRow rows idx total (length lns) opts in
  (res.1 = None <->
   (txt = [] \/ cols = 0 \/ rows = 0) \/
   exists pre L post starts b,
     lns = pre ++ L :: post /\
     placeLines cols rows blocked region twoLines 0 pre base0
       = Some (starts, b) /\
     unplaceable cols rows blocked region twoLines (length pre) L b) /\
  (res.1 = None -> res.2 = blocked).
Proof.
  cbv zeta. unfold placeWordIntoGrid.
  destruct (truthy txt) eqn:Htxt; cbn [negb orb].
  2:{ apply truthy_false in Htxt. split; [|done]. split; [intros _ | done].
      left. by left. }
  destruct (Z.eqb_spec cols 0) as [Hc|Hc]; cbn [orb].
  { split; [|done]. split; [intros _ | done]. left. right. by left. }
  destruct (Z.eqb_spec rows 0) as [Hr|Hr].
  { split; [|done]. split; [intros _ | done]. left. right. by right. }
  assert (Htxt' : txt <> []) by (intros ->; discriminate).
  destruct (placeLines _ _ _ _ _ 0 _ _) as [[starts base]|] eqn:Hpl.
  - destruct (buildLines _ _ _ _ _ _ _ _) as [[ltrs metas] blocked'].
    cbn [fst snd]. split; [|discriminate]. split; [discriminate|].
    intros [[?|[?|?]]|Hun]; [done | done | done |].
    apply placeLines_None in Hun. congruence.
  - cbn [fst snd]. split; [|done]. split; [intros _ | done]. right.
    by apply placeLines_None in Hpl.
Qed.

Lemma placeWordIntoGrid_null_witness :
  (placeWordIntoGrid (lit "abcd") 20 4 blockedAround 10 0 1 tenCols (atRow 2)
                     drawZero).2 = blockedAround.
Proof.
  apply (placeWordIntoGrid_null (lit "abcd") 20 4 blockedAround 10 0 1 tenCols
           (atRow 2) drawZero).
  vm_compute. reflexivity.
Defined.

(** ** Placement engine: rows *)

Lemma clampInt_range (v lo hi : Z) : lo <= hi -> lo <= clampInt v lo hi <= hi.
Proof. unfold clampInt. lia. Qed.

Lemma bottomOf_ge (rows : Z) : 3 <= bottomOf rows.
Proof. unfold bottomOf. lia. Qed.

Lemma initialBaseRow_band (rows idx total : Z) (opts : PlaceWordIntoGridOptions) :
  let base0 := initialBaseRow rows idx total 2 opts in
  TOP <= base0 /\ base0 + 1 <= bottomOf rows.
Proof.
  cbv zeta. unfold initialBaseRow. cbv zeta. cbn [Nat.eqb andb].
  pose proof (bottomOf_ge rows) as Hb.
  set (base := match optBaseRow opts with Some _ => _ | None => _ end).
  assert (Hbase : TOP <= base <= bottomOf rows).
  { subst base. unfold TOP in *. destruct (optBaseRow opts).
    - apply clampInt_range. lia.
    - destruct (_ =? 1).
      + split; [apply Z.div_le_lower_bound | apply Z.div_le_upper_bound]; lia.
      + apply clampInt_range. lia. }
  unfold TOP in *. destruct (Z.gtb_spec (base + 1) (bottomOf rows)); lia.
Qed.

Lemma placeLines_band (cols rows : Z) (blocked : OccupiedSet)
    (region : MatrixRegion) (ls : list jsstring) :
  forall li base starts base',
    placeLines cols rows blocked region true li ls base = Some (starts, base') ->
    TOP <= base /\ base + 1 <= bottomOf rows ->
    TOP <= base' /\ base' + 1 <= bottomOf rows.
Proof.
  induction ls as [|L ls IH]; intros li base starts base'; cbn [placeLines].
  { by intros [= <- <-]. }
  destruct (placeLine _ _ _ _ _ li L base) as [[c b1]|] eqn:Hpl; [|discriminate].
  destruct (placeLines _ _ _ _ _ (S li) ls b1) as [[cs b2]|] eqn:Hrest;
    [|discriminate].
  intros [= <- <-] Hband. eapply IH; [exact Hrest|].
  apply placeLine_Some in Hpl as [_ Hkeep]. by apply Hkeep.
Qed.

Lemma buildLines_rows (fontSize : Z) (rnd : RandomSource) (base : Z)
    (ls : list jsstring) :
  forall li starts k blocked m,
    m ∈ (buildLines fontSize rnd base li ls starts k blocked).1.2 ->
    row m = base \/ row m = base + LINE_GAP_ROWS.
Proof.
  induction ls as [|L ls IH]; intros li starts k blocked m; cbn [buildLines].
  { intros Hin. by apply elem_of_nil in Hin. }
  destruct starts as [|c starts]; [intros Hin; by apply elem_of_nil in Hin|].
  destruct (buildLine _ _ _ L c k blocked) as [[l1 k1] b1].
  destruct (buildLines _ _ _ (S li) ls starts k1 b1) as [[l2 ms] b2] eqn:Hrest.
  cbn [fst snd]. intros [->|Hin]%elem_of_cons.
  - cbn [row]. destruct li; [left; lia | by right].
  - apply (IH (S li) starts k1 b1). by rewrite Hrest.
Qed.

(** A two-line label is placed inside the band of rows. *)
Lemma placeWordIntoGrid_two_lines_band (txt : jsstring) (cols rows : Z)
    (blocked : OccupiedSet) (fontSize idx total : Z) (region : MatrixRegion)
    (opts : PlaceWordIntoGridOptions) (rnd : RandomSource)
    (p : PlaceWordIntoGridResult) (blocked' : OccupiedSet) (m : MatrixMetaLine) :
  placeWordIntoGrid txt cols rows blocked fontSize idx total region opts rnd
    = (Some p, blocked') ->
  length (linesOf txt region opts) = 2%nat ->
  m ∈ meta p ->
  TOP <= row m <= bottomOf rows.
Proof.
  unfold placeWordIntoGrid. intros Hplace Hlen.
  destruct (negb (truthy txt) || (cols =? 0) || (rows =? 0)); [discriminate|].
  rewrite Hlen in Hplace. cbn [Nat.eqb] in Hplace.
  destruct (placeLines _ _ _ _ _ 0 _ _) as [[starts base]|] eqn:Hpl;
    [|discriminate].
  apply placeLines_band in Hpl; [|apply initialBaseRow_band].
  destruct (buildLines _ _ _ _ _ _ _ _) as [[ltrs metas] b2] eqn:Hbuild.
  injection Hplace as <- <-. cbn [meta]. intros Hin.
  assert (Hrow : row m = base \/ row m = base + LINE_GAP_ROWS).
  { eapply (buildLines_rows fontSize rnd base _ 0 starts 0%nat blocked).
    by rewrite Hbuild. }
  unfold LINE_GAP_ROWS in Hrow. lia.
Qed.

(** C9: [canFitInRegion] puts no bound on its row (on an empty set it
    answers the same for every row, and scenario B's first check succeeds
    at every row); the vertical sweep keeps a two-line label inside the band
    from [top] to [bottom], but not a one-line label: a one-line label can be
    placed at row [-1], and at row [10] of a grid of 10 rows. *)
Theorem single_line_row_outside_grid :
  (forall tlen c r r' region margin cols,
     canFitInRegion tlen c r ∅ region margin cols =
     canFitInRegion tlen c r' ∅ region margin cols) /\
  (forall r,
     canFitInRegion 4 52 r ∅ {| startCol := 50; endCol := 80 |} 1 120 = true) /\
  (forall txt cols rows blocked fontSize idx total region opts rnd p blocked' m,
     placeWordIntoGrid txt cols rows blocked fontSize idx total region opts rnd
       = (Some p, blocked') ->
     length (linesOf txt region opts) = 2%nat ->
     m ∈ meta p ->
     TOP <= row m <= bottomOf rows) /\
  (exists p blocked',
     placeWordIntoGrid (lit "abcd") 20 10 blockedAbove 10 0 1 tenCols
                       (atRow 2) drawZero = (Some p, blocked') /\
     length (linesOf (lit "abcd") tenCols (atRow 2)) = 1%nat /\
     map row (meta p) = [-1]) /\
  (exists p blocked',
     placeWordIntoGrid (lit "abcd") 20 10 blockedBelow 10 0 1 tenCols
                       (atRow 7) drawZero = (Some p, blocked') /\
     length (linesOf (lit "abcd") tenCols (atRow 7)) = 1%nat /\
     map row (meta p) = [10] /\ ~ (10 < 10)).
Proof.
  split; [apply canFitInRegion_any_row|].
  split; [intros r; rewrite (canFitInRegion_any_row _ _ r 10); reflexivity|].
  split; [apply placeWordIntoGrid_two_lines_band|].
  split.
  - eexists _, _. split; [vm_compute; reflexivity|]. by vm_compute.
  - eexists _, _. split; [vm_compute; reflexivity|].
    split; [by vm_compute|]. split; [by vm_compute | lia].
Qed.

Lemma single_line_row_outside_grid_witness : TOP <= 11 <= bottomOf 20.
Proof.
  destruct single_line_row_outside_grid as (_ & _ & H & _).
  eapply (H (lit "ABCDEFGHIJKLMNOP") 40 20 ∅ 20 1 3
            {| startCol := 24; endCol := 36 |} noOptions drawZero _ _
            {| text := lit "LMNOP"; mStartCol := 28; row := 11 |}).
  - vm_compute. reflexivity.
  - reflexivity.
  - cbn [meta]. apply list_elem_of_further, list_elem_of_here.
Defined.

(** ** Placement engine: what depends on [Math.random] *)

Lemma buildLine_shape (fontSize : Z) (rnd1 rnd2 : RandomSource) (r : Z)
    (L : jsstring) :
  forall col k1 k2 blocked,
    let out1 := buildLine fontSize rnd1 r L col k1 blocked in
    let out2 := buildLine fontSize rnd2 r L col k2 blocked in
    map eraseTy out1.1.1 = map eraseTy out2.1.1 /\ out1.2 = out2.2.
Proof.
  induction L as [|ch L IH]; intros col k1 k2 blocked; cbn [buildLine];
    [done|].
  destruct (ch =? SPACE)%N; [apply IH|].
  specialize (IH (col + 1) (S k1) (S k2) ({[ cellKey col r ]} ∪ blocked)).
  cbv zeta in IH.
  destruct (buildLine fontSize rnd1 _ _ _ (S k1) _) as [[l1 k1'] b1].
  destruct (buildLine fontSize rnd2 _ _ _ (S k2) _) as [[l2 k2'] b2].
  cbn [fst snd map] in *. destruct IH as [Hl Hb]. by rewrite Hl, Hb.
Qed.

Lemma buildLines_shape (fontSize : Z) (rnd1 rnd2 : RandomSource) (base : Z)
    (ls : list jsstring) :
  forall li starts k1 k2 blocked,
    let out1 := buildLines fontSize rnd1 base li ls starts k1 blocked in
    let out2 := buildLines fontSize rnd2 base li ls starts k2 blocked in
    map eraseTy out1.1.1 = map eraseTy out2.1.1 /\
    out1.1.2 = out2.1.2 /\ out1.2 = out2.2.
Proof.
  induction ls as [|L ls IH]; intros li starts k1 k2 blocked;
    cbn [buildLines]; [done|].
  destruct starts as [|c starts]; [done|].
  pose proof (buildLine_shape fontSize rnd1 rnd2
                (base + match li with O => 0 | _ => LINE_GAP_ROWS end)
                L c k1 k2 blocked) as Hline.
  cbv zeta in Hline.
  destruct (buildLine fontSize rnd1 _ L c k1 blocked) as [[l1 k1'] b1].
  destruct (buildLine fontSize rnd2 _ L c k2 blocked) as [[l2 k2'] b2].
  cbn [fst snd] in Hline. destruct Hline as [Hl <-].
  specialize (IH (S li) starts k1' k2' b1). cbv zeta in IH.
  destruct (buildLines fontSize rnd1 _ _ _ _ k1' b1) as [[l1' m1] b1'].
  destruct (buildLines fontSize rnd2 _ _ _ _ k2' b1) as [[l2' m2] b2'].
  cbn [fst snd] in *. destruct IH as (Hl' & -> & ->).
  by rewrite !map_app, Hl, Hl'.
Qed.

Lemma buildLine_ext (fontSize : Z) (rnd1 rnd2 : RandomSource) (r : Z)
    (L : jsstring) :
  (forall k, rnd1 k = rnd2 k) ->
  forall col k blocked,
    buildLine fontSize rnd1 r L col k blocked =
    buildLine fontSize rnd2 r L col k blocked.
Proof.
  intros Hext. induction L as [|ch L IH]; intros col k blocked;
    cbn [buildLine]; [done|].
  by rewrite !IH, Hext.
Qed.

Lemma buildLines_ext (fontSize : Z) (rnd1 rnd2 : RandomSource) (base : Z)
    (ls : list jsstring) :
  (forall k, rnd1 k = rnd2 k) ->
  forall li starts k blocked,
    buildLines fontSize rnd1 base li ls starts k blocked =
    buildLines fontSize rnd2 base li ls starts k blocked.
Proof.
  intros Hext. induction ls as [|L ls IH]; intros li starts k blocked;
    cbn [buildLines]; [done|].
  destruct starts as [|c starts]; [done|].
  rewrite (buildLine_ext fontSize rnd1 rnd2 _ L Hext).
  destruct (buildLine fontSize rnd2 _ L c k blocked) as [[l1 k1] b1].
  by rewrite IH.
Qed.

(** Every letter's [ty] is [-100 - r * 300] for a value [r] drawn from
    [Math.random]. *)
Lemma buildLine_ty (fontSize : Z) (rnd : RandomSource) (r : Z) (L : jsstring) :
  forall col k blocked,
    Forall (fun l => exists j, ty l = (-100 - rnd j * 300)%Q)
           (buildLine fontSize rnd r L col k blocked).1.1.
Proof.
  induction L as [|ch L IH]; intros col k blocked; cbn [buildLine];
    [constructor|].
  destruct (ch =? SPACE)%N; [apply IH|].
  specialize (IH (col + 1) (S k) ({[ cellKey col r ]} ∪ blocked)).
  destruct (buildLine _ _ _ L (col + 1) (S k) _) as [[ls k'] b'].
  cbn [fst] in *. constructor; [|done]. by exists k.
Qed.

Lemma buildLines_ty (fontSize : Z) (rnd : RandomSource) (base : Z)
    (ls : list jsstring) :
  forall li starts k blocked,
    Forall (fun l => exists j, ty l = (-100 - rnd j * 300)%Q)
           (buildLines fontSize rnd base li ls starts k blocked).1.1.
Proof.
  induction ls as [|L ls IH]; intros li starts k blocked; cbn [buildLines];
    [constructor|].
  destruct starts as [|c starts]; [constructor|].
  pose proof (buildLine_ty fontSize rnd
                (base + match li with O => 0 | _ => LINE_GAP_ROWS end)
                L c k blocked) as Hline.
  destruct (buildLine _ _ _ L c k blocked) as [[l1 k1] b1].
  specialize (IH (S li) starts k1 b1).
  destruct (buildLines _ _ _ (S li) ls starts k1 b1) as [[l2 ms] b2].
  cbn [fst] in *. apply Forall_app. by split.
Qed.

(** C8, as the specification states it, fails on the field [ty]: with the
    same occupied set and the same arguments, an invocation during which
    [Math.random] returns 0 and one during which it returns 1/2 give the
    first letter different offsets [ty]. *)
Lemma placeWordIntoGrid_ty_not_deterministic :
  let place rnd :=
    placeWordIntoGrid (lit "abcd") 20 10 ∅ 10 0 1 tenCols noOptions rnd in
  ~ (place drawZero = place drawHalf) /\
  exists p1 p2 l1 l2,
    (place drawZero).1 = Some p1 /\ (place drawHalf).1 = Some p2 /\
    head (letters p1) = Some l1 /\ head (letters p2) = Some l2 /\
    ~ (ty l1 == ty l2)%Q.
Proof.
  cbv zeta. split.
  - intros Heq. vm_compute in Heq. discriminate Heq.
  - eexists _, _, _, _. repeat split; try (vm_compute; reflexivity).
    vm_compute. discriminate.
Qed.

(** C8 (amended): for a fixed occupied set and fixed arguments, two
    invocations agree on whether a placement is returned, on the occupied
    set they leave, and on every field of the placement (text, line
    anchors, and each letter's [char], [x], [y] and [locked]) except the
    letters' [ty], which is [-100 - r * 300] for a value [r] drawn from
    [Math.random]; when [Math.random] returns the same values in both
    invocations the outputs are identical. *)
Theorem placeWordIntoGrid_deterministic (txt : jsstring) (cols rows : Z)
    (blocked : OccupiedSet) (fontSize idx total : Z) (region : MatrixRegion)
    (opts : PlaceWordIntoGridOptions) (rnd1 rnd2 : RandomSource) :
  let out1 := placeWordIntoGrid txt cols rows blocked fontSize idx total
                                region opts rnd1 in
  let out2 := placeWordIntoGrid txt cols rows blocked fontSize idx total
                                region opts rnd2 in
  shape <$> out1.1 = shape <$> out2.1 /\
  out1.2 = out2.2 /\
  (forall p, out1.1 = Some p ->
     Forall (fun l => exists j, ty l = (-100 - rnd1 j * 300)%Q) (letters p)) /\
  ((forall k, rnd1 k = rnd2 k) -> out1 = out2).
Proof.
  cbv zeta. unfold placeWordIntoGrid.
  destruct (negb (truthy txt) || (cols =? 0) || (rows =? 0)); [done|].
  destruct (placeLines _ _ _ _ _ 0 _ _) as [[starts base]|]; [|done].
  split; [|split; [|split]].
  - pose proof (buildLines_shape fontSize rnd1 rnd2 base
                  (linesOf txt region opts) 0 starts 0 0 blocked) as H.
    cbv zeta in H.
    destruct (buildLines fontSize rnd1 _ _ _ _ _ _) as [[l1 m1] b1].
    destruct (buildLines fontSize rnd2 _ _ _ _ _ _) as [[l2 m2] b2].
    cbn [fst snd] in *. destruct H as (Hl & -> & _).
    cbn [fmap option_fmap option_map]. unfold shape. cbn [rText letters meta].
    by rewrite Hl.
  - pose proof (buildLines_shape fontSize rnd1 rnd2 base
                  (linesOf txt region opts) 0 starts 0 0 blocked) as H.
    cbv zeta in H.
    destruct (buildLines fontSize rnd1 _ _ _ _ _ _) as [[l1 m1] b1].
    destruct (buildLines fontSize rnd2 _ _ _ _ _ _) as [[l2 m2] b2].
    cbn [fst snd] in *. by destruct H as (_ & _ & ->).
  - pose proof (buildLines_ty fontSize rnd1 base (linesOf txt region opts)
                  0 starts 0 blocked) as H.
    destruct (buildLines fontSize rnd1 _ _ _ _ _ _) as [[l1 m1] b1].
    cbn [fst snd] in *. by intros p [= <-].
  - intros Hext. by rewrite (buildLines_ext fontSize rnd1 rnd2 _ _ Hext).
Qed.

Lemma placeWordIntoGrid_deterministic_witness :
  placeWordIntoGrid (lit "abcd") 20 10 ∅ 10 0 1 tenCols noOptions drawZero =
  placeWordIntoGrid (lit "abcd") 20 10 ∅ 10 0 1 tenCols noOptions
                    (fun k => (0 * inject_Z (Z.of_nat k))%Q).
Proof.
  apply (placeWordIntoGrid_deterministic (lit "abcd") 20 10 ∅ 10 0 1 tenCols
           noOptions drawZero (fun k => (0 * inject_Z (Z.of_nat k))%Q)).
  intros k. reflexivity.
Defined.

(** ** Placement engine: occupied cells *)

Lemma union_cell (a : string) (X Y : OccupiedSet) :
  {[ a ]} ∪ X ∪ Y = X ∪ ({[ a ]} ∪ Y).
Proof. by rewrite (comm_L (∪) {[ a ]} X), <- (assoc_L (∪)). Qed.

Lemma buildLine_cells (fontSize : Z) (rnd : RandomSource) (r : Z)
    (L : jsstring) :
  forall col k blocked,
    (buildLine fontSize rnd r L col k blocked).2 =
    blocked ∪ keysOf (map (fun c => (c, r)) (seqZ col (len L))).
Proof.
  induction L as [|ch L IH]; intros col k blocked; cbn [buildLine].
  { change (seqZ col (len [])) with (@nil Z). unfold keysOf.
    cbn [map list_to_set snd].
    by rewrite (right_id_L ∅ (∪)). }
  assert (Hseq : seqZ col (len (ch :: L)) = col :: seqZ (col + 1) (len L)).
  { unfold len. cbn [length]. rewrite seqZ_cons by lia. f_equal. f_equal; lia. }
  rewrite Hseq. unfold keysOf in *. cbn [map list_to_set fst snd].
  destruct (ch =? SPACE)%N.
  - rewrite IH. apply union_cell.
  - specialize (IH (col + 1) (S k) ({[ cellKey col r ]} ∪ blocked)).
    destruct (buildLine _ _ _ L (col + 1) (S k) _) as [[ls k'] b'].
    cbn [snd] in *. rewrite IH. apply union_cell.
Qed.

Lemma buildLines_cells (fontSize : Z) (rnd : RandomSource) (base : Z)
    (ls : list jsstring) :
  forall li starts k blocked,
    let out := buildLines fontSize rnd base li ls starts k blocked in
    out.2 = blocked ∪ keysOf (concat (map metaCells out.1.2)).
Proof.
  induction ls as [|L ls IH]; intros li starts k blocked; cbn [buildLines].
  { unfold keysOf. cbn [fst snd map concat list_to_set].
    by rewrite (right_id_L ∅ (∪)). }
  destruct starts as [|c starts].
  { unfold keysOf. cbn [fst snd map concat list_to_set].
    by rewrite (right_id_L ∅ (∪)). }
  pose proof (buildLine_cells fontSize rnd
                (base + match li with O => 0 | _ => LINE_GAP_ROWS end)
                L c k blocked) as Hline.
  destruct (buildLine _ _ _ L c k blocked) as [[l1 k1] b1].
  specialize (IH (S li) starts k1 b1). cbv zeta in IH.
  destruct (buildLines _ _ _ (S li) ls starts k1 b1) as [[l2 ms] b2].
  cbn [fst snd] in *. rewrite IH, Hline.
  cbn [map concat]. unfold keysOf. rewrite map_app, list_to_set_app_L.
  unfold metaCells at 2. cbn [row mStartCol text].
  by rewrite (assoc_L (∪)).
Qed.

(** Every cell of a returned placement is in the occupied set after the
    call; nothing else is added. *)
Lemma placeWordIntoGrid_marks_cells (txt : jsstring) (cols rows : Z)
    (blocked : OccupiedSet) (fontSize idx total : Z) (region : MatrixRegion)
    (opts : PlaceWordIntoGridOptions) (rnd : RandomSource)
    (p : PlaceWordIntoGridResult) (blocked' : OccupiedSet) :
  placeWordIntoGrid txt cols rows blocked fontSize idx total region opts rnd
    = (Some p, blocked') ->
  blocked' = blocked ∪ keysOf (claimedCells p).
Proof.
  unfold placeWordIntoGrid.
  destruct (negb (truthy txt) || (cols =? 0) || (rows =? 0)); [discriminate|].
  destruct (placeLines _ _ _ _ _ 0 _ _) as [[starts base]|]; [|discriminate].
  pose proof (buildLines_cells fontSize rnd base (linesOf txt region opts)
                0 starts 0 blocked) as Hcells.
  cbv zeta in Hcells.
  destruct (buildLines _ _ _ _ _ _ _ _) as [[ltrs metas] b2].
  intros [= <- <-]. exact Hcells.
Qed.

(** X3: after a successful call a cell is occupied exactly if it was
    occupied before or the placement claims it. *)
Lemma placeWordIntoGrid_cells_after (txt : jsstring) (cols rows : Z)
    (blocked : OccupiedSet) (fontSize idx total : Z) (region : MatrixRegion)
    (opts : PlaceWordIntoGridOptions) (rnd : RandomSource)
    (p : PlaceWordIntoGridResult) (blocked' : OccupiedSet) (c r : Z) :
  placeWordIntoGrid txt cols rows blocked fontSize idx total region opts rnd
    = (Some p, blocked') ->
  cellKey c r ∈ blocked' <->
  cellKey c r ∈ blocked \/ (c, r) ∈ claimedCells p.
Proof.
  intros ->%placeWordIntoGrid_marks_cells.
  by rewrite elem_of_union, elem_of_keysOf.
Qed.

(** A label of one line is put on cells that were free at call time. *)
Lemma placeWordIntoGrid_one_line_free (txt : jsstring) (cols rows : Z)
    (blocked : OccupiedSet) (fontSize idx total : Z) (region : MatrixRegion)
    (opts : PlaceWordIntoGridOptions) (rnd : RandomSource)
    (p : PlaceWordIntoGridResult) (blocked' : OccupiedSet) (cell : Z * Z) :
  placeWordIntoGrid txt cols rows blocked fontSize idx total region opts rnd
    = (Some p, blocked') ->
  length (linesOf txt region opts) = 1%nat ->
  cell ∈ claimedCells p -> cellKey cell.1 cell.2 ∉ blocked.
Proof.
  unfold placeWordIntoGrid. intros Hplace Hlen.
  destruct (negb (truthy txt) || (cols =? 0) || (rows =? 0)); [discriminate|].
  destruct (linesOf txt region opts) as [|L [|L' ls]]; try discriminate.
  cbn [placeLines] in Hplace.
  destruct (placeLine _ _ _ _ _ 0 L _) as [[c base]|] eqn:Hpl; [|discriminate].
  cbn [buildLines] in Hplace.
  destruct (buildLine _ _ _ L c 0 blocked) as [[l1 k1] b1].
  injection Hplace as <- <-. unfold claimedCells. cbn [meta map concat].
  rewrite app_nil_r. unfold metaCells. cbn [row mStartCol text].
  intros (col & -> & Hcol%elem_of_seqZ)%list_elem_of_fmap.
  apply placeLine_Some in Hpl as [Hfit _].
  apply canFitInRegion_true in Hfit as (_ & _ & _ & _ & Hfree).
  specialize (Hfree (col - c)). replace (c + (col - c)) with col in Hfree by lia.
  apply Hfree. lia.
Qed.

(** C1 at the failing input: three labels are placed in turn on an empty
    grid. The third has two lines; its second line finds its row taken and
    moves the label one row up, to rows 4 and 5, without looking again at
    the first line, which now lies on the cells of the second label: the
    cells (3,4) to (6,4) were occupied when the third call was made and are
    claimed by two placements. *)
Theorem placeWordIntoGrid_overlaps_earlier_label :
  exists p1 p2 p3,
    firstLabel.1 = Some p1 /\ secondLabel.1 = Some p2 /\
    thirdLabel.1 = Some p3 /\
    map (fun m => (mStartCol m, row m)) (meta p1) = [(1, 6)] /\
    map (fun m => (mStartCol m, row m)) (meta p2) = [(3, 4)] /\
    map (fun m => (mStartCol m, row m)) (meta p3) = [(3, 4); (3, 5)] /\
    Forall (fun cell => cell ∈ claimedCells p2 /\ cell ∈ claimedCells p3 /\
                        cellKey cell.1 cell.2 ∈ secondLabel.2)
           [(3, 4); (4, 4); (5, 4); (6, 4)].
Proof.
  eexists _, _, _.
  split; [vm_compute; reflexivity|]. split; [vm_compute; reflexivity|].
  split; [vm_compute; reflexivity|].
  split; [reflexivity|]. split; [reflexivity|]. split; [reflexivity|].
  repeat constructor;
    try (apply list_elem_of_In; vm_compute; tauto);
    apply bool_decide_unpack; vm_compute; exact I.
Qed.

(** ** Paragraph wrapper *)

Lemma splitLoop_concat (s piece : jsstring) (inrun : bool) :
  concat (splitLoop s piece inrun) =
  piece ++ filter (fun c => isSpace c = false) s.
Proof.
  revert piece inrun. induction s as [|c s IH]; intros piece inrun;
    cbn [splitLoop].
  { cbn. by rewrite !app_nil_r. }
  destruct (isSpace c) eqn:Hc.
  - rewrite filter_cons_False by congruence.
    destruct inrun; [apply IH|]. cbn [concat]. by rewrite IH.
  - rewrite filter_cons_True by done. rewrite IH. by rewrite <- app_assoc.
Qed.

Lemma splitLoop_no_space (s piece : jsstring) (inrun : bool) :
  Forall (fun c => isSpace c = false) piece ->
  Forall (Forall (fun c => isSpace c = false)) (splitLoop s piece inrun).
Proof.
  revert piece inrun. induction s as [|c s IH]; intros piece inrun Hp;
    cbn [splitLoop].
  { by constructor. }
  destruct (isSpace c) eqn:Hc.
  - destruct inrun; [by apply IH|]. constructor; [done|]. by apply IH.
  - apply IH. apply Forall_app. split; [done|]. by constructor.
Qed.

Lemma concat_filter_truthy (l : list jsstring) :
  concat (filter (fun w => truthy w = true) l) = concat l.
Proof.
  induction l as [|w l IH]; [done|].
  destruct w as [|c w].
  - rewrite filter_cons_False by done. done.
  - rewrite filter_cons_True by done. cbn [concat]. by rewrite IH.
Qed.

(** The words are the non-empty pieces of the text between white space:
    no word is empty, no word holds white space, and together they are the
    characters of the text that are not white space. *)
Lemma wordsOf_spec (s : jsstring) :
  Forall (fun w => w <> [] /\ Forall (fun c => isSpace c = false) w)
         (wordsOf s) /\
  concat (wordsOf s) = filter (fun c => isSpace c = false) s.
Proof.
  unfold wordsOf, splitSpaces. split.
  - apply Forall_forall. intros w [Ht Hin]%list_elem_of_filter. split.
    + by destruct w.
    + pose proof (splitLoop_no_space s [] false (Forall_nil_2 _)) as Hall.
      by apply (proj1 (Forall_forall _ _) Hall).
  - by rewrite concat_filter_truthy, splitLoop_concat.
Qed.

Lemma unwords_snoc (g : list jsstring) (w : jsstring) :
  g <> [] -> unwords (g ++ [w]) = unwords g ++ [SPACE] ++ w.
Proof.
  destruct g as [|w0 g]; [done|]. intros _.
  cbn [unwords app]. by rewrite fold_left_app.
Qed.

Lemma fold_join_nonempty (g : list jsstring) (acc : jsstring) :
  acc <> [] -> fold_left (fun a v => a ++ [SPACE] ++ v) g acc <> [].
Proof.
  revert acc. induction g as [|w g IH]; intros acc Hacc; [done|].
  cbn [fold_left]. apply IH. by destruct acc.
Qed.

Lemma unwords_truthy (g : list jsstring) :
  Forall (fun w => w <> []) g -> g <> [] -> truthy (unwords g) = true.
Proof.
  destruct g as [|w g]; [done|]. intros Hne _. cbn [unwords].
  apply Forall_cons in Hne as [Hw _].
  pose proof (fold_join_nonempty g w Hw) as H.
  by destruct (fold_left _ g w).
Qed.

Lemma greedy_app_l (maxCols : Z) (a b : list (list jsstring)) :
  greedy maxCols (a ++ b) -> greedy maxCols a.
Proof.
  induction a as [|g [|g' a] IH]; [done | done |].
  cbn [app greedy]. intros [Hhd Htl]. split; [done|]. by apply IH.
Qed.

Lemma greedy_last_change (maxCols : Z) (gs : list (list jsstring))
    (c c' : list jsstring) :
  head c = head c' ->
  greedy maxCols (gs ++ [c]) -> greedy maxCols (gs ++ [c']).
Proof.
  intros Hhd. induction gs as [|g [|g' gs] IH]; [done | |].
  - cbn [app greedy]. intros [H _]. split; [|done].
    destruct c as [|w c], c' as [|w' c']; try done.
    cbn in Hhd. by injection Hhd as <-.
  - cbn [app greedy]. intros [H Htl]. split; [done|]. by apply IH.
Qed.

Lemma greedy_snoc (maxCols : Z) (gs : list (list jsstring))
    (c : list jsstring) (w : jsstring) :
  maxCols < len (unwords (c ++ [w])) ->
  greedy maxCols (gs ++ [c]) -> greedy maxCols ((gs ++ [c]) ++ [[w]]).
Proof.
  intros Hover. induction gs as [|g [|g' gs] IH]; [done | |].
  - cbn [app greedy]. intros [H _]. done.
  - cbn [app greedy]. intros [H Htl]. split; [done|]. by apply IH.
Qed.

Lemma join_unwords (cur : list jsstring) (w : jsstring) :
  Forall (fun v => v <> []) cur ->
  (if truthy (unwords cur) then unwords cur ++ [SPACE] ++ w else w) =
  unwords (cur ++ [w]).
Proof.
  intros Hne. destruct (decide (cur = [])) as [->|Hcur]; [done|].
  by rewrite unwords_truthy, unwords_snoc.
Qed.

Lemma push_inProgress (gs : list (list jsstring)) (cur : list jsstring) :
  Forall (fun v => v <> []) cur ->
  (if truthy (unwords cur) then map unwords gs ++ [unwords cur]
   else map unwords gs) =
  map unwords (gs ++ inProgress cur).
Proof.
  intros Hne. destruct (decide (cur = [])) as [->|Hcur].
  - cbn. by rewrite app_nil_r.
  - rewrite unwords_truthy by done. rewrite map_app. by destruct cur.
Qed.

Lemma concat_inProgress (gs : list (list jsstring)) (cur : list jsstring) :
  concat (gs ++ inProgress cur) = concat gs ++ cur.
Proof.
  rewrite concat_app. destruct cur; cbn; by rewrite ?app_nil_r.
Qed.

Section WrapLoop.

Variables maxCols maxLines : Z.

(** The loop keeps the words in groups, one per line: the lines pushed
    so far ([gs]) and the line in progress ([cur]). [dropped] are the
    words left unread when the loop breaks. *)
Lemma wrapLoop_groups (ws : list jsstring) :
  forall (gs : list (list jsstring)) (cur : list jsstring),
    Forall (fun w => w <> []) ws ->
    Forall (fun w => w <> []) cur ->
    (cur = [] -> gs = []) ->
    (Z.of_nat (length gs) < maxLines - 1 \/ gs = []) ->
    Forall (fun g => g <> []) gs ->
    Forall (lineOk maxCols) gs ->
    (cur = [] \/ lineOk maxCols cur) ->
    greedy maxCols (gs ++ inProgress cur) ->
    exists gs' cur' dropped,
      wrapLoop maxCols maxLines ws (map unwords gs) (unwords cur) =
        (map unwords gs', unwords cur') /\
      concat gs' ++ cur' ++ dropped = concat gs ++ cur ++ ws /\
      Forall (fun w => w <> []) cur' /\
      Forall (fun g => g <> []) gs' /\
      Forall (lineOk maxCols) gs' /\
      (cur' = [] \/ lineOk maxCols cur') /\
      greedy maxCols (gs' ++ inProgress cur') /\
      Z.of_nat (length gs') <= Z.max (maxLines - 1) 1 /\
      ((dropped = [] /\
        (Z.of_nat (length gs') < maxLines - 1 \/ gs' = [])) \/
       (maxLines - 1 <= Z.of_nat (length gs') /\ exists w, cur' = [w])) /\
      (dropped <> [] -> gs' = [] -> maxCols < len (unwords cur')).
Proof.
  induction ws as [|w ws IH];
    intros gs cur Hws Hcur Hcg Hcont Hgs Hok Hcok Hgr; cbn [wrapLoop].
  { exists gs, cur, []. repeat (split; [done|]). split; [|split].
    - destruct Hcont as [?| ->]; [lia | cbn; lia].
    - by left.
    - by intros H; destruct H. }
  apply Forall_cons in Hws as [Hw Hws].
  rewrite (join_unwords cur w Hcur).
  destruct (Z.leb_spec (len (unwords (cur ++ [w]))) maxCols) as [Hfit|Hover].
  - destruct (IH gs (cur ++ [w])) as (gs' & cur' & dropped & Hrun & Hcat & Hrest);
      try done.
    + apply Forall_app. split; [done|]. by constructor.
    + by destruct cur.
    + right. by left.
    + destruct cur as [|v cur]; [by rewrite (Hcg eq_refl)|].
      by apply (greedy_last_change maxCols gs (v :: cur)).
    + exists gs', cur', dropped. split; [done|]. split; [|done].
      by rewrite Hcat, <- !app_assoc.
  - rewrite (push_inProgress gs cur Hcur).
    set (gs1 := gs ++ inProgress cur).
    assert (Hlen1 : (length gs1 <= S (length gs))%nat).
    { subst gs1. rewrite length_app. destruct cur; cbn; lia. }
    assert (Hne1 : Forall (fun g => g <> []) gs1).
    { subst gs1. apply Forall_app. split; [done|].
      destruct cur; [constructor|]. constructor; [done | constructor]. }
    assert (Hok1 : Forall (lineOk maxCols) gs1).
    { subst gs1. apply Forall_app. split; [done|].
      destruct Hcok as [->|Hc]; [constructor|].
      destruct cur; [constructor|]. constructor; [exact Hc | constructor]. }
    assert (Hokw : lineOk maxCols [w]).
    { destruct (Z.le_gt_cases (len w) maxCols) as [?|?]; [by left|].
      right. exists w. split; [done | lia]. }
    assert (Hgr1 : greedy maxCols (gs1 ++ inProgress [w])).
    { subst gs1. destruct cur as [|v cur]; [by rewrite (Hcg eq_refl)|].
      by apply greedy_snoc. }
    assert (Hcat1 : concat gs1 ++ [w] ++ ws = concat gs ++ cur ++ w :: ws).
    { subst gs1. by rewrite concat_inProgress, <- app_assoc. }
    rewrite length_map.
    destruct (Z.geb_spec (Z.of_nat (length gs1)) (maxLines - 1)) as [Hcap|Hgo].
    + exists gs1, [w], ws. split; [done|]. split; [done|].
      split; [constructor; [done | constructor]|].
      split; [done|]. split; [done|].
      split; [by right|]. split; [done|]. split; [|split].
      * destruct Hcont as [?| ->]; [lia|].
        cbn [length app] in Hlen1. lia.
      * right. split; [lia|]. by exists w.
      * intros _ Hnil. subst gs1. apply app_eq_nil in Hnil as [_ Hin].
        destruct cur as [|v cur]; [exact Hover | discriminate Hin].
    + destruct (IH gs1 [w]) as (gs' & cur' & dropped & Hrun & Hcat & Hrest);
        try done.
      * constructor; [done | constructor].
      * by left.
      * by right.
      * exists gs', cur', dropped. split; [done|]. split; [|done].
        by rewrite Hcat.
Qed.

End WrapLoop.

(** C5, as the specification states it, fails when [maxLines] is below 1.
    For [maxLines = -1] no result can have at most [maxLines] lines, and
    [wrapTextToLines("a", 10, -1)] returns no line; for [maxLines = 0] the
    line pushed inside the loop when a word overflows is not counted
    against the cap, and [wrapTextToLines("aaa bbbbbbbbbb", 10, 0)] returns
    one line. *)
Lemma wrapTextToLines_cap_below_one :
  wrapTextToLines (lit "a") 10 (-1) = [] /\
  ~ (Z.of_nat (length (wrapTextToLines (lit "a") 10 (-1))) <= -1) /\
  wrapTextToLines (lit "aaa bbbbbbbbbb") 10 0 = [lit "aaa"] /\
  ~ (Z.of_nat (length (wrapTextToLines (lit "aaa bbbbbbbbbb") 10 0)) <= 0).
Proof.
  split; [by vm_compute|]. split; [vm_compute; intros H; by apply H|].
  split; [by vm_compute|]. vm_compute. intros H. by apply H.
Qed.

(** The line [g ++ [w]] is longer than the line [g]. *)
Lemma unwords_snoc_longer (g : list jsstring) (w : jsstring) :
  g <> [] -> len (unwords g) < len (unwords (g ++ [w])).
Proof.
  intros Hg. rewrite (unwords_snoc g w Hg). unfold len.
  rewrite !length_app. cbn [length]. lia.
Qed.

(** For [maxLines >= 1] the lines returned are groups of words that meet
    the conditions [wrapsTo]. *)
Lemma wrapTextToLines_wrapsTo (s : jsstring) (maxCols maxLines : Z) :
  1 <= maxLines ->
  exists groups : list (list jsstring),
    wrapTextToLines s maxCols maxLines = map unwords groups /\
    wrapsTo maxCols maxLines (wordsOf s) groups.
Proof.
  intros Hcap. unfold wrapsTo, wrapTextToLines.
  assert (Hwords : Forall (fun w => w <> []) (wordsOf s)).
  { eapply Forall_impl; [apply (proj1 (wordsOf_spec s))|]. by intros w [? _]. }
  destruct (wrapLoop_groups maxCols maxLines (wordsOf s) [] [])
    as (gs & cur & dropped & Hrun & Hcat & Hcur & Hgs & Hok & Hcok & Hgr
        & Hlen & Hend & Hfirst); try done; [by right | by left |].
  change (map unwords []) with (@nil jsstring) in Hrun.
  change (unwords []) with (@nil codeunit) in Hrun.
  rewrite Hrun, length_map. cbn [concat app] in Hcat.
  destruct (decide (cur = [])) as [->|Hne].
  { (* nothing in progress: the lines are the pushed ones *)
    cbn [unwords truthy andb]. exists gs. rewrite app_nil_l in Hcat.
    split; [done|]. split; [lia|]. split; [done|].
    split; [by exists dropped|]. split; [done|].
    split; [by rewrite app_nil_r in Hgr|].
    destruct Hend as [[-> _]|[_ [w Hw]]]; [|done].
    rewrite app_nil_r in Hcat. split; [done|]. split; [intros ? ?; lia|].
    intros _ g w rest -> Hw. rewrite Hw in Hcat. cbn [concat] in Hcat.
    rewrite app_nil_r in Hcat. apply (f_equal length) in Hcat.
    rewrite length_app in Hcat. cbn [length] in Hcat. lia. }
  rewrite (unwords_truthy cur Hcur Hne). cbn [andb].
  assert (Hin : inProgress cur = [cur]) by (by destruct cur).
  rewrite Hin in Hgr.
  destruct (Z.ltb_spec (Z.of_nat (length gs)) maxLines) as [Hroom|Hfull].
  - (* the line in progress becomes the last line *)
    exists (gs ++ [cur]). rewrite map_app, length_app. cbn [map length].
    split; [done|]. split; [lia|].
    split; [apply Forall_app; split; [done | by constructor]|].
    split; [exists dropped; by rewrite concat_app, <- Hcat; cbn;
            rewrite app_nil_r, <- app_assoc|].
    split.
    { apply Forall_app. split; [done|]. destruct Hcok; [done|].
      constructor; [done | constructor]. }
    split; [done|]. split; [|split].
    + intros Hfew. destruct Hend as [[-> _]|[? _]]; [|lia].
      rewrite concat_app. cbn. by rewrite !app_nil_r in *.
    + intros Htwo Hexact. destruct Hend as [[_ [?| ->]]|[_ [w ->]]].
      * lia.
      * cbn [length] in Hexact. lia.
      * exists w. by rewrite last_snoc.
    + intros -> g w rest Hg Hw.
      destruct gs as [|g0 gs]; [|cbn [length] in Hroom; lia].
      cbn [app] in Hg. injection Hg as ->.
      cbn [concat app] in Hcat. rewrite Hw in Hcat.
      apply app_inv_head in Hcat.
      pose proof (unwords_snoc_longer g w Hne).
      assert (maxCols < len (unwords g)); [|lia].
      apply Hfirst; [by rewrite Hcat | done].
  - (* the cap is reached: the line in progress is dropped *)
    exists gs. split; [done|]. split; [lia|]. split; [done|].
    split; [by exists (cur ++ dropped)|]. split; [done|].
    split; [by apply greedy_app_l in Hgr|].
    split; [intros; lia|]. split; [intros; lia|].
    intros -> g w rest -> Hw.
    destruct Hend as [[_ [?|?]]|[_ [w0 ->]]]; [lia | done |].
    cbn [app greedy] in Hgr. destruct Hgr as [Hgr _].
    cbn [concat app] in Hcat. rewrite app_nil_r, Hw in Hcat.
    apply app_inv_head in Hcat. by injection Hcat as -> _.
Qed.

(** C5 (amended): for every text and [maxCols], and every [maxLines >= 1],
    [wrapTextToLines] returns at most [maxLines] lines. Each line is a
    non-empty run of consecutive words of the text joined by single spaces,
    the runs taken in order from the first word on; a line is at most
    [maxCols] long unless it is a single word longer than [maxCols]; the
    lines are filled greedily (the first word of a line did not fit on the
    line before); words are left out only when [maxLines] lines are
    returned, and then, for [maxLines >= 2], the last line is the single
    word that overflowed line [maxLines - 1]: the words after it are
    dropped; for [maxLines = 1] the one line returned is filled greedily
    too: the word after it, if there is one, did not fit on it. *)
Theorem wrapTextToLines_spec (s : jsstring) (maxCols maxLines : Z) :
  1 <= maxLines ->
  exists groups : list (list jsstring),
    wrapTextToLines s maxCols maxLines = map unwords groups /\
    Z.of_nat (length groups) <= maxLines /\
    Forall (fun g => g <> []) groups /\
    concat groups `prefix_of` wordsOf s /\
    Forall (lineOk maxCols) groups /\
    greedy maxCols groups /\
    (Z.of_nat (length groups) < maxLines -> concat groups = wordsOf s) /\
    (2 <= maxLines -> Z.of_nat (length groups) = maxLines ->
     exists w, last groups = Some [w]) /\
    (maxLines = 1 -> forall g w rest,
       groups = [g] -> wordsOf s = g ++ w :: rest ->
       maxCols < len (unwords (g ++ [w]))).
Proof.
  intros Hcap.
  destruct (wrapTextToLines_wrapsTo s maxCols maxLines Hcap)
    as (groups & Hrun & Hspec).
  exists groups. split; [exact Hrun | exact Hspec].
Qed.

Lemma wrapTextToLines_spec_witness :
  exists groups : list (list jsstring),
    wrapTextToLines (lit "aa bb cc") 5 1 = map unwords groups /\
    Z.of_nat (length groups) <= 1 /\
    (forall g w rest,
       groups = [g] -> wordsOf (lit "aa bb cc") = g ++ w :: rest ->
       5 < len (unwords (g ++ [w]))).
Proof.
  destruct (wrapTextToLines_spec (lit "aa bb cc") 5 1)
    as (groups & H1 & H2 & _ & _ & _ & _ & _ & _ & H3); [lia|].
  exists groups. split; [exact H1|]. split; [exact H2 | exact (H3 eq_refl)].
Defined.

(** ** The conditions of the paragraph wrapper fix its result *)

Lemma unwords_app_longer (a k : list jsstring) :
  a <> [] -> len (unwords a) <= len (unwords (a ++ k)).
Proof.
  intros Ha. induction k as [|x k IH] using rev_ind.
  { rewrite app_nil_r. lia. }
  rewrite app_assoc.
  pose proof (unwords_snoc_longer (a ++ k) x) as H.
  assert (a ++ k <> []) by (by destruct a).
  specialize (H ltac:(done)). lia.
Qed.

(** A line that holds as many words as fit is determined by the words. *)
Lemma first_line_unique (maxCols : Z) (g1 g2 t1 t2 : list jsstring) :
  g1 ++ t1 = g2 ++ t2 ->
  g1 <> [] -> g2 <> [] ->
  lineOk maxCols g1 -> lineOk maxCols g2 ->
  (forall w t, t1 = w :: t -> maxCols < len (unwords (g1 ++ [w]))) ->
  (forall w t, t2 = w :: t -> maxCols < len (unwords (g2 ++ [w]))) ->
  g1 = g2.
Proof.
  assert (Hhalf : forall g1 g2 k t1 t2 : list jsstring,
            g1 = g2 ++ k -> t2 = k ++ t1 -> g2 <> [] -> lineOk maxCols g1 ->
            (forall w t, t2 = w :: t -> maxCols < len (unwords (g2 ++ [w]))) ->
            g1 = g2).
  { clear. intros g1 g2 k t1 t2 -> -> Hne Hok Hmax.
    destruct k as [|w k]; [by rewrite app_nil_r|]. exfalso.
    specialize (Hmax w (k ++ t1) eq_refl).
    destruct Hok as [Hfit|(x & Hx & _)].
    - pose proof (unwords_app_longer (g2 ++ [w]) k) as Hlong.
      rewrite <- app_assoc in Hlong. cbn [app] in Hlong.
      assert (g2 ++ [w] <> []) by (by destruct g2).
      specialize (Hlong ltac:(done)). lia.
    - apply (f_equal length) in Hx. rewrite length_app in Hx.
      destruct g2; [done|]. cbn [length] in Hx. lia. }
  intros Heq Hn1 Hn2 Hok1 Hok2 Hm1 Hm2.
  apply app_eq_inv in Heq as [(k & Hg & Ht)|(k & Hg & Ht)].
  - exact (Hhalf g1 g2 k t1 t2 Hg Ht Hn2 Hok1 Hm2).
  - symmetry. exact (Hhalf g2 g1 k t2 t1 Hg Ht Hn1 Hok2 Hm1).
Qed.

Lemma wrapsFrom_tail (maxCols maxLines : Z) (j : nat)
    (g : list jsstring) (groups : list (list jsstring))
    (words : list jsstring) :
  wrapsFrom maxCols maxLines j (g ++ words) (g :: groups) ->
  wrapsFrom maxCols maxLines (S j) words groups.
Proof.
  intros (Hlen & Hne & Hpre & Hok & Hgr & Hall & Hlast & _).
  cbn [length] in *. replace (j + S (length groups))%nat
    with (S j + length groups)%nat in * by lia.
  apply Forall_cons in Hne as [_ Hne]. apply Forall_cons in Hok as [_ Hok].
  split; [done|]. split; [done|].
  split; [cbn [concat] in Hpre; by apply prefix_app_inv in Hpre|].
  split; [done|].
  split; [destruct groups; [done | by destruct Hgr]|].
  split; [intros Hfew; specialize (Hall Hfew); cbn [concat] in Hall;
          by apply app_inv_head in Hall|].
  split; [|intros _ ?; lia].
  intros Htwo Hfull Hsome. destruct (Hlast Htwo Hfull) as [w Hw]; [done|].
  exists w. by destruct groups.
Qed.

(** The head line of a solution: when another line follows, the first
    word of that line did not fit; a last line holds all the words that
    are left, or it is the line at the cap. *)
Lemma wrapsFrom_head (maxCols maxLines : Z) (j : nat)
    (g : list jsstring) (groups : list (list jsstring))
    (words : list jsstring) :
  wrapsFrom maxCols maxLines j words (g :: groups) ->
  g <> [] /\ lineOk maxCols g /\
  exists t, words = g ++ t /\
    match groups with
    | _ :: _ =>
        Z.of_nat (S j) < maxLines /\
        exists w t', t = w :: t' /\ maxCols < len (unwords (g ++ [w]))
    | [] =>
        (Z.of_nat (S j) < maxLines /\ t = []) \/
        (Z.of_nat (S j) = maxLines /\ 2 <= maxLines /\ exists w, g = [w]) \/
        (maxLines = 1 /\
         forall w t', t = w :: t' -> maxCols < len (unwords (g ++ [w])))
    end.
Proof.
  intros (Hlen & Hne & [k Hpre] & Hok & Hgr & Hall & Hlast & Hone).
  apply Forall_cons in Hne as [Hg Hne]. apply Forall_cons in Hok as [Hgok Hok].
  split; [done|]. split; [done|]. cbn [concat] in Hpre.
  exists (concat groups ++ k). split; [by rewrite Hpre, <- app_assoc|].
  destruct groups as [|g' groups].
  - cbn [concat app length] in *.
    destruct (Z.lt_ge_cases (Z.of_nat (j + 1)) maxLines) as [Hfew|Hfull].
    { left. split; [lia|]. specialize (Hall Hfew). rewrite app_nil_r in *.
      rewrite Hpre in Hall. rewrite <- (app_nil_r g) in Hall at 1.
      apply app_inv_head in Hall. done. }
    right. destruct (Z.le_gt_cases 2 maxLines) as [Htwo|Hsmall].
    + left. split; [lia|]. split; [done|].
      destruct (Hlast Htwo) as [w Hw]; [lia | done |].
      exists w. by injection Hw.
    + right. assert (maxLines = 1 /\ j = 0%nat) as [-> ->] by lia.
      split; [done|]. intros w t' Hk.
      apply (Hone eq_refl eq_refl g w t' eq_refl).
      by rewrite Hpre, app_nil_r, Hk.
  - cbn [length] in Hlen. split; [lia|].
    apply Forall_cons in Hne as [Hg' _].
    destruct g' as [|w g']; [done|]. cbn [greedy] in Hgr.
    destruct Hgr as [Hover _].
    exists w, (g' ++ concat groups ++ k). split; [|done].
    cbn [concat]. by rewrite <- !app_assoc.
Qed.

(** The conditions fix the lines: two lists of lines that meet them for the
    same words are equal. *)
Lemma wrapsFrom_unique (maxCols maxLines : Z) (groups1 : list (list jsstring)) :
  forall (groups2 : list (list jsstring)) (j : nat) (words : list jsstring),
    wrapsFrom maxCols maxLines j words groups1 ->
    wrapsFrom maxCols maxLines j words groups2 ->
    groups1 = groups2.
Proof.
  assert (Hnil : forall groups j words,
            wrapsFrom maxCols maxLines j words [] ->
            wrapsFrom maxCols maxLines j words groups -> groups = []).
  { intros [|g groups] j words H1 H2; [done|]. exfalso.
    destruct H1 as (_ & _ & _ & _ & _ & Hall & _).
    destruct (wrapsFrom_head _ _ _ _ _ _ H2) as (Hg & _ & t & -> & _).
    destruct H2 as (Hlen & _). cbn [length concat] in *.
    symmetry in Hall. apply app_eq_nil in Hall as [-> _]; [done | lia]. }
  induction groups1 as [|g1 r1 IH]; intros groups2 j words H1 H2.
  { symmetry. by eapply Hnil. }
  destruct groups2 as [|g2 r2]; [by eapply Hnil|].
  destruct (wrapsFrom_head _ _ _ _ _ _ H1) as (Hn1 & Hok1 & t1 & Hw1 & Hst1).
  destruct (wrapsFrom_head _ _ _ _ _ _ H2) as (Hn2 & Hok2 & t2 & Hw2 & Hst2).
  assert (Hsame : g1 ++ t1 = g2 ++ t2) by (by rewrite <- Hw1, <- Hw2).
  assert (Hlong : forall (g g' : list jsstring) w t,
            g <> [] -> g' = g ++ w :: t -> lineOk maxCols g' ->
            maxCols < len (unwords (g ++ [w])) -> False).
  { intros g g' w t Hg -> Hok Hover. destruct Hok as [Hfit|(x & Hx & _)].
    - pose proof (unwords_app_longer (g ++ [w]) t) as Hl.
      rewrite <- app_assoc in Hl. cbn [app] in Hl.
      assert (g ++ [w] <> []) by (by destruct g).
      specialize (Hl ltac:(done)). lia.
    - apply (f_equal length) in Hx. rewrite length_app in Hx.
      destruct g; [done|]. cbn [length] in Hx. lia. }
  assert (Hhead : g1 = g2).
  { destruct r1 as [|g1' r1], r2 as [|g2' r2].
    - destruct Hst1 as [[Hf1 ->]|[(Hc1 & Ht1 & w1 & ->)|[Hm1 Hx1]]];
        destruct Hst2 as [[Hf2 ->]|[(Hc2 & Ht2 & w2 & ->)|[Hm2 Hx2]]];
        try lia.
      + by rewrite !app_nil_r in Hsame.
      + cbn [app] in Hsame. by injection Hsame as ->.
      + by eapply (first_line_unique maxCols g1 g2 t1 t2).
    - exfalso. destruct Hst2 as (Hf2 & w & t' & -> & Hover).
      destruct Hst1 as [[_ ->]|[(Hc1 & _)|[-> _]]]; [|lia|lia].
      rewrite app_nil_r in Hsame. by eapply (Hlong g2 g1 w t').
    - exfalso. destruct Hst1 as (Hf1 & w & t' & -> & Hover).
      destruct Hst2 as [[_ ->]|[(Hc2 & _)|[-> _]]]; [|lia|lia].
      rewrite app_nil_r in Hsame. by eapply (Hlong g1 g2 w t').
    - destruct Hst1 as (_ & w1 & t1' & -> & Hover1).
      destruct Hst2 as (_ & w2 & t2' & -> & Hover2).
      eapply (first_line_unique maxCols g1 g2 _ _ Hsame); try done.
      + by intros w t [= -> _].
      + by intros w t [= -> _]. }
  subst g2. f_equal. apply app_inv_head in Hsame. subst t2.
  rewrite Hw1 in H1, H2.
  eapply IH; eapply wrapsFrom_tail; eassumption.
Qed.

(** Two lists of lines that meet the conditions stated for the wrapper are
    equal: the conditions leave no choice. *)
Lemma wrapsTo_unique (maxCols maxLines : Z) (words : list jsstring)
    (groups1 groups2 : list (list jsstring)) :
  wrapsTo maxCols maxLines words groups1 ->
  wrapsTo maxCols maxLines words groups2 ->
  groups1 = groups2.
Proof.
  assert (Hfrom : forall groups,
            wrapsTo maxCols maxLines words groups ->
            wrapsFrom maxCols maxLines 0 words groups).
  { intros groups (H1 & H2 & H3 & H4 & H5 & H6 & H7 & H8).
    unfold wrapsFrom. rewrite Nat.add_0_l.
    repeat (split; [done|]).
    split; [intros Htwo Hfull _; by apply H7 | intros Hm _; by apply H8]. }
  intros H1%Hfrom H2%Hfrom. by eapply wrapsFrom_unique.
Qed.

(** The conditions fix the result of the wrapper: whatever groups of words
    meet them are the lines it returns. *)
Lemma wrapTextToLines_determined (s : jsstring) (maxCols maxLines : Z)
    (groups : list (list jsstring)) :
  1 <= maxLines ->
  wrapsTo maxCols maxLines (wordsOf s) groups ->
  wrapTextToLines s maxCols maxLines = map unwords groups.
Proof.
  intros Hcap Hspec.
  destruct (wrapTextToLines_wrapsTo s maxCols maxLines Hcap)
    as (groups' & -> & Hspec').
  by rewrite (wrapsTo_unique _ _ _ _ _ Hspec Hspec').
Qed.

(** * Further properties of the placement engine *)

Lemma buildLines_meta (fontSize : Z) (rnd : RandomSource) (base : Z)
    (ls : list jsstring) :
  forall li starts k blocked,
    (buildLines fontSize rnd base li ls starts k blocked).1.2 =
    metaLinesAt base li ls starts.
Proof.
  induction ls as [|L ls IH]; intros li starts k blocked;
    cbn [buildLines metaLinesAt]; [done|].
  destruct starts as [|c starts]; [done|].
  destruct (buildLine _ _ _ L c k blocked) as [[l1 k1] b1].
  specialize (IH (S li) starts k1 b1).
  destruct (buildLines _ _ _ (S li) ls starts k1 b1) as [[l2 ms] b2].
  cbn [fst snd] in *. by rewrite IH.
Qed.

Lemma placeLines_length (cols rows : Z) (blocked : OccupiedSet)
    (region : MatrixRegion) (twoLines : bool) (ls : list jsstring) :
  forall li base starts base',
    placeLines cols rows blocked region twoLines li ls base
      = Some (starts, base') ->
    length starts = length ls.
Proof.
  induction ls as [|L ls IH]; intros li base starts base'; cbn [placeLines].
  { by intros [= <- _]. }
  destruct (placeLine _ _ _ _ _ li L base) as [[c b1]|]; [|discriminate].
  destruct (placeLines _ _ _ _ _ (S li) ls b1) as [[cs b2]|] eqn:Hrest;
    [|discriminate].
  intros [= <- _]. cbn [length]. f_equal. by eapply IH.
Qed.

(** What a successful call returns, in terms of the two loops. *)
Lemma placeWordIntoGrid_Some (txt : jsstring) (cols rows : Z)
    (blocked : OccupiedSet) (fontSize idx total : Z) (region : MatrixRegion)
    (opts : PlaceWordIntoGridOptions) (rnd : RandomSource)
    (p : PlaceWordIntoGridResult) (blocked' : OccupiedSet) :
  placeWordIntoGrid txt cols rows blocked fontSize idx total region opts rnd
    = (Some p, blocked') ->
  let lns := linesOf txt region opts in
  exists starts base,
    placeLines cols rows blocked region (length lns =? 2)%nat 0 lns
               (initialBaseRow rows idx total (length lns) opts)
      = Some (starts, base) /\
    rText p = txt /\
    meta p = metaLinesAt base 0 lns starts /\
    letters p = (buildLines fontSize rnd base 0 lns starts 0 blocked).1.1.
Proof.
  unfold placeWordIntoGrid. cbv zeta.
  destruct (negb (truthy txt) || (cols =? 0) || (rows =? 0)); [discriminate|].
  destruct (placeLines _ _ _ _ _ 0 _ _) as [[starts base]|]; [|discriminate].
  pose proof (buildLines_meta fontSize rnd base (linesOf txt region opts)
                0 starts 0 blocked) as Hmeta.
  destruct (buildLines _ _ _ _ _ _ _ _) as [[ltrs metas] b2] eqn:Hbuild.
  cbn [fst snd] in Hmeta. intros [= <- <-]. exists starts, base.
  rewrite Hbuild. split; [done|]. split; [done|]. split; [exact Hmeta | done].
Qed.

Lemma placeLines_columns (cols rows : Z) (blocked : OccupiedSet)
    (region : MatrixRegion) (twoLines : bool) (ls : list jsstring) :
  forall li base starts base' m,
    placeLines cols rows blocked region twoLines li ls base
      = Some (starts, base') ->
    m ∈ metaLinesAt base' li ls starts ->
    startCol region + MARGIN <= mStartCol m /\
    mStartCol m + len (text m) - 1 <= endCol region - MARGIN /\
    0 <= mStartCol m /\ mStartCol m + len (text m) - 1 < cols.
Proof.
  induction ls as [|L ls IH]; intros li base starts base' m;
    cbn [placeLines].
  { intros [= <- _] Hin. by apply elem_of_nil in Hin. }
  destruct (placeLine _ _ _ _ _ li L base) as [[c b1]|] eqn:Hpl; [|discriminate].
  destruct (placeLines _ _ _ _ _ (S li) ls b1) as [[cs b2]|] eqn:Hrest;
    [|discriminate].
  intros [= <- <-]. cbn [metaLinesAt]. intros [->|Hin]%elem_of_cons.
  - cbn [mStartCol text]. apply placeLine_Some in Hpl as [Hfit _].
    apply canFitInRegion_true in Hfit. tauto.
  - by eapply IH.
Qed.

(** The line placed last is accepted at the final base row. *)
Lemma placeLines_last (cols rows : Z) (blocked : OccupiedSet)
    (region : MatrixRegion) (twoLines : bool) (ls : list jsstring) :
  forall li base starts base' m,
    placeLines cols rows blocked region twoLines li ls base
      = Some (starts, base') ->
    last (metaLinesAt base' li ls starts) = Some m ->
    canFitInRegion (len (text m)) (mStartCol m) (row m) blocked region
                   MARGIN cols = true.
Proof.
  induction ls as [|L ls IH]; intros li base starts base' m;
    cbn [placeLines].
  { by intros [= <- _]. }
  destruct (placeLine _ _ _ _ _ li L base) as [[c b1]|] eqn:Hpl; [|discriminate].
  destruct (placeLines _ _ _ _ _ (S li) ls b1) as [[cs b2]|] eqn:Hrest;
    [|discriminate].
  intros [= <- <-]. cbn [metaLinesAt].
  destruct ls as [|L' ls].
  - cbn [placeLines] in Hrest. injection Hrest as <- <-.
    cbn [metaLinesAt last]. intros [= <-]. cbn [text mStartCol row].
    by apply placeLine_Some in Hpl as [Hfit _].
  - pose proof (placeLines_length _ _ _ _ _ _ _ _ _ _ Hrest) as Hlen.
    destruct cs as [|c' cs]; [discriminate Hlen|].
    intros Hlast. eapply (IH (S li) b1 (c' :: cs) b2 m Hrest).
    by cbn [metaLinesAt last] in *.
Qed.

(** X1: every line of a returned placement lies inside the region's
    margins and inside the grid width. *)
Theorem placeWordIntoGrid_in_region (txt : jsstring) (cols rows : Z)
    (blocked : OccupiedSet) (fontSize idx total : Z) (region : MatrixRegion)
    (opts : PlaceWordIntoGridOptions) (rnd : RandomSource)
    (p : PlaceWordIntoGridResult) (blocked' : OccupiedSet) (m : MatrixMetaLine) :
  placeWordIntoGrid txt cols rows blocked fontSize idx total region opts rnd
    = (Some p, blocked') ->
  m ∈ meta p ->
  startCol region + 1 <= mStartCol m /\
  mStartCol m + len (text m) - 1 <= endCol region - 1 /\
  0 <= mStartCol m /\ mStartCol m + len (text m) - 1 < cols.
Proof.
  intros Hplace Hin.
  destruct (placeWordIntoGrid_Some _ _ _ _ _ _ _ _ _ _ _ _ Hplace)
    as (starts & base & Hpl & _ & Hmeta & _).
  rewrite Hmeta in Hin.
  exact (placeLines_columns _ _ _ _ _ _ _ _ _ _ _ Hpl Hin).
Qed.

Lemma placeWordIntoGrid_in_region_witness :
  0 + 1 <= 3 /\ 3 + 4 - 1 <= 9 - 1 /\ 0 <= 3 /\ 3 + 4 - 1 < 20.
Proof.
  eapply (placeWordIntoGrid_in_region (lit "abcd") 20 10 ∅ 10 0 1 tenCols
            noOptions drawZero _ _
            {| text := lit "abcd"; mStartCol := 3; row := 4 |}).
  - vm_compute. reflexivity.
  - cbn [meta]. apply list_elem_of_here.
Defined.

(** X2: the last line of a returned placement lies on cells that were
    free when the call was made. *)
Theorem placeWordIntoGrid_last_line_free (txt : jsstring) (cols rows : Z)
    (blocked : OccupiedSet) (fontSize idx total : Z) (region : MatrixRegion)
    (opts : PlaceWordIntoGridOptions) (rnd : RandomSource)
    (p : PlaceWordIntoGridResult) (blocked' : OccupiedSet)
    (m : MatrixMetaLine) (cell : Z * Z) :
  placeWordIntoGrid txt cols rows blocked fontSize idx total region opts rnd
    = (Some p, blocked') ->
  last (meta p) = Some m ->
  cell ∈ metaCells m ->
  cellKey cell.1 cell.2 ∉ blocked.
Proof.
  intros Hplace Hlast Hcell.
  destruct (placeWordIntoGrid_Some _ _ _ _ _ _ _ _ _ _ _ _ Hplace)
    as (starts & base & Hpl & _ & Hmeta & _).
  rewrite Hmeta in Hlast.
  pose proof (placeLines_last _ _ _ _ _ _ _ _ _ _ _ Hpl Hlast) as Hfit.
  apply canFitInRegion_true in Hfit as (_ & _ & _ & _ & Hfree).
  unfold metaCells in Hcell.
  apply list_elem_of_fmap in Hcell as (c & -> & Hc%elem_of_seqZ).
  cbn [fst snd]. specialize (Hfree (c - mStartCol m)).
  replace (mStartCol m + (c - mStartCol m)) with c in Hfree by lia.
  apply Hfree. lia.
Qed.

Lemma placeWordIntoGrid_last_line_free_witness :
  cellKey 3 5 ∉ secondLabel.2.
Proof.
  eapply (placeWordIntoGrid_last_line_free (lit "abcd efgh") 20 20
            secondLabel.2 10 2 3 tenCols (atRow 5) (fun _ => 0%Q) _ _
            {| text := lit "efgh"; mStartCol := 3; row := 5 |} (3, 5)).
  - vm_compute. reflexivity.
  - reflexivity.
  - vm_compute. apply list_elem_of_here.
Defined.

Lemma placeWordIntoGrid_cells_after_witness :
  cellKey 5 4 ∈ secondLabel.2.
Proof.
  eapply (placeWordIntoGrid_cells_after (lit "abcd") 20 20 firstLabel.2 10 1 3
            tenCols (atRow 4) (fun _ => 0%Q) _ _ 5 4).
  - vm_compute. reflexivity.
  - right. vm_compute.
    apply list_elem_of_further, list_elem_of_further, list_elem_of_here.
Defined.

Lemma buildLine_letters (fontSize : Z) (rnd : RandomSource) (r : Z)
    (L : jsstring) :
  forall col k blocked,
    map eraseTy (buildLine fontSize rnd r L col k blocked).1.1 =
    filter (fun l => l.1.1.1 <> SPACE)
      (imap (fun i ch => (ch, (col + Z.of_nat i) * fontSize,
                          r * fontSize, false)) L).
Proof.
  induction L as [|ch L IH]; intros col k blocked; cbn [buildLine imap];
    [done|].
  assert (Hshift :
    imap ((fun i ch0 => (ch0, (col + Z.of_nat i) * fontSize,
                         r * fontSize, false)) ∘ S) L =
    imap (fun i ch0 => (ch0, (col + 1 + Z.of_nat i) * fontSize,
                        r * fontSize, false)) L).
  { apply imap_ext. intros i ch0 _. cbn. do 3 f_equal. lia. }
  rewrite Hshift. destruct (N.eqb_spec ch SPACE) as [->|Hne].
  - rewrite filter_cons_False by (cbn; tauto). apply IH.
  - rewrite filter_cons_True by done.
    specialize (IH (col + 1) (S k) ({[ cellKey col r ]} ∪ blocked)).
    destruct (buildLine _ _ _ L (col + 1) (S k) _) as [[ls k'] b'].
    cbn [fst snd map] in *. rewrite IH. unfold eraseTy at 1.
    cbn [char x y locked]. by rewrite Z.add_0_r.
Qed.

Lemma buildLines_letters (fontSize : Z) (rnd : RandomSource) (base : Z)
    (ls : list jsstring) :
  forall li starts k blocked,
    map eraseTy (buildLines fontSize rnd base li ls starts k blocked).1.1 =
    concat (map (lineLetters fontSize) (metaLinesAt base li ls starts)).
Proof.
  induction ls as [|L ls IH]; intros li starts k blocked;
    cbn [buildLines metaLinesAt]; [done|].
  destruct starts as [|c starts]; [done|].
  pose proof (buildLine_letters fontSize rnd (base + lineOffset li)
                L c k blocked) as Hline.
  unfold lineOffset in Hline at 1.
  destruct (buildLine _ _ _ L c k blocked) as [[l1 k1] b1].
  specialize (IH (S li) starts k1 b1).
  destruct (buildLines _ _ _ (S li) ls starts k1 b1) as [[l2 ms] b2].
  cbn [fst snd map concat] in *. by rewrite map_app, IH, Hline.
Qed.

(** X4: the letters of a placement are, line by line and in order, the
    characters of the placed lines that are not spaces, each at the pixel
    position of its cell ([x = col * fontSize], [y = row * fontSize]) and
    not locked; a space yields no letter. *)
Theorem placeWordIntoGrid_letters (txt : jsstring) (cols rows : Z)
    (blocked : OccupiedSet) (fontSize idx total : Z) (region : MatrixRegion)
    (opts : PlaceWordIntoGridOptions) (rnd : RandomSource)
    (p : PlaceWordIntoGridResult) (blocked' : OccupiedSet) :
  placeWordIntoGrid txt cols rows blocked fontSize idx total region opts rnd
    = (Some p, blocked') ->
  map eraseTy (letters p) = concat (map (lineLetters fontSize) (meta p)).
Proof.
  intros Hplace.
  destruct (placeWordIntoGrid_Some _ _ _ _ _ _ _ _ _ _ _ _ Hplace)
    as (starts & base & _ & _ & -> & ->).
  apply buildLines_letters.
Qed.

Lemma placeWordIntoGrid_letters_witness :
  exists p,
    (placeWordIntoGrid (lit "ab d") 20 10 ∅ 10 0 1 tenCols (atRow 7)
                       drawHalf).1 = Some p /\
    map eraseTy (letters p) =
      [(97%N, 30, 70, false); (98%N, 40, 70, false); (100%N, 60, 70, false)].
Proof.
  eexists. split; [vm_compute; reflexivity|].
  erewrite (placeWordIntoGrid_letters (lit "ab d") 20 10 ∅ 10 0 1 tenCols
              (atRow 7) drawHalf);
    [|vm_compute; reflexivity].
  vm_compute. reflexivity.
Defined.

Lemma metaLinesAt_texts (base : Z) (ls : list jsstring) :
  forall li starts,
    length starts = length ls ->
    map text (metaLinesAt base li ls starts) = ls.
Proof.
  induction ls as [|L ls IH]; intros li [|c starts] Hlen; try done.
  cbn [metaLinesAt map text]. f_equal. apply IH. by injection Hlen.
Qed.

Lemma metaLinesAt_rows (base : Z) (ls : list jsstring) :
  forall li starts i m,
    metaLinesAt base li ls starts !! i = Some m ->
    row m = base + lineOffset (li + i).
Proof.
  induction ls as [|L ls IH]; intros li [|c starts] i m; try done.
  cbn [metaLinesAt]. destruct i as [|i].
  - intros [= <-]. cbn [row]. by rewrite Nat.add_0_r.
  - cbn [lookup list_lookup]. intros Hm. apply IH in Hm.
    by replace (li + S i)%nat with (S li + i)%nat by lia.
Qed.

Lemma linesOf_length (txt : jsstring) (region : MatrixRegion)
    (opts : PlaceWordIntoGridOptions) :
  length (linesOf txt region opts) = 1%nat \/
  length (linesOf txt region opts) = 2%nat.
Proof.
  unfold linesOf. cbv zeta. destruct (optLines opts) as [[|l [|l' ls]]|];
    try (by left); try (by right);
    unfold splitIntoTwoLines; destruct (len txt <=? _); auto.
Qed.

(** X5: a returned placement carries the text it was given; its lines are,
    in order, the lines to place ([opts.lines] cut to two entries when
    given and non-empty, else the two-line split of the text), one or two of
    them, on consecutive rows. *)
Theorem placeWordIntoGrid_lines (txt : jsstring) (cols rows : Z)
    (blocked : OccupiedSet) (fontSize idx total : Z) (region : MatrixRegion)
    (opts : PlaceWordIntoGridOptions) (rnd : RandomSource)
    (p : PlaceWordIntoGridResult) (blocked' : OccupiedSet) :
  placeWordIntoGrid txt cols rows blocked fontSize idx total region opts rnd
    = (Some p, blocked') ->
  rText p = txt /\
  map text (meta p) = linesOf txt region opts /\
  (length (meta p) = 1%nat \/ length (meta p) = 2%nat) /\
  exists base, forall i m, meta p !! i = Some m -> row m = base + Z.of_nat i.
Proof.
  intros Hplace.
  destruct (placeWordIntoGrid_Some _ _ _ _ _ _ _ _ _ _ _ _ Hplace)
    as (starts & base & Hpl & Htxt & Hmeta & _).
  pose proof (placeLines_length _ _ _ _ _ _ _ _ _ _ Hpl) as Hlen.
  assert (Htexts : map text (meta p) = linesOf txt region opts).
  { rewrite Hmeta. by apply metaLinesAt_texts. }
  assert (Hcount : length (meta p) = length (linesOf txt region opts)).
  { by rewrite <- Htexts, length_map. }
  split; [done|]. split; [done|]. split.
  { rewrite Hcount. apply linesOf_length. }
  exists base. intros i m Hm.
  assert (Hi : (i < 2)%nat).
  { apply lookup_lt_Some in Hm. rewrite Hcount in Hm.
    destruct (linesOf_length txt region opts) as [H|H]; rewrite H in Hm; lia. }
  rewrite Hmeta in Hm. apply metaLinesAt_rows in Hm. rewrite Hm.
  destruct i as [|[|i]]; [done | done | lia].
Qed.

Lemma placeWordIntoGrid_lines_witness :
  exists p,
    thirdLabel.1 = Some p /\
    rText p = lit "abcd efgh" /\
    map text (meta p) = [lit "abcd"; lit "efgh"].
Proof.
  eexists. split; [vm_compute; reflexivity|].
  destruct (placeWordIntoGrid_lines (lit "abcd efgh") 20 20 secondLabel.2
              10 2 3 tenCols (atRow 5) (fun _ => 0%Q)
              _ _ ltac:(vm_compute; reflexivity)) as (H1 & H2 & _).
  split; [exact H1|]. rewrite H2. vm_compute. reflexivity.
Defined.

Lemma placeLine_ideal (cols rows : Z) (blocked : OccupiedSet)
    (region : MatrixRegion) (twoLines : bool) (li : nat) (L : jsstring)
    (base : Z) :
  canFitInRegion (len L) (idealCol cols region L) (base + lineOffset li)
                 blocked region MARGIN cols = true ->
  placeLine cols rows blocked region twoLines li L base =
  Some (idealCol cols region L, base).
Proof.
  intros Hfit. unfold placeLine. cbv zeta. unfold fitsAt.
  fold (idealCol cols region L). fold (lineOffset li). by rewrite Hfit.
Qed.

Lemma placeLines_ideal (cols rows : Z) (blocked : OccupiedSet)
    (region : MatrixRegion) (twoLines : bool) (ls : list jsstring) (base : Z) :
  forall li,
    (forall i L, ls !! i = Some L ->
       canFitInRegion (len L) (idealCol cols region L)
                      (base + lineOffset (li + i)) blocked region MARGIN cols
         = true) ->
    placeLines cols rows blocked region twoLines li ls base =
    Some (map (idealCol cols region) ls, base).
Proof.
  induction ls as [|L ls IH]; intros li Hfit; cbn [placeLines map]; [done|].
  rewrite placeLine_ideal.
  2:{ specialize (Hfit 0%nat L eq_refl). by rewrite Nat.add_0_r in Hfit. }
  rewrite IH; [done|]. intros i L' HL'.
  replace (S li + i)%nat with (li + S i)%nat by lia. by apply Hfit.
Qed.

(** A valid call whose first loop succeeds returns a placement. *)
Lemma placeWordIntoGrid_of_placeLines (txt : jsstring) (cols rows : Z)
    (blocked : OccupiedSet) (fontSize idx total : Z) (region : MatrixRegion)
    (opts : PlaceWordIntoGridOptions) (rnd : RandomSource)
    (starts : list Z) (base : Z) :
  txt <> [] -> cols <> 0 -> rows <> 0 ->
  let lns := linesOf txt region opts in
  placeLines cols rows blocked region (length lns =? 2)%nat 0 lns
             (initialBaseRow rows idx total (length lns) opts)
    = Some (starts, base) ->
  exists p,
    (placeWordIntoGrid txt cols rows blocked fontSize idx total region opts
                       rnd).1 = Some p /\
    meta p = metaLinesAt base 0 lns starts.
Proof.
  intros Htxt Hcols Hrows lns Hpl. unfold placeWordIntoGrid.
  destruct txt as [|ch txt]; [done|]. cbn [truthy negb orb].
  destruct (Z.eqb_spec cols 0); [done|].
  destruct (Z.eqb_spec rows 0); [done|]. cbn [orb].
  fold lns. rewrite Hpl.
  pose proof (buildLines_meta fontSize rnd base lns 0 starts 0 blocked)
    as Hmeta.
  destruct (buildLines _ _ _ _ _ _ _ _) as [[ltrs metas] b2].
  cbn [fst snd] in *. eexists. split; [reflexivity|]. exact Hmeta.
Qed.

(** X6: when every line fits at its centred column on its intended row
    (the start row of the label for the first line, the row below for the
    second), the label is placed exactly there, without any sweep. *)
Theorem placeWordIntoGrid_ideal (txt : jsstring) (cols rows : Z)
    (blocked : OccupiedSet) (fontSize idx total : Z) (region : MatrixRegion)
    (opts : PlaceWordIntoGridOptions) (rnd : RandomSource) :
  txt <> [] -> cols <> 0 -> rows <> 0 ->
  let lns := linesOf txt region opts in
  let base0 := initialBaseRow rows idx total (length lns) opts in
  (forall i L, lns !! i = Some L ->
     canFitInRegion (len L) (idealCol cols region L) (base0 + lineOffset i)
                    blocked region 1 cols = true) ->
  exists p,
    (placeWordIntoGrid txt cols rows blocked fontSize idx total region opts
                       rnd).1 = Some p /\
    meta p = metaLinesAt base0 0 lns (map (idealCol cols region) lns).
Proof.
  intros Htxt Hcols Hrows lns base0 Hfit.
  apply placeWordIntoGrid_of_placeLines; try done.
  fold lns. fold base0. by apply placeLines_ideal.
Qed.

Lemma placeWordIntoGrid_ideal_witness :
  exists p,
    (placeWordIntoGrid (lit "ABCDEFGHIJKLMNOP") 40 20 ∅ 20 1 3
       {| startCol := 24; endCol := 36 |} noOptions drawZero).1 = Some p /\
    map (fun m => (mStartCol m, row m)) (meta p) = [(25, 10); (28, 11)].
Proof.
  destruct (placeWordIntoGrid_ideal (lit "ABCDEFGHIJKLMNOP") 40 20 ∅ 20 1 3
              {| startCol := 24; endCol := 36 |} noOptions drawZero)
    as (p & Hp & Hmeta); [done | done | done | |].
  - intros [|[|i]] L; vm_compute; intros [= <-]; reflexivity.
  - exists p. split; [exact Hp|]. rewrite Hmeta. vm_compute. reflexivity.
Defined.

(** X7: on an empty occupied set, a non-empty text that is no longer than
    the region is wide inside its margins is always placed, as one line,
    centred in the region, on the start row of the label; the region is
    assumed to lie inside the grid ([-1 <= startCol], [endCol <= cols]) and
    no lines are supplied through the options. *)
Theorem placeWordIntoGrid_empty_grid (txt : jsstring) (cols rows : Z)
    (fontSize idx total : Z) (region : MatrixRegion)
    (opts : PlaceWordIntoGridOptions) (rnd : RandomSource) :
  txt <> [] -> cols <> 0 -> rows <> 0 ->
  optLines opts = None ->
  len txt <= regionColsOf region - 2 ->
  -1 <= startCol region -> endCol region <= cols ->
  exists p,
    (placeWordIntoGrid txt cols rows ∅ fontSize idx total region opts rnd).1
      = Some p /\
    meta p =
      [{| text := txt;
          mStartCol := startCol region + (regionColsOf region - len txt) / 2;
          row := initialBaseRow rows idx total 1 opts |}].
Proof.
  intros Htxt Hcols Hrows Hopts Hlen Hlo Hhi.
  assert (Hpos : 1 <= len txt).
  { destruct txt; [done|]. unfold len. cbn [length]. lia. }
  assert (Hlns : linesOf txt region opts = [txt]).
  { unfold linesOf, maxLineLenOf, MARGIN, splitIntoTwoLines. cbv zeta.
    rewrite Hopts. destruct (Z.leb_spec (len txt)
      (Z.max 1 (regionColsOf region - 1 * 2))); [done | lia]. }
  assert (HR : regionColsOf region = endCol region - startCol region + 1).
  { unfold regionColsOf in *. lia. }
  set (d := regionColsOf region - len txt) in *.
  assert (Hd : 1 <= d / 2 <= d - 1).
  { split; [apply Z.div_le_lower_bound; lia|].
    apply Z.div_le_upper_bound; lia. }
  assert (Hideal : idealCol cols region txt = startCol region + d / 2).
  { unfold idealCol, clampInt, MARGIN. fold d. lia. }
  destruct (placeWordIntoGrid_of_placeLines txt cols rows ∅ fontSize idx
              total region opts rnd [idealCol cols region txt]
              (initialBaseRow rows idx total 1 opts) Htxt Hcols Hrows)
    as (p & Hp & Hmeta).
  - rewrite Hlns. cbn [length]. apply (placeLines_ideal _ _ _ _ _ [txt]).
    intros [|i] L; [|done]. intros [= <-].
    rewrite Hideal. apply canFitInRegion_true. unfold MARGIN.
    split; [lia|]. split; [lia|]. split; [lia|]. split; [lia|].
    intros i _. apply not_elem_of_empty.
  - exists p. split; [exact Hp|]. rewrite Hmeta, Hlns.
    cbn [map metaLinesAt length lineOffset]. by rewrite Hideal, Z.add_0_r.
Qed.

Lemma placeWordIntoGrid_empty_grid_witness :
  exists p,
    (placeWordIntoGrid (lit "Prospecting & Pipeline") 120 40 ∅ 24 5 6
       {| startCol := 72; endCol := 108 |} noOptions drawZero).1 = Some p /\
    map (fun m => (mStartCol m, row m)) (meta p) = [(79, 37)].
Proof.
  destruct (placeWordIntoGrid_empty_grid (lit "Prospecting & Pipeline")
              120 40 24 5 6 {| startCol := 72; endCol := 108 |} noOptions
              drawZero) as (p & Hp & Hmeta);
    [done | done | done | done | vm_compute; discriminate | cbn; lia
    | cbn; lia |].
  exists p. split; [exact Hp|]. rewrite Hmeta. vm_compute. reflexivity.
Defined.

(** * Further properties of the fit checker *)

(** X8: a line that fits is no wider than the region inside its margins,
    and no wider than the grid. *)
Theorem canFitInRegion_width (tlen c r : Z) (blocked : OccupiedSet)
    (region : MatrixRegion) (margin cols : Z) :
  canFitInRegion tlen c r blocked region margin cols = true ->
  tlen <= endCol region - startCol region + 1 - 2 * margin /\ tlen <= cols.
Proof.
  intros (H1 & H2 & H3 & H4 & _)%canFitInRegion_true. lia.
Qed.

Lemma canFitInRegion_width_witness :
  4 <= 80 - 50 + 1 - 2 * 1 /\ 4 <= 120.
Proof.
  apply (canFitInRegion_width 4 52 10 ∅ {| startCol := 50; endCol := 80 |}
           1 120).
  vm_compute. reflexivity.
Defined.

(** X9: the answer depends on the occupied set only through the cells of
    the candidate span: two sets that agree on the cells
    [(startCol + i, row)], [0 <= i < length], give the same answer. *)
Theorem canFitInRegion_local (tlen c r : Z) (blocked blocked' : OccupiedSet)
    (region : MatrixRegion) (margin cols : Z) :
  (forall i, 0 <= i < tlen ->
     cellKey (c + i) r ∈ blocked <-> cellKey (c + i) r ∈ blocked') ->
  canFitInRegion tlen c r blocked region margin cols =
  canFitInRegion tlen c r blocked' region margin cols.
Proof.
  intros Hagree.
  destruct (canFitInRegion tlen c r blocked' region margin cols) eqn:H'.
  - apply canFitInRegion_true in H' as (H1 & H2 & H3 & H4 & Hfree).
    apply canFitInRegion_true. repeat (split; [lia|]).
    intros i Hi Hin. apply (Hfree i Hi). by apply Hagree.
  - apply not_true_iff_false. intros H.
    apply canFitInRegion_true in H as (H1 & H2 & H3 & H4 & Hfree).
    apply not_true_iff_false in H'. apply H'.
    apply canFitInRegion_true. repeat (split; [lia|]).
    intros i Hi Hin. apply (Hfree i Hi). by apply Hagree.
Qed.

Lemma canFitInRegion_local_witness :
  canFitInRegion 4 52 10 ∅ {| startCol := 50; endCol := 80 |} 1 120 =
  canFitInRegion 4 52 10 {[ cellKey 56 10 ]}
                 {| startCol := 50; endCol := 80 |} 1 120.
Proof.
  apply canFitInRegion_local. intros i Hi. split.
  - intros H. by apply not_elem_of_empty in H.
  - intros H%elem_of_singleton. apply cellKey_inj in H. lia.
Defined.

(** * Further properties of the start row and the sweeps *)

Lemma roundDiv_mono (p p' q : Z) :
  0 < q -> p <= p' -> roundDiv p q <= roundDiv p' q.
Proof.
  intros Hq Hp. unfold roundDiv. apply Z.div_le_mono; lia.
Qed.

Lemma roundDiv_exact (k q : Z) : 0 < q -> roundDiv (k * q) q = k.
Proof.
  intros Hq. unfold roundDiv.
  replace (2 * (k * q) + q) with (q + k * (2 * q)) by lia.
  rewrite Z.div_add by lia. rewrite Z.div_small by lia. lia.
Qed.

(** X10: the row a label starts from lies in the band from [top = 2] to
    [bottom = max(3, rows - 3)], whatever the arguments; without
    [opts.baseRow] it does not decrease when the index grows, and for a
    label of one line among [total >= 2] labels it is [top] for index 0
    and [bottom] for index [total - 1]. *)
Theorem initialBaseRow_spread (rows idx idx' total : Z) (nlines : nat)
    (opts : PlaceWordIntoGridOptions) :
  (TOP <= initialBaseRow rows idx total nlines opts <= bottomOf rows) /\
  (optBaseRow opts = None -> idx <= idx' ->
   initialBaseRow rows idx total nlines opts <=
   initialBaseRow rows idx' total nlines opts) /\
  (optBaseRow opts = None -> 2 <= total -> nlines <> 2%nat ->
   initialBaseRow rows 0 total nlines opts = TOP /\
   initialBaseRow rows (total - 1) total nlines opts = bottomOf rows).
Proof.
  pose proof (bottomOf_ge rows) as Hb. unfold initialBaseRow. cbv zeta.
  unfold TOP in *. split; [|split].
  - set (base := match optBaseRow opts with Some _ => _ | None => _ end).
    assert (Hbase : 2 <= base <= bottomOf rows).
    { subst base. destruct (optBaseRow opts).
      - apply clampInt_range. lia.
      - destruct (_ =? 1).
        + split; [apply Z.div_le_lower_bound | apply Z.div_le_upper_bound];
            lia.
        + apply clampInt_range. lia. }
    destruct ((nlines =? 2)%nat && (base + 1 >? bottomOf rows)); lia.
  - intros -> Hidx. destruct (Z.eqb_spec (Z.max 1 total) 1) as [H1|H1].
    + destruct (_ && _); lia.
    + assert (Hmono :
        clampInt (2 + roundDiv (idx * (bottomOf rows - 2)) (Z.max 1 total - 1))
                 2 (bottomOf rows) <=
        clampInt (2 + roundDiv (idx' * (bottomOf rows - 2)) (Z.max 1 total - 1))
                 2 (bottomOf rows)).
      { assert (roundDiv (idx * (bottomOf rows - 2)) (Z.max 1 total - 1) <=
                roundDiv (idx' * (bottomOf rows - 2)) (Z.max 1 total - 1)).
        { apply roundDiv_mono; [lia | nia]. }
        unfold clampInt. lia. }
      destruct (Nat.eqb nlines 2); cbn [andb]; [|exact Hmono].
      repeat match goal with
             | |- context [?a >? ?b] => destruct (Z.gtb_spec a b)
             end; lia.
  - intros -> Htotal Hn. apply Nat.eqb_neq in Hn. rewrite Hn. cbn [andb].
    destruct (Z.eqb_spec (Z.max 1 total) 1) as [H1|H1]; [lia|].
    replace (Z.max 1 total - 1) with (total - 1) by lia.
    rewrite (Z.mul_comm (total - 1) (bottomOf rows - 2)).
    rewrite roundDiv_exact by lia. rewrite Z.mul_0_l.
    assert (H0 : roundDiv 0 (total - 1) = 0)
      by (apply (roundDiv_exact 0); lia).
    rewrite H0. unfold clampInt. lia.
Qed.

Lemma initialBaseRow_spread_witness :
  initialBaseRow 40 0 6 1 noOptions = TOP /\
  initialBaseRow 40 (6 - 1) 6 1 noOptions = bottomOf 40.
Proof.
  apply (initialBaseRow_spread 40 0 0 6 1 noOptions); [done | lia | done].
Defined.

Lemma vSweep_offset (cols rows : Z) (blocked : OccupiedSet)
    (region : MatrixRegion) (twoLines : bool) (tlen c0 lineOff base : Z)
    (n : nat) :
  forall vOff cand,
    vSweep cols rows blocked region twoLines tlen c0 lineOff base n vOff
      = Some cand ->
    exists o, vOff <= o < vOff + Z.of_nat n /\
              (cand = base - o \/ cand = base + o).
Proof.
  induction n as [|n IH]; intros vOff cand; cbn [vSweep]; [discriminate|].
  destruct (tryCandidates _ _ _ _ _ _ _ _ _) as [a|] eqn:Htry.
  - intros [= <-]. apply tryCandidates_Some in Htry as (Hin & _).
    exists vOff. split; [lia|].
    apply elem_of_cons in Hin as [->|Hin]; [by left|].
    apply elem_of_cons in Hin as [->|Hin]; [by right|].
    by apply elem_of_nil in Hin.
  - intros Hrest. destruct (IH _ _ Hrest) as (o & Ho & Hc).
    exists o. split; [lia | done].
Qed.

Lemma placeLine_reach (cols rows : Z) (blocked : OccupiedSet)
    (region : MatrixRegion) (twoLines : bool) (li : nat) (L : jsstring)
    (base c base' : Z) :
  placeLine cols rows blocked region twoLines li L base = Some (c, base') ->
  Z.abs (base' - base) <= Z.max 0 (rows - 1).
Proof.
  unfold placeLine. cbv zeta.
  destruct (fitsAt _ _ _ _ _ _); [intros [= _ <-]; lia|].
  destruct (hSweep _ _ _ _ _ _ _ _ _ _); [intros [= _ <-]; lia|].
  destruct (vSweep _ _ _ _ _ _ _ _ _ _ _) as [cand|] eqn:Hv; [|discriminate].
  intros [= _ <-]. apply vSweep_offset in Hv as (o & Ho & Hc). lia.
Qed.

(** X11: a label of one line is placed at most [rows - 1] rows away from
    the row it starts from, and on that very row when [rows <= 1]. *)
Theorem placeWordIntoGrid_one_line_reach (txt : jsstring) (cols rows : Z)
    (blocked : OccupiedSet) (fontSize idx total : Z) (region : MatrixRegion)
    (opts : PlaceWordIntoGridOptions) (rnd : RandomSource)
    (p : PlaceWordIntoGridResult) (blocked' : OccupiedSet) (m : MatrixMetaLine) :
  placeWordIntoGrid txt cols rows blocked fontSize idx total region opts rnd
    = (Some p, blocked') ->
  length (linesOf txt region opts) = 1%nat ->
  m ∈ meta p ->
  Z.abs (row m - initialBaseRow rows idx total 1 opts) <= Z.max 0 (rows - 1).
Proof.
  intros Hplace Hlen Hin.
  destruct (placeWordIntoGrid_Some _ _ _ _ _ _ _ _ _ _ _ _ Hplace)
    as (starts & base & Hpl & _ & Hmeta & _).
  rewrite Hlen in Hpl.
  destruct (linesOf txt region opts) as [|L [|L' ls]]; try discriminate.
  cbn [placeLines] in Hpl.
  destruct (placeLine _ _ _ _ _ 0 L _) as [[c b1]|] eqn:Hline; [|discriminate].
  injection Hpl as <- <-. rewrite Hmeta in Hin. cbn [metaLinesAt] in Hin.
  apply elem_of_cons in Hin as [->|Hin]; [|by apply elem_of_nil in Hin].
  cbn [row lineOffset]. apply placeLine_reach in Hline. lia.
Qed.

Lemma placeWordIntoGrid_one_line_reach_witness :
  Z.abs (-1 - initialBaseRow 10 0 1 1 (atRow 2)) <= Z.max 0 (10 - 1).
Proof.
  eapply (placeWordIntoGrid_one_line_reach (lit "abcd") 20 10 blockedAbove
            10 0 1 tenCols (atRow 2) drawZero _ _
            {| text := lit "abcd"; mStartCol := 3; row := -1 |}).
  - vm_compute. reflexivity.
  - reflexivity.
  - cbn [meta]. apply list_elem_of_here.
Defined.

(** * Further properties of the layout planner *)

Section CursorRows.

Variable gap : nat -> Z.
Hypothesis gap_nonneg : forall j, 0 <= gap j.

Lemma cursorRows_lower (hs : list Z) :
  Forall (fun h => 1 <= h) hs ->
  forall j c, Forall (fun r => c <= r) (cursorRows gap hs j c).
Proof.
  induction hs as [|h hs IH]; intros Hhs j c; cbn [cursorRows];
    [constructor|].
  apply Forall_cons in Hhs as [Hh Hhs]. constructor; [lia|].
  eapply Forall_impl; [apply (IH Hhs)|]. intros r Hr. cbn in Hr.
  pose proof (gap_nonneg j). lia.
Qed.

Lemma cursorRows_sorted (hs : list Z) :
  Forall (fun h => 1 <= h) hs ->
  forall j c i k a b,
    (i <= k)%nat ->
    cursorRows gap hs j c !! i = Some a ->
    cursorRows gap hs j c !! k = Some b ->
    a <= b.
Proof.
  induction hs as [|h hs IH]; intros Hhs j c i k a b Hik; cbn [cursorRows];
    [done|].
  pose proof (cursorRows_lower (h :: hs) Hhs j c) as Hlow.
  apply Forall_cons in Hhs as [Hh Hhs].
  destruct i as [|i].
  - intros [= <-] Hb. apply list_elem_of_lookup_2 in Hb.
    by apply (proj1 (Forall_forall _ _) Hlow).
  - destruct k as [|k]; [lia|]. cbn [lookup list_lookup].
    apply (IH Hhs); lia.
Qed.

End CursorRows.

Lemma cursorRows_step (gap : nat -> Z) (hs : list Z) :
  forall j c i a b,
    cursorRows gap hs j c !! i = Some a ->
    cursorRows gap hs j c !! S i = Some b ->
    exists h, hs !! i = Some h /\ b = a + h + gap (j + i)%nat.
Proof.
  induction hs as [|h hs IH]; intros j c i a b; cbn [cursorRows]; [done|].
  destruct i as [|i].
  - intros [= <-]. destruct hs as [|h' hs]; [done|]. cbn.
    intros [= <-]. exists h. by rewrite Nat.add_0_r.
  - cbn [lookup list_lookup]. intros Ha Hb.
    destruct (IH _ _ _ _ _ Ha Hb) as (h' & Hh' & ->).
    exists h'. split; [done|]. by replace (j + S i)%nat with (S j + i)%nat by lia.
Qed.

(** The last cursor, advanced by the last block, is the start plus all
    blocks plus all gaps but the last. *)
Lemma cursorRows_last (gap : nat -> Z) (hs : list Z) :
  forall j c r h,
    last (cursorRows gap hs j c) = Some r -> last hs = Some h ->
    r + h + gapSum gap j =
    c + fold_right Z.add 0 hs + gapSum gap (j + length hs - 1).
Proof.
  induction hs as [|h0 hs IH]; intros j c r h; cbn [cursorRows]; [done|].
  destruct hs as [|h1 hs].
  - cbn. intros [= <-] [= <-]. replace (j + 1 - 1)%nat with j by lia. lia.
  - change (last (c :: cursorRows gap (h1 :: hs) (S j) (c + h0 + gap j)))
      with (last (cursorRows gap (h1 :: hs) (S j) (c + h0 + gap j))).
    change (last (h0 :: h1 :: hs)) with (last (h1 :: hs)).
    intros Hr Hh. pose proof (IH _ _ _ _ Hr Hh) as Heq.
    cbn [gapSum] in Heq. cbn [fold_right length] in *.
    replace (j + S (S (length hs)) - 1)%nat
      with (S j + S (length hs) - 1)%nat by lia.
    lia.
Qed.

Lemma gapAfter_nonneg (leftover gapCount : Z) (j : nat) :
  0 <= leftover -> 0 <= gapCount -> 0 <= gapAfter leftover gapCount j.
Proof.
  intros HL HG. unfold gapAfter.
  assert (0 <= leftover / gapCount).
  { destruct (decide (gapCount = 0)) as [->|Hne].
    - by rewrite Z.div_0_r.
    - apply Z.div_pos; lia. }
  destruct (_ <? _); lia.
Qed.

Lemma gapSum_gapAfter (leftover gapCount : Z) (m : nat) :
  0 < gapCount ->
  gapSum (gapAfter leftover gapCount) m =
  Z.of_nat m * (leftover / gapCount)
  + Z.min (Z.of_nat m) (leftover mod gapCount).
Proof.
  intros HG. pose proof (Z.mod_pos_bound leftover gapCount HG) as Hmod.
  induction m as [|m IH]; cbn [gapSum]; [lia|].
  rewrite IH. unfold gapAfter.
  destruct (Z.ltb_spec (Z.of_nat m) (leftover mod gapCount)); lia.
Qed.

Lemma blockHeight_range (region : MatrixRegion) (margin : Z)
    (services : list jsstring) :
  Forall (fun h => 1 <= h <= 2) (map (blockHeight region margin) services).
Proof.
  apply Forall_forall. intros h (s & -> & _)%list_elem_of_fmap.
  unfold blockHeight. destruct (wrapped _); lia.
Qed.

(** The planned rows for blocks of height 1 or 2. *)
Lemma plannedRows_band (hs : list Z) (rows : Z) :
  hs <> [] -> Forall (fun h => 1 <= h <= 2) hs ->
  let rs := plannedRows hs rows in
  Forall (fun r => TOP <= r <= bottomOf rows) rs /\
  (forall i k a b, (i <= k)%nat -> rs !! i = Some a -> rs !! k = Some b ->
                   a <= b) /\
  (forall r h, last rs = Some r -> last hs = Some h ->
               r + h - 1 <= bottomOf rows).
Proof.
  intros Hne Hhs. unfold plannedRows, rowsFor. cbv zeta.
  set (L := Z.max 0 (availableRows rows - fold_right Z.add 0 hs)).
  set (gap := gapAfter L (Z.of_nat (length hs) - 1)).
  set (bases := cursorRows gap hs 0 TOP).
  pose proof (bottomOf_ge rows) as Hb.
  assert (Hgap : forall j, 0 <= gap j).
  { intros j. apply gapAfter_nonneg; [lia|]. destruct hs; [done|]. cbn. lia. }
  assert (Hh1 : Forall (fun h => 1 <= h) hs).
  { eapply Forall_impl; [exact Hhs|]. cbn. lia. }
  pose proof (cursorRows_lower gap Hgap hs Hh1 0 TOP) as Hlow.
  pose proof (cursorRows_sorted gap Hgap hs Hh1 0 TOP) as Hsorted.
  fold bases in Hlow, Hsorted.
  destruct (last hs) as [h|] eqn:Hlasth.
  2:{ by apply last_None in Hlasth. }
  assert (Hh : 1 <= h <= 2).
  { apply last_Some_elem_of in Hlasth.
    by apply (proj1 (Forall_forall _ _) Hhs). }
  destruct (last bases) as [b|] eqn:Hlastb.
  2:{ apply last_None in Hlastb. subst bases.
      destruct hs; [done | discriminate Hlastb]. }
  assert (Hle_last : Forall (fun r => r <= b) bases).
  { apply Forall_forall. intros r Hr.
    apply list_elem_of_lookup_1 in Hr as [i Hi].
    rewrite last_lookup in Hlastb.
    apply (Hsorted i (pred (length bases)) r b); [|done|done].
    apply lookup_lt_Some in Hi. lia. }
  destruct (Z.gtb_spec (b + h - 1 - bottomOf rows) 0) as [Hov|Hok].
  - split; [|split].
    + apply Forall_forall. intros r (r0 & -> & Hr0)%list_elem_of_fmap.
      pose proof (proj1 (Forall_forall _ _) Hle_last _ Hr0) as Hr.
      cbn beta in Hr. unfold TOP. lia.
    + intros i k a0 b0 Hik Ha Hb0.
      change (map ?f bases) with (f <$> bases) in Ha, Hb0.
      rewrite list_lookup_fmap in Ha, Hb0.
      destruct (bases !! i) as [a1|] eqn:Ha1; [|done].
      destruct (bases !! k) as [b1|] eqn:Hb1; [|done].
      injection Ha as <-. injection Hb0 as <-.
      pose proof (Hsorted i k a1 b1 Hik Ha1 Hb1). lia.
    + intros r h' Hr [= <-]. rewrite map_last, Hlastb in Hr.
      injection Hr as <-. unfold TOP. lia.
  - split; [|split].
    + apply Forall_forall. intros r Hr.
      pose proof (proj1 (Forall_forall _ _) Hle_last _ Hr).
      pose proof (proj1 (Forall_forall _ _) Hlow _ Hr). cbn in *. lia.
    + exact Hsorted.
    + intros r h' Hr [= <-]. rewrite Hlastb in Hr. injection Hr as <-. lia.
Qed.

Lemma blockHeight_lines (region : MatrixRegion) (margin : Z) (s : jsstring) :
  blockHeight region margin s =
  Z.of_nat (length (sLines (splitIntoTwoLines s (maxLineLenOf region margin)))).
Proof.
  unfold blockHeight, splitIntoTwoLines. by destruct (len s <=? _).
Qed.

(** The block heights of a plan are the numbers of lines of its steps. *)
Lemma plan_heights (services : list jsstring) (region : MatrixRegion)
    (margin : Z) (plan : list ServiceLayoutStep) :
  map lines plan =
    map (fun s => sLines (splitIntoTwoLines s (maxLineLenOf region margin)))
        services ->
  map (blockHeight region margin) services =
  map (fun st => Z.of_nat (length (lines st))) plan.
Proof.
  revert services. induction plan as [|st plan IH]; intros [|s services];
    try done.
  cbn [map]. intros [= H1 H2]. f_equal; [|by apply IH].
  by rewrite blockHeight_lines, <- H1.
Qed.

(** X12: for a non-empty list of labels every planned base row lies in the
    band from [top] to [bottom], the base rows never decrease from one
    label to the next, and the last label's last line is at or above
    [bottom]. *)
Theorem planServiceLayout_band (services : list jsstring) (cols rows : Z)
    (region : MatrixRegion) (margin : Z) :
  services <> [] ->
  exists plan,
    planServiceLayout services cols rows region margin = Some plan /\
    Forall (fun st => TOP <= baseRow st <= bottomOf rows) plan /\
    (forall i k a b, (i <= k)%nat -> plan !! i = Some a -> plan !! k = Some b ->
                     baseRow a <= baseRow b) /\
    (forall st, last plan = Some st ->
                baseRow st + Z.of_nat (length (lines st)) - 1 <= bottomOf rows).
Proof.
  intros Hne.
  destruct (planServiceLayout_nonempty services cols rows region margin Hne)
    as (plan & Hplan & Hlines & Hrows).
  exists plan. split; [done|].
  set (hs := map (blockHeight region margin) services) in *.
  assert (Hhs : hs <> []) by (subst hs; by destruct services).
  destruct (plannedRows_band hs rows Hhs (blockHeight_range _ _ _))
    as (Hband & Hsorted & Hlast).
  rewrite <- Hrows in Hband, Hsorted, Hlast.
  split; [|split].
  - apply Forall_forall. intros st Hst.
    apply (proj1 (Forall_forall _ _) Hband (baseRow st)).
    apply list_elem_of_fmap. by exists st.
  - intros i k a b Hik Ha Hb. apply (Hsorted i k); [done| |];
      change (map baseRow plan) with (baseRow <$> plan);
      rewrite list_lookup_fmap; [by rewrite Ha | by rewrite Hb].
  - intros st Hst. apply Hlast.
    + by rewrite map_last, Hst.
    + subst hs. rewrite (plan_heights services region margin plan Hlines).
      by rewrite map_last, Hst.
Qed.

Lemma planServiceLayout_band_witness :
  exists plan,
    planServiceLayout [lit "a"; lit "b"; lit "c"] 20 6 tenCols 1 = Some plan /\
    Forall (fun st => TOP <= baseRow st <= bottomOf 6) plan.
Proof.
  destruct (planServiceLayout_band [lit "a"; lit "b"; lit "c"] 20 6 tenCols 1)
    as (plan & H1 & H2 & _); [discriminate|].
  exists plan. split; [exact H1 | exact H2].
Defined.

Lemma plannedRows_fit (hs : list Z) (rows : Z) :
  (2 <= length hs)%nat ->
  fold_right Z.add 0 hs <= availableRows rows ->
  let L := availableRows rows - fold_right Z.add 0 hs in
  plannedRows hs rows =
    cursorRows (gapAfter L (Z.of_nat (length hs) - 1)) hs 0 TOP /\
  (forall r h, last (plannedRows hs rows) = Some r -> last hs = Some h ->
               r + h - 1 = bottomOf rows).
Proof.
  intros Hn Hsum L. unfold plannedRows, rowsFor. cbv zeta.
  replace (Z.max 0 (availableRows rows - fold_right Z.add 0 hs)) with L
    by (subst L; lia).
  set (G := Z.of_nat (length hs) - 1).
  set (bases := cursorRows (gapAfter L G) hs 0 TOP).
  destruct (last bases) as [b|] eqn:Hlastb;
    [|split; [done | intros ? ? ? ?; congruence]].
  destruct (last hs) as [h|] eqn:Hlasth;
    [|split; [done | intros ? ? ? ?; congruence]].
  pose proof (cursorRows_last (gapAfter L G) hs 0 TOP b h Hlastb Hlasth) as Heq.
  cbn [gapSum] in Heq.
  rewrite gapSum_gapAfter in Heq by (subst G; lia).
  assert (Hmod : 0 <= L mod G < G) by (apply Z.mod_pos_bound; subst G; lia).
  assert (Hdm : L = G * (L / G) + L mod G) by (apply Z.div_mod; subst G; lia).
  replace (Z.of_nat (0 + length hs - 1)) with G in Heq by (subst G; lia).
  assert (Hend : b + h - 1 = bottomOf rows).
  { unfold availableRows, TOP in *. subst L. lia. }
  destruct (Z.gtb_spec (b + h - 1 - bottomOf rows) 0); [lia|].
  split; [done|]. intros r h' Hr [= <-]. rewrite Hlastb in Hr.
  by injection Hr as <-.
Qed.

(** X13: when there are at least two labels and their blocks fit in the
    band, the plan starts on [top], the last label's last line is exactly
    on [bottom], and between two consecutive labels there are
    [leftover / gapCount] free rows or one more, where [leftover] is the
    available rows minus the block heights. *)
Theorem planServiceLayout_fits (services : list jsstring) (cols rows : Z)
    (region : MatrixRegion) (margin : Z) :
  (2 <= length services)%nat ->
  let heights := map (blockHeight region margin) services in
  let leftover := availableRows rows - fold_right Z.add 0 heights in
  0 <= leftover ->
  exists plan,
    planServiceLayout services cols rows region margin = Some plan /\
    (exists st, plan !! 0%nat = Some st /\ baseRow st = TOP) /\
    (exists st, last plan = Some st /\
       baseRow st + Z.of_nat (length (lines st)) - 1 = bottomOf rows) /\
    (forall i a b, plan !! i = Some a -> plan !! S i = Some b ->
       let q := leftover / (Z.of_nat (length services) - 1) in
       baseRow a + Z.of_nat (length (lines a)) + q <= baseRow b <=
       baseRow a + Z.of_nat (length (lines a)) + q + 1).
Proof.
  intros Hn heights leftover Hleft.
  assert (Hne : services <> []) by (destruct services; [cbn in Hn; lia | done]).
  destruct (planServiceLayout_nonempty services cols rows region margin Hne)
    as (plan & Hplan & Hlines & Hrows).
  fold heights in Hrows.
  assert (Hhlen : length heights = length services)
    by (subst heights; by rewrite length_map).
  destruct (plannedRows_fit heights rows) as (Hcur & Hlast);
    [lia | subst leftover; lia |].
  fold leftover in Hcur. rewrite Hhlen in Hcur.
  pose proof (plan_heights services region margin plan Hlines) as Hheights.
  fold heights in Hheights.
  assert (Hplen : length plan = length services).
  { by rewrite <- (length_map baseRow), Hrows, Hcur, cursorRows_length. }
  exists plan. split; [done|]. split; [|split].
  - destruct plan as [|st plan]; [cbn in Hplen; lia|].
    exists st. split; [done|].
    destruct heights as [|h heights]; [cbn in Hhlen; lia|].
    rewrite Hcur in Hrows. cbn [map cursorRows] in Hrows. by injection Hrows.
  - destruct (last plan) as [st|] eqn:Hst.
    2:{ apply last_None in Hst. subst plan. cbn in Hplen. lia. }
    exists st. split; [done|]. apply Hlast.
    + by rewrite <- Hrows, map_last, Hst.
    + by rewrite Hheights, map_last, Hst.
  - intros i a b Ha Hb q.
    assert (Hra : cursorRows (gapAfter leftover
                    (Z.of_nat (length services) - 1)) heights 0 TOP !! i
                  = Some (baseRow a)).
    { rewrite <- Hcur, <- Hrows. change (map baseRow plan) with (baseRow <$> plan).
      by rewrite list_lookup_fmap, Ha. }
    assert (Hrb : cursorRows (gapAfter leftover
                    (Z.of_nat (length services) - 1)) heights 0 TOP !! S i
                  = Some (baseRow b)).
    { rewrite <- Hcur, <- Hrows. change (map baseRow plan) with (baseRow <$> plan).
      by rewrite list_lookup_fmap, Hb. }
    destruct (cursorRows_step _ _ _ _ _ _ _ Hra Hrb) as (h & Hh & ->).
    assert (h = Z.of_nat (length (lines a))) as ->.
    { rewrite Hheights in Hh.
      change (map ?f plan) with (f <$> plan) in Hh.
      rewrite list_lookup_fmap, Ha in Hh. by injection Hh. }
    unfold gapAfter. fold q. destruct (_ <? _); lia.
Qed.

Lemma planServiceLayout_fits_witness :
  exists plan,
    planServiceLayout [lit "Lead Generation"; lit "Outbound"; lit "CRM"]
                      40 20 {| startCol := 24; endCol := 36 |} 1 = Some plan /\
    exists st, last plan = Some st /\
      baseRow st + Z.of_nat (length (lines st)) - 1 = bottomOf 20.
Proof.
  destruct (planServiceLayout_fits
              [lit "Lead Generation"; lit "Outbound"; lit "CRM"]
              40 20 {| startCol := 24; endCol := 36 |} 1)
    as (plan & H1 & _ & H2 & _); [cbn; lia | vm_compute; discriminate |].
  exists plan. split; [exact H1 | exact H2].
Defined.

(** * Further properties of the line splitter *)

Lemma slice_zero (s : jsstring) (b : Z) : slice s 0 b = take (relIndex s b) s.
Proof.
  unfold slice. replace (relIndex s 0) with 0%nat.
  - by rewrite drop_0, Nat.sub_0_r.
  - unfold relIndex, len. cbn [Z.ltb Z.compare]. lia.
Qed.

Lemma sliceFrom_rel (s : jsstring) (b : Z) :
  sliceFrom s b = drop (relIndex s b) s.
Proof.
  unfold sliceFrom, slice. replace (relIndex s (len s)) with (length s).
  - apply take_ge. rewrite length_drop. lia.
  - unfold relIndex, len. destruct (Z.ltb_spec (Z.of_nat (length s)) 0); lia.
Qed.

Lemma relIndex_le (s : jsstring) (b : Z) :
  0 <= b -> Z.of_nat (relIndex s b) <= b.
Proof.
  intros Hb. unfold relIndex. destruct (Z.ltb_spec b 0); lia.
Qed.

Lemma trimEnd_length (s : jsstring) : (length (trimEnd s) <= length s)%nat.
Proof.
  destruct (trimEnd_spec s) as (ws & Hs & _).
  rewrite Hs at 2. rewrite length_app. lia.
Qed.

(** X14: for [maxLen >= 0] the first line returned is never longer than
    [maxLen]. *)
Theorem splitIntoTwoLines_first_fits (s : jsstring) (maxLen : Z) (l : jsstring) :
  0 <= maxLen ->
  head (sLines (splitIntoTwoLines s maxLen)) = Some l ->
  len l <= maxLen.
Proof.
  intros Hmax. unfold splitIntoTwoLines.
  destruct (Z.leb_spec (len s) maxLen) as [Hle|Hgt]; cbn [sLines head].
  { by intros [= <-]. }
  intros [= <-].
  set (b := match scanBreak s _ with Some i => Z.of_nat i | None => maxLen end).
  assert (Hb : 0 <= b <= maxLen).
  { subst b. destruct (scanBreak s _) as [i|] eqn:Hscan; [|lia].
    apply scanBreak_Some in Hscan as (Hi & _). lia. }
  rewrite slice_zero. pose proof (trimEnd_length (take (relIndex s b) s)) as Ht.
  rewrite length_take in Ht. pose proof (relIndex_le s b (proj1 Hb)).
  unfold len. lia.
Qed.

Lemma splitIntoTwoLines_first_fits_witness :
  len (lit "Prospectin") <= 10.
Proof.
  apply (splitIntoTwoLines_first_fits (lit "Prospecting & Pipeline") 10);
    [lia | vm_compute; reflexivity].
Defined.

(** X15: splitting loses nothing but white space at the cut: a text that
    is not wrapped comes back whole, and a wrapped text is its first line,
    then white space only, then its second line. *)
Theorem splitIntoTwoLines_content (s : jsstring) (maxLen : Z) :
  (wrapped (splitIntoTwoLines s maxLen) = false ->
   sLines (splitIntoTwoLines s maxLen) = [s]) /\
  (wrapped (splitIntoTwoLines s maxLen) = true ->
   exists first rest ws,
     sLines (splitIntoTwoLines s maxLen) = [first; rest] /\
     s = first ++ ws ++ rest /\
     Forall (fun c => isSpace c = true) ws).
Proof.
  unfold splitIntoTwoLines. destruct (len s <=? maxLen); cbn [wrapped sLines].
  { split; [done | discriminate]. }
  split; [discriminate|]. intros _.
  set (b := match scanBreak s _ with Some i => Z.of_nat i | None => maxLen end).
  rewrite slice_zero, sliceFrom_rel.
  destruct (trimEnd_spec (take (relIndex s b) s)) as (ws1 & H1 & Hws1 & _).
  destruct (trimStart_spec (drop (relIndex s b) s)) as (ws2 & H2 & Hws2 & _).
  eexists _, _, (ws1 ++ ws2). split; [reflexivity|]. split.
  - rewrite <- (take_drop (relIndex s b) s) at 1. rewrite H1 at 1.
    rewrite H2 at 1. by rewrite <- !app_assoc.
  - by apply Forall_app.
Qed.

Lemma splitIntoTwoLines_content_witness :
  exists first rest ws,
    sLines (splitIntoTwoLines (lit "Lead Generation") 10) = [first; rest] /\
    lit "Lead Generation" = first ++ ws ++ rest /\
    Forall (fun c => isSpace c = true) ws.
Proof.
  apply (splitIntoTwoLines_content (lit "Lead Generation") 10).
  vm_compute. reflexivity.
Defined.

Lemma scanBreak_found (s : jsstring) (i b : nat) :
  (1 <= b <= i)%nat -> breaksAt s b ->
  (forall j, (b < j <= i)%nat -> ~ breaksAt s j) ->
  scanBreak s i = Some b.
Proof.
  intros Hb Hat Hno. destruct (scanBreak s i) as [b'|] eqn:Hscan.
  - apply scanBreak_Some in Hscan as (Hb' & Hat' & Hno'). f_equal.
    destruct (Nat.lt_trichotomy b b') as [Hlt|[Heq|Hgt]]; [|done|].
    + exfalso. apply (Hno b'); [lia | done].
    + exfalso. apply (Hno' b); [lia | done].
  - exfalso. apply (scanBreak_None s i Hscan b); [lia | done].
Qed.

(** X16: when the cut falls on a hyphen, the hyphen is kept and opens the
    second line: for a text longer than [maxLen >= 1] whose last space or
    hyphen at an index from 1 to [maxLen] is a hyphen at index [b], the
    lines are the text before [b] without trailing white space, and the
    text from [b] on unchanged. *)
Theorem splitIntoTwoLines_hyphen (s : jsstring) (maxLen : Z) (b : nat) :
  1 <= maxLen < len s ->
  1 <= Z.of_nat b <= maxLen ->
  s !! b = Some HYPHEN ->
  (forall j, (b < j)%nat -> Z.of_nat j <= maxLen -> ~ breaksAt s j) ->
  sLines (splitIntoTwoLines s maxLen) = [trimEnd (take b s); drop b s] /\
  head (drop b s) = Some HYPHEN.
Proof.
  intros Hmax Hb Hat Hno. unfold splitIntoTwoLines.
  destruct (Z.leb_spec (len s) maxLen); [lia|].
  rewrite (scanBreak_found s _ b).
  - rewrite slice_take, sliceFrom_drop, Nat2Z.id by lia. cbn [sLines].
    assert (Hhd : head (drop b s) = Some HYPHEN).
    { by rewrite head_lookup, lookup_drop, Nat.add_0_r. }
    split; [|done]. destruct (drop b s) as [|c rest]; [done|].
    injection Hhd as ->. done.
  - lia.
  - exists HYPHEN. split; [done | by right].
  - intros j Hj. apply Hno; lia.
Qed.

Lemma splitIntoTwoLines_hyphen_witness :
  sLines (splitIntoTwoLines (lit "ab-cdefgh") 5) =
    [trimEnd (take 2 (lit "ab-cdefgh")); drop 2 (lit "ab-cdefgh")] /\
  head (drop 2 (lit "ab-cdefgh")) = Some HYPHEN.
Proof.
  apply (splitIntoTwoLines_hyphen (lit "ab-cdefgh") 5 2).
  - split; [lia | vm_compute; reflexivity].
  - lia.
  - reflexivity.
  - intros j Hj1 Hj2 (ch & Hch & Hbr).
    assert (j = 3 \/ j = 4 \/ j = 5)%nat as [->|[->| ->]] by lia;
      vm_compute in Hch; injection Hch as <-;
      destruct Hbr as [Hbr|Hbr]; discriminate Hbr.
Defined.

(** * Further properties of the paragraph wrapper *)

Lemma splitLoop_word (w s piece : jsstring) (inrun : bool) :
  Forall (fun c => isSpace c = false) w ->
  splitLoop (w ++ s) piece inrun =
  splitLoop s (piece ++ w) (match w with [] => inrun | _ => false end).
Proof.
  revert piece inrun. induction w as [|c w IH]; intros piece inrun Hw.
  { by rewrite app_nil_r. }
  apply Forall_cons in Hw as [Hc Hw]. cbn [app splitLoop]. rewrite Hc.
  rewrite IH by done. rewrite <- app_assoc. cbn [app]. by destruct w.
Qed.

Lemma fold_join_prefix (g : list jsstring) (a acc : jsstring) :
  fold_left (fun u v => u ++ [SPACE] ++ v) g (a ++ acc) =
  a ++ fold_left (fun u v => u ++ [SPACE] ++ v) g acc.
Proof.
  revert acc. induction g as [|v g IH]; intros acc; cbn [fold_left]; [done|].
  by rewrite <- app_assoc, IH.
Qed.

Lemma unwords_cons (w w' : jsstring) (g : list jsstring) :
  unwords (w :: w' :: g) = w ++ SPACE :: unwords (w' :: g).
Proof.
  cbn [unwords fold_left].
  change (w ++ [SPACE] ++ w') with (w ++ ([SPACE] ++ w')).
  rewrite fold_join_prefix. change ([SPACE] ++ w') with (([SPACE] ++ w')).
  rewrite (fold_join_prefix g [SPACE] w'). done.
Qed.

Lemma splitLoop_unwords (g : list jsstring) :
  g <> [] ->
  Forall (fun w => w <> [] /\ Forall (fun c => isSpace c = false) w) g ->
  forall inrun,
    filter (fun w => truthy w = true) (splitLoop (unwords g) [] inrun) = g.
Proof.
  induction g as [|w g IH]; [done|]. intros _ Hg inrun.
  apply Forall_cons in Hg as [[Hw Hns] Hg].
  destruct g as [|w' g].
  - cbn [unwords fold_left]. rewrite <- (app_nil_r w) at 1.
    rewrite splitLoop_word by done. cbn [app splitLoop].
    rewrite filter_cons_True by (by destruct w). done.
  - rewrite unwords_cons, splitLoop_word by done. cbn [app splitLoop].
    change (isSpace SPACE) with true. cbn iota.
    destruct w as [|c w]; [done|].
    rewrite filter_cons_True by done. f_equal. by apply IH.
Qed.

(** Splitting a line made of words gives the words back. *)
Lemma wordsOf_unwords (g : list jsstring) :
  Forall (fun w => w <> [] /\ Forall (fun c => isSpace c = false) w) g ->
  wordsOf (unwords g) = g.
Proof.
  intros Hg. destruct (decide (g = [])) as [->|Hne]; [done|].
  by apply splitLoop_unwords.
Qed.

(** The lines as groups of words, without the width conditions. *)
Lemma wrapTextToLines_groups (s : jsstring) (maxCols maxLines : Z) :
  exists groups : list (list jsstring),
    wrapTextToLines s maxCols maxLines = map unwords groups /\
    Forall (fun g => g <> []) groups /\
    concat groups `prefix_of` wordsOf s /\
    (Z.of_nat (length groups) < maxLines -> concat groups = wordsOf s) /\
    (1 <= maxLines -> wordsOf s <> [] -> groups <> []) /\
    (1 <= maxLines -> Z.of_nat (length groups) <= maxLines).
Proof.
  unfold wrapTextToLines.
  assert (Hwords : Forall (fun w => w <> []) (wordsOf s)).
  { eapply Forall_impl; [apply (proj1 (wordsOf_spec s))|]. by intros w [? _]. }
  destruct (wrapLoop_groups maxCols maxLines (wordsOf s) [] [])
    as (gs & cur & dropped & Hrun & Hcat & Hcur & Hgs & _ & _ & _ & Hlen
        & Hend & _); try done; [by right | by left |].
  change (map unwords []) with (@nil jsstring) in Hrun.
  change (unwords []) with (@nil codeunit) in Hrun.
  rewrite Hrun, length_map. cbn [concat app] in Hcat.
  destruct (decide (cur = [])) as [->|Hne].
  { cbn [unwords truthy andb]. exists gs. rewrite app_nil_l in Hcat.
    split; [done|]. split; [done|]. split; [by exists dropped|].
    destruct Hend as [[-> _]|[_ [w Hw]]]; [|done].
    rewrite app_nil_r in Hcat. split; [done|]. split; [|lia].
    intros _ Hw. intros ->. by rewrite <- Hcat in Hw. }
  rewrite (unwords_truthy cur Hcur Hne). cbn [andb].
  destruct (Z.ltb_spec (Z.of_nat (length gs)) maxLines) as [Hroom|Hfull].
  - exists (gs ++ [cur]). rewrite map_app, length_app. cbn [map length].
    split; [done|].
    split; [apply Forall_app; split; [done | by constructor]|].
    split; [exists dropped; by rewrite concat_app, <- Hcat; cbn;
            rewrite app_nil_r, <- app_assoc|].
    split; [|split; [|lia]].
    + intros Hfew. destruct Hend as [[-> _]|[? _]]; [|lia].
      rewrite concat_app. cbn. by rewrite !app_nil_r in *.
    + intros _ _. by destruct gs.
  - exists gs. split; [done|]. split; [done|].
    split; [by exists (cur ++ dropped)|]. split; [lia|]. split; [|lia].
    intros Hcap _ ->. cbn [length] in Hfull. lia.
Qed.

Lemma groups_words_ok (s : jsstring) (groups : list (list jsstring)) :
  concat groups `prefix_of` wordsOf s ->
  Forall (Forall (fun w => w <> [] /\ Forall (fun c => isSpace c = false) w))
         groups.
Proof.
  intros [k Hk]. pose proof (proj1 (wordsOf_spec s)) as Hall.
  rewrite Hk in Hall. apply Forall_app in Hall as [Hall _].
  by apply Forall_concat.
Qed.

(** X17: wrapping never splits, reorders or invents a word: splitting the
    returned lines again gives, in order, a prefix of the words of the
    text that stops at a word boundary, and all the words when fewer than
    [maxLines] lines are returned; no returned line is empty. *)
Theorem wrapTextToLines_words (s : jsstring) (maxCols maxLines : Z) :
  let out := wrapTextToLines s maxCols maxLines in
  concat (map wordsOf out) `prefix_of` wordsOf s /\
  (Z.of_nat (length out) < maxLines -> concat (map wordsOf out) = wordsOf s) /\
  Forall (fun l => l <> []) out.
Proof.
  cbv zeta.
  destruct (wrapTextToLines_groups s maxCols maxLines)
    as (groups & -> & Hne & Hpre & Hall & _).
  pose proof (groups_words_ok s groups Hpre) as Hok.
  assert (Hback : map wordsOf (map unwords groups) = groups).
  { rewrite map_map. clear Hne Hpre Hall.
    induction groups as [|g groups IH]; [done|].
    apply Forall_cons in Hok as [Hg Hok]. cbn [map].
    by rewrite (wordsOf_unwords g Hg), IH. }
  rewrite Hback, length_map. split; [done|]. split; [done|].
  apply Forall_forall. intros l (g & -> & Hg)%list_elem_of_fmap.
  pose proof (proj1 (Forall_forall _ _) Hne g Hg) as Hgne.
  pose proof (proj1 (Forall_forall _ _) Hok g Hg) as Hgok.
  assert (Ht : truthy (unwords g) = true).
  { apply unwords_truthy; [|done].
    eapply Forall_impl; [exact Hgok|]. by intros w [? _]. }
  by destruct (unwords g).
Qed.

Lemma wrapTextToLines_words_witness :
  concat (map wordsOf (wrapTextToLines (lit "  aa bb   cc ") 5 3)) =
  wordsOf (lit "  aa bb   cc ").
Proof.
  apply (wrapTextToLines_words (lit "  aa bb   cc ") 5 3).
  vm_compute. reflexivity.
Defined.

(** X18: for [maxLines >= 1] the result is empty exactly when the text
    holds no word (it is empty or all white space). *)
Theorem wrapTextToLines_empty (s : jsstring) (maxCols maxLines : Z) :
  1 <= maxLines ->
  wrapTextToLines s maxCols maxLines = [] <->
  Forall (fun c => isSpace c = true) s.
Proof.
  intros Hcap.
  assert (Hnowords : wordsOf s = [] <-> Forall (fun c => isSpace c = true) s).
  { pose proof (proj2 (wordsOf_spec s)) as Hcat.
    pose proof (proj1 (wordsOf_spec s)) as Hne. split.
    - intros Hw. rewrite Hw in Hcat. cbn in Hcat.
      apply Forall_forall. intros c Hc. destruct (isSpace c) eqn:Hsp; [done|].
      assert (Hin : c ∈ filter (fun c => isSpace c = false) s)
        by (by apply list_elem_of_filter).
      rewrite <- Hcat in Hin. by apply elem_of_nil in Hin.
    - intros Hall. destruct (wordsOf s) as [|w ws] eqn:Hw; [done|].
      apply Forall_cons in Hne as [[Hwne _] _]. destruct w as [|c w]; [done|].
      assert (Hin : c ∈ filter (fun c => isSpace c = false) s).
      { rewrite <- Hcat. cbn. by left. }
      apply list_elem_of_filter in Hin as [Hsp Hin].
      pose proof (proj1 (Forall_forall _ _) Hall c Hin). congruence. }
  rewrite <- Hnowords.
  destruct (wrapTextToLines_groups s maxCols maxLines)
    as (groups & -> & Hne & [k Hk] & Hall & _).
  split.
  - intros Hnil. destruct groups; [|discriminate Hnil].
    symmetry. apply Hall. cbn. lia.
  - intros Hw. rewrite Hw in Hk. destruct groups as [|g groups]; [done|].
    apply Forall_cons in Hne as [Hg _]. destruct g; [done|].
    discriminate Hk.
Qed.

Lemma wrapTextToLines_empty_witness :
  wrapTextToLines (lit "   ") 10 6 = [].
Proof.
  apply (wrapTextToLines_empty (lit "   ") 10 6); [lia|].
  repeat constructor.
Defined.

(** * Properties of the placement tick *)

Lemma keysOf_app (l1 l2 : list (Z * Z)) :
  keysOf (l1 ++ l2) = keysOf l1 ∪ keysOf l2.
Proof. unfold keysOf. by rewrite map_app, list_to_set_app_L. Qed.

Lemma blockLine_cells (ln : MatrixMetaLine) (n : nat) :
  forall i tmp,
    blockLine ln n i tmp =
    tmp ∪ keysOf (map (fun c => (c, row ln))
                      (seqZ (mStartCol ln + i) (Z.of_nat n))).
Proof.
  induction n as [|n IH]; intros i tmp; cbn [blockLine].
  { change (seqZ (mStartCol ln + i) (Z.of_nat 0)) with (@nil Z).
    unfold keysOf. cbn [map list_to_set]. by rewrite (right_id_L ∅ (∪)). }
  rewrite IH. rewrite (seqZ_cons (mStartCol ln + i)) by lia.
  replace (Z.pred (Z.of_nat (S n))) with (Z.of_nat n) by lia.
  replace (Z.succ (mStartCol ln + i)) with (mStartCol ln + (i + 1)) by lia.
  unfold keysOf. cbn [map list_to_set fst snd]. apply union_cell.
Qed.

Lemma blockLines_cells (ms : list MatrixMetaLine) :
  forall tmp,
    fold_left (fun acc ln => blockLine ln (length (text ln)) 0 acc) ms tmp =
    tmp ∪ keysOf (concat (map metaCells ms)).
Proof.
  induction ms as [|m ms IH]; intros tmp; cbn [fold_left map concat].
  { unfold keysOf. cbn [map list_to_set]. by rewrite (right_id_L ∅ (∪)). }
  rewrite IH, blockLine_cells, keysOf_app, Z.add_0_r.
  by rewrite (assoc_L (∪)).
Qed.

(** For a placement with recorded lines the tick blocks the cells of the
    lines. *)
Lemma blockWord_meta (fs : Z) (tmp : OccupiedSet)
    (p : PlaceWordIntoGridResult) :
  meta p <> [] -> blockWord fs tmp p = tmp ∪ keysOf (claimedCells p).
Proof.
  intros Hne. unfold blockWord, claimedCells.
  destruct (meta p) as [|m ms] eqn:Hm; [done|]. apply blockLines_cells.
Qed.

(** Every placement the engine returns records at least one line. *)
Lemma placeWordIntoGrid_meta_nonempty (txt : jsstring) (cols rows : Z)
    (blocked : OccupiedSet) (fontSize idx total : Z) (region : MatrixRegion)
    (opts : PlaceWordIntoGridOptions) (rnd : RandomSource)
    (p : PlaceWordIntoGridResult) (blocked' : OccupiedSet) :
  placeWordIntoGrid txt cols rows blocked fontSize idx total region opts rnd
    = (Some p, blocked') ->
  meta p <> [].
Proof.
  intros Hp. destruct (placeWordIntoGrid_Some _ _ _ _ _ _ _ _ _ _ _ _ Hp)
    as (starts & base & Hpl & _ & -> & _).
  apply placeLines_length in Hpl.
  destruct (linesOf_length txt region opts) as [Hl|Hl];
    destruct (linesOf txt region opts) as [|L ls]; try done;
    by destruct starts.
Qed.

(** A call that returns [null] leaves the set as it was. *)
Lemma placeWordIntoGrid_None (txt : jsstring) (cols rows : Z)
    (blocked : OccupiedSet) (fontSize idx total : Z) (region : MatrixRegion)
    (opts : PlaceWordIntoGridOptions) (rnd : RandomSource)
    (blocked' : OccupiedSet) :
  placeWordIntoGrid txt cols rows blocked fontSize idx total region opts rnd
    = (None, blocked') ->
  blocked' = blocked.
Proof.
  unfold placeWordIntoGrid. cbv zeta.
  destruct (negb (truthy txt) || (cols =? 0) || (rows =? 0));
    [by intros [= <-]|].
  destruct (placeLines _ _ _ _ _ 0 _ _) as [[starts base]|];
    [|by intros [= <-]].
  by destruct (buildLines _ _ _ _ _ _ _ _) as [[ltrs metas] b2].
Qed.

(** The two outcomes of the engine call of a tick. *)
Lemma tickPlace_cases (services : list jsstring) (cols rows w fs : Z)
    (f1 f2 : Q) (rnd : RandomSource) (plan : list ServiceLayoutStep)
    (ps : list PlaceWordIntoGridResult) :
  let out := tickPlace services cols rows w fs f1 f2 rnd plan ps in
  (out.1 = None /\ out.2 = tmpBlockedOf fs ps) \/
  (exists p name,
     out.1 = Some p /\
     services !! length ps = Some name /\
     rText p = name /\ meta p <> [] /\
     out.2 = tmpBlockedOf fs ps ∪ keysOf (claimedCells p)).
Proof.
  cbv zeta. unfold tickPlace. cbv zeta.
  destruct (services !! length ps) as [name|] eqn:Hname; [|by left].
  destruct (placeWordIntoGrid name _ _ _ _ _ _ _ _ _) as [[p|] b'] eqn:Hp.
  - right. exists p, name. cbn [fst snd]. split; [done|]. split; [done|].
    split.
    { by destruct (placeWordIntoGrid_Some _ _ _ _ _ _ _ _ _ _ _ _ Hp)
        as (? & ? & _ & ? & _). }
    split; [by eapply placeWordIntoGrid_meta_nonempty|].
    by eapply placeWordIntoGrid_marks_cells.
  - left. cbn [fst snd]. split; [done|]. by eapply placeWordIntoGrid_None.
Qed.

(** The plan a tick works with. *)
Lemma tick_plan (services : list jsstring) (cols rows : Z)
    (region : MatrixRegion) (st : TickState) :
  (length (placed st) < length services)%nat ->
  exists plan,
    match planRef st with
    | Some pl => Some pl
    | None => planServiceLayout services cols rows region 1
    end = Some plan /\
    (forall pl, planRef st = Some pl -> plan = pl).
Proof.
  intros Hlt. destruct (planRef st) as [pl|].
  { exists pl. split; [done|]. by intros ? [= <-]. }
  destruct (planServiceLayout_nonempty services cols rows region 1)
    as (plan & -> & _).
  { intros ->. cbn in Hlt. lia. }
  exists plan. by split.
Qed.

(** X19: a tick never throws (the guard on the number of placements keeps
    the planner away from an empty list of services), keeps a plan it
    finds, and either leaves the placements as they are or appends one:
    a placement of the next service in order, carrying that service's
    name and at least one recorded line. *)
Theorem placementTick_step (services : list jsstring) (cols rows w fs : Z)
    (regionStartFrac regionEndFrac : Q) (rnd : RandomSource)
    (st : TickState) :
  exists st',
    placementTick services cols rows w fs regionStartFrac regionEndFrac
                  rnd st = Some st' /\
    (forall pl, planRef st = Some pl -> planRef st' = Some pl) /\
    (placed st' = placed st \/
     exists p name,
       placed st' = placed st ++ [p] /\
       services !! length (placed st) = Some name /\
       rText p = name /\ meta p <> []).
Proof.
  unfold placementTick. cbv zeta.
  destruct (Nat.leb_spec (length services) (length (placed st))) as [Hge|Hlt].
  { exists st. split; [done|]. split; [done|]. by left. }
  destruct (tick_plan services cols rows
              (tickRegion cols w regionStartFrac regionEndFrac) st Hlt)
    as (plan & -> & Hkeep).
  eexists. split; [done|]. cbn [placed planRef].
  split; [by intros pl ->%Hkeep|].
  destruct (tickPlace_cases services cols rows w fs regionStartFrac
              regionEndFrac rnd plan (placed st))
    as [[-> _]|(p & name & -> & Hname & Htext & Hmeta & _)]; [by left|].
  right. by exists p, name.
Qed.

Lemma placementTick_step_witness :
  exists st',
    placementTick twoServices 20 20 1000 10 (1 # 2) 1 drawZero resetState
      = Some st' /\
    (length (placed st') <= 1)%nat.
Proof.
  destruct (placementTick_step twoServices 20 20 1000 10 (1 # 2) 1 drawZero
              resetState) as (st' & Hrun & _ & Hcase).
  exists st'. split; [exact Hrun|].
  destruct Hcase as [Hsame|(p & name & Hpush & _)].
  - rewrite Hsame. cbn. lia.
  - rewrite Hpush. cbn. lia.
Defined.

(** X20: the set a tick rebuilds from the recorded lines loses nothing:
    after a tick that had a service left to place, the set rebuilt from
    the new list of placements is the very set the engine call of that
    tick left behind. *)
Theorem placementTick_blocked (services : list jsstring) (cols rows w fs : Z)
    (regionStartFrac regionEndFrac : Q) (rnd : RandomSource)
    (st : TickState) :
  (length (placed st) < length services)%nat ->
  exists st' plan,
    placementTick services cols rows w fs regionStartFrac regionEndFrac
                  rnd st = Some st' /\
    planRef st' = Some plan /\
    tmpBlockedOf fs (placed st') =
    (tickPlace services cols rows w fs regionStartFrac regionEndFrac rnd
               plan (placed st)).2.
Proof.
  intros Hlt. unfold placementTick. cbv zeta.
  destruct (Nat.leb_spec (length services) (length (placed st))) as [Hge|_];
    [lia|].
  destruct (tick_plan services cols rows
              (tickRegion cols w regionStartFrac regionEndFrac) st Hlt)
    as (plan & -> & _).
  eexists; exists plan. split; [done|]. cbn [placed planRef].
  split; [done|].
  destruct (tickPlace_cases services cols rows w fs regionStartFrac
              regionEndFrac rnd plan (placed st))
    as [[-> ->]|(p & name & -> & _ & _ & Hmeta & ->)]; [done|].
  unfold tmpBlockedOf. rewrite fold_left_app. cbn [fold_left].
  by apply blockWord_meta.
Qed.

Lemma placementTick_blocked_witness :
  exists st' plan,
    placementTick [lit "ab cd"; lit "ef"] 20 20 1000 10 (1 # 2) 1 drawZero
                  resetState = Some st' /\
    planRef st' = Some plan /\
    tmpBlockedOf 10 (placed st') =
    (tickPlace [lit "ab cd"; lit "ef"] 20 20 1000 10 (1 # 2) 1 drawZero
               plan (placed resetState)).2.
Proof.
  apply (placementTick_blocked [lit "ab cd"; lit "ef"] 20 20 1000 10
           (1 # 2) 1 drawZero resetState).
  cbn. lia.
Defined.

(** X21: ticks that follow a reset never throw and place the services in
    order: after any number of them the placements carry, one for one, the
    names of the first services, and each records at least one line, so the
    tick never falls back on the letters to rebuild its set. *)
Theorem runTicks_in_order (services : list jsstring) (cols rows w fs : Z)
    (regionStartFrac regionEndFrac : Q) (rnd : nat -> RandomSource)
    (n : nat) :
  exists st,
    runTicks services cols rows w fs regionStartFrac regionEndFrac rnd n
             resetState = Some st /\
    (length (placed st) <= n)%nat /\
    map rText (placed st) = take (length (placed st)) services /\
    Forall (fun p => meta p <> []) (placed st).
Proof.
  induction n as [|n (st & Hrun & Hlen & Hnames & Hmeta)]; cbn [runTicks].
  { exists resetState. cbn. split; [done|]. split; [lia|]. by split. }
  rewrite Hrun. unfold placementTick. cbv zeta.
  destruct (Nat.leb_spec (length services) (length (placed st))) as [Hge|Hlt].
  { exists st. split; [done|]. split; [lia|]. by split. }
  destruct (tick_plan services cols rows
              (tickRegion cols w regionStartFrac regionEndFrac) st Hlt)
    as (plan & -> & _).
  eexists. split; [done|]. cbn [placed planRef].
  destruct (tickPlace_cases services cols rows w fs regionStartFrac
              regionEndFrac (rnd n) plan (placed st))
    as [[-> _]|(p & name & -> & Hname & Htext & Hp & _)].
  { split; [lia|]. by split. }
  rewrite length_app, map_app, Hnames. cbn [length map].
  split; [lia|]. split.
  - rewrite Nat.add_1_r.
    by rewrite (take_S_r services (length (placed st)) name Hname), Htext.
  - apply Forall_app. split; [done|]. by constructor.
Qed.

Lemma runTicks_in_order_witness :
  exists st,
    runTicks twoServices 20 20 1000 10 (1 # 2) 1 (fun _ => drawZero) 3
             resetState = Some st /\
    map rText (placed st) = take (length (placed st)) twoServices.
Proof.
  destruct (runTicks_in_order twoServices 20 20 1000 10 (1 # 2) 1
              (fun _ => drawZero) 3) as (st & Hrun & _ & Hnames & _).
  exists st. split; [exact Hrun | exact Hnames].
Defined.

(** * Properties of the detail block *)

Lemma detailLine_chars (fs : Z) (rnd : RandomSource) (startX yy : Z)
    (line : jsstring) :
  forall i k,
    map dChar (detailLine fs rnd startX yy line i k).1 =
    filter (fun c => c <> SPACE) line.
Proof.
  induction line as [|ch line IH]; intros i k; cbn [detailLine]; [done|].
  destruct (N.eqb_spec ch SPACE) as [->|Hch].
  - rewrite filter_cons_False by (by intros ?). apply IH.
  - rewrite filter_cons_True by done. specialize (IH (i + 1) (S k)).
    destruct (detailLine _ _ _ _ line (i + 1) (S k)) as [ls k'].
    cbn [fst map dChar] in *. by rewrite IH.
Qed.

Lemma detailLines_chars (fs : Z) (rnd : RandomSource) (centerX startRow : Z)
    (lns : list jsstring) :
  forall li k,
    map dChar (detailLines fs rnd centerX startRow lns li k) =
    concat (map (filter (fun c => c <> SPACE)) lns).
Proof.
  induction lns as [|line lns IH]; intros li k; cbn [detailLines]; [done|].
  pose proof (detailLine_chars fs rnd (detailStartX centerX fs (len line))
                ((startRow + li * 2) * fs) line 0 k) as Hline.
  destruct (detailLine _ _ _ _ line 0 k) as [ls k'].
  cbn [fst] in Hline. cbn [map concat]. by rewrite map_app, Hline, IH.
Qed.

Lemma filter_word (w : jsstring) :
  Forall (fun c => isSpace c = false) w ->
  filter (fun c => c <> SPACE) w = w.
Proof.
  induction 1 as [|c w Hc _ IH]; [done|].
  rewrite filter_cons_True by (by intros ->). by rewrite IH.
Qed.

(** Dropping the spaces of a line leaves its words, run together. *)
Lemma filter_unwords (g : list jsstring) :
  Forall (fun w => w <> [] /\ Forall (fun c => isSpace c = false) w) g ->
  filter (fun c => c <> SPACE) (unwords g) = concat g.
Proof.
  induction g as [|w g IH]; [done|]. intros [[_ Hw] Hg]%Forall_cons.
  destruct g as [|w' g].
  { cbn [unwords fold_left concat]. by rewrite app_nil_r, filter_word. }
  rewrite unwords_cons, filter_app, filter_word by done.
  rewrite filter_cons_False by (by intros ?). by rewrite IH.
Qed.

(** X22: the letters of the detail block spell, in order, the copy without
    its white space, or a prefix of it that stops at a word boundary, and
    the whole of it when fewer than six lines come out; the stored
    [meta] holds the start row and the copy. *)
Theorem buildDetailLetters_chars (copy : jsstring) (startRow cols fs w : Z)
    (rnd : RandomSource) :
  let out := buildDetailLetters copy startRow cols fs w rnd in
  (exists ws, ws `prefix_of` wordsOf copy /\ map dChar out.1 = concat ws) /\
  map dChar out.1 `prefix_of` filter (fun c => isSpace c = false) copy /\
  ((length (detailCopyLines copy cols) < 6)%nat ->
   map dChar out.1 = filter (fun c => isSpace c = false) copy) /\
  out.2 = (startRow, copy).
Proof.
  cbv zeta. unfold buildDetailLetters. cbv zeta. cbn [fst snd].
  rewrite detailLines_chars. unfold detailCopyLines.
  destruct (wrapTextToLines_groups copy (detailMaxWidth cols) 6)
    as (groups & -> & _ & Hpre & Hall & _).
  pose proof (groups_words_ok copy groups Hpre) as Hok.
  assert (Hchars : concat (map (filter (fun c => c <> SPACE))
                               (map unwords groups)) =
                   concat (concat groups)).
  { clear Hpre Hall. induction groups as [|g groups IH]; [done|].
    apply Forall_cons in Hok as [Hg Hok]. cbn [map concat].
    by rewrite concat_app, (filter_unwords g Hg), IH. }
  rewrite Hchars, length_map, <- (proj2 (wordsOf_spec copy)).
  split; [by exists (concat groups)|]. split.
  - destruct Hpre as [k ->]. exists (concat k). by rewrite concat_app.
  - split; [|done]. intros Hfew. rewrite Hall; [done | lia].
Qed.

Lemma buildDetailLetters_chars_witness :
  map dChar (buildDetailLetters (lit "ab cd") 5 20 10 200 drawZero).1 =
  filter (fun c => isSpace c = false) (lit "ab cd").
Proof.
  apply (buildDetailLetters_chars (lit "ab cd") 5 20 10 200 drawZero).
  vm_compute. lia.
Defined.

Lemma detailLine_elem (fs : Z) (rnd : RandomSource) (startX yy : Z)
    (line : jsstring) :
  forall i k l,
    l ∈ (detailLine fs rnd startX yy line i k).1 ->
    exists j : nat,
      line !! j = Some (dChar l) /\ dChar l <> SPACE /\
      cx l = startX + (i + Z.of_nat j) * fs /\ tx l = cx l /\ dY l = yy /\
      alpha l = (95 # 100)%Q /\
      exists k', dTy l = (-100 - rnd k' * 400)%Q.
Proof.
  induction line as [|ch line IH]; intros i k l; cbn [detailLine].
  { by intros Hin%elem_of_nil. }
  assert (Hshift : forall k0,
            l ∈ (detailLine fs rnd startX yy line (i + 1) k0).1 ->
            exists j : nat,
              (ch :: line) !! j = Some (dChar l) /\ dChar l <> SPACE /\
              cx l = startX + (i + Z.of_nat j) * fs /\ tx l = cx l /\
              dY l = yy /\ alpha l = (95 # 100)%Q /\
              exists k', dTy l = (-100 - rnd k' * 400)%Q).
  { intros k0 Hin.
    destruct (IH _ _ _ Hin) as (j & Hj & Hns & Hcx & Hrest).
    exists (S j). split; [done|]. split; [done|]. split; [|done].
    rewrite Hcx. f_equal. lia. }
  destruct (N.eqb_spec ch SPACE) as [->|Hch]; [apply Hshift|].
  specialize (Hshift (S k)).
  destruct (detailLine _ _ _ _ line (i + 1) (S k)) as [ls k'].
  cbn [fst] in *. intros [->|Hin]%elem_of_cons; [|by apply Hshift].
  exists 0%nat. cbn. split; [done|]. split; [done|].
  split; [f_equal; lia|]. split; [done|]. split; [done|]. split; [done|].
  by exists k.
Qed.

Lemma detailLines_elem (fs : Z) (rnd : RandomSource) (centerX startRow : Z)
    (lns : list jsstring) :
  forall li k l,
    l ∈ detailLines fs rnd centerX startRow lns li k ->
    exists (j : nat) (line : jsstring) (k' : nat),
      lns !! j = Some line /\
      l ∈ (detailLine fs rnd (detailStartX centerX fs (len line))
                      ((startRow + (li + Z.of_nat j) * 2) * fs)
                      line 0 k').1.
Proof.
  induction lns as [|line lns IH]; intros li k l; cbn [detailLines].
  { by intros Hin%elem_of_nil. }
  destruct (detailLine _ _ _ _ line 0 k) as [ls k'] eqn:Hline.
  intros [Hin|Hin]%elem_of_app.
  - exists 0%nat, line, k. rewrite Z.add_0_r, Hline. by split.
  - destruct (IH _ _ _ Hin) as (j & line' & k'' & Hj & Hl).
    exists (S j), line', k''. split; [done|].
    by replace (li + Z.of_nat (S j)) with (li + 1 + Z.of_nat j) by lia.
Qed.

(** [Math.round] of a number of halves is at most half a unit above it. *)
Lemma roundDiv_half (p : Z) : 0 <= 2 * roundDiv p 2 - p <= 1.
Proof.
  unfold roundDiv. pose proof (Z.div_mod (2 * p + 2) (2 * 2)) as Hdm.
  pose proof (Z.mod_pos_bound (2 * p + 2) (2 * 2)) as Hb. lia.
Qed.

(** A draw in [0, 1) puts a detail letter 100 to 500 pixels above the
    container. *)
Lemma above_container (r : Q) :
  (0 <= r)%Q -> (r < 1)%Q ->
  (-500 < -100 - r * 400)%Q /\ (-100 - r * 400 <= -100)%Q.
Proof.
  destruct r as [n d]. unfold Qle, Qlt. cbn. intros H0 H1. split; lia.
Qed.

(** X23: every letter of the detail block comes from a character, not a
    space, of one of the at most six wrapped lines; it sits on the row of
    its line, two rows per line from the start row on, and [fs] pixels
    right of its predecessor in a line that is centred on the middle of
    the container to within half a pixel; its target column is its
    column, and with draws in [0, 1) it starts between 100 and 500 pixels
    above the container. *)
Theorem buildDetailLetters_geometry (copy : jsstring)
    (startRow cols fs w : Z) (rnd : RandomSource) (l : DetailLetter) :
  l ∈ (buildDetailLetters copy startRow cols fs w rnd).1 ->
  exists (li i : nat) (line : jsstring),
    detailCopyLines copy cols !! li = Some line /\ (li < 6)%nat /\
    line !! i = Some (dChar l) /\ dChar l <> SPACE /\
    dY l = (startRow + 2 * Z.of_nat li) * fs /\
    cx l = detailStartX (w / 2) fs (len line) + Z.of_nat i * fs /\
    0 <= 2 * detailStartX (w / 2) fs (len line) + len line * fs
         - 2 * (w / 2) <= 1 /\
    tx l = cx l /\ alpha l = (95 # 100)%Q /\
    ((forall k, (0 <= rnd k)%Q /\ (rnd k < 1)%Q) ->
     (-500 < dTy l)%Q /\ (dTy l <= -100)%Q).
Proof.
  unfold buildDetailLetters. cbv zeta. cbn [fst].
  intros (li & line & k & Hline & Hin)%detailLines_elem.
  destruct (detailLine_elem _ _ _ _ _ _ _ _ Hin)
    as (i & Hi & Hns & Hcx & Htx & Hy & Ha & k' & Hty).
  exists li, i, line. split; [done|]. split.
  { apply lookup_lt_Some in Hline. unfold detailCopyLines in Hline.
    destruct (wrapTextToLines_groups copy (detailMaxWidth cols) 6)
      as (groups & Heq & _ & _ & _ & _ & Hcap).
    rewrite Heq, length_map in Hline. lia. }
  split; [done|]. split; [done|]. split; [rewrite Hy; f_equal; lia|].
  split; [rewrite Hcx; f_equal; lia|]. split.
  { unfold detailStartX.
    pose proof (roundDiv_half (2 * (w / 2) - len line * fs)). lia. }
  split; [done|]. split; [done|]. intros Hrnd. rewrite Hty.
  destruct (Hrnd k') as [H0 H1]. by apply above_container.
Qed.

Lemma buildDetailLetters_geometry_witness :
  exists (li i : nat) (line : jsstring),
    detailCopyLines (lit "ab cd") 20 !! li = Some line /\ (li < 6)%nat /\
    line !! i = Some (dChar firstDetailLetter) /\
    dChar firstDetailLetter <> SPACE /\
    dY firstDetailLetter = (5 + 2 * Z.of_nat li) * 10 /\
    cx firstDetailLetter =
      detailStartX (200 / 2) 10 (len line) + Z.of_nat i * 10 /\
    0 <= 2 * detailStartX (200 / 2) 10 (len line) + len line * 10
         - 2 * (200 / 2) <= 1 /\
    tx firstDetailLetter = cx firstDetailLetter /\
    alpha firstDetailLetter = (95 # 100)%Q /\
    ((forall k, (0 <= drawZero k)%Q /\ (drawZero k < 1)%Q) ->
     (-500 < dTy firstDetailLetter)%Q /\ (dTy firstDetailLetter <= -100)%Q).
Proof.
  apply (buildDetailLetters_geometry (lit "ab cd") 5 20 10 200 drawZero
           firstDetailLetter).
  vm_compute. left.
Defined.

(** * Further properties of the region *)

(** X24: on a grid with a non-negative number of columns, fractions in
    order give a region whose first column is not after its last. *)
Theorem computeRegion_ordered (cols : Z) (startFrac endFrac : Q) :
  0 <= cols -> (startFrac <= endFrac)%Q ->
  startCol (computeRegion cols startFrac endFrac) <=
  endCol (computeRegion cols startFrac endFrac).
Proof.
  intros Hcols Hle. unfold computeRegion. cbn [startCol endCol].
  apply Qfloor_resp_le. unfold jsmul. apply roundDouble_mono.
  rewrite !(Qmult_comm (inject_Z cols)).
  apply Qmult_le_compat_r; [done|].
  change 0%Q with (inject_Z 0). by rewrite <- Zle_Qle.
Qed.

Lemma computeRegion_ordered_witness :
  startCol (computeRegion 20 (1 # 2) 1) <= endCol (computeRegion 20 (1 # 2) 1).
Proof.
  apply (computeRegion_ordered 20 (1 # 2) 1); [lia|].
  vm_compute. discriminate.
Defined.

(** Every grid of fewer than 900 columns passes the check, by
    evaluation. *)
Lemma narrowRegionOk_all : forallb narrowRegionOk (seqZ 1 899) = true.
Proof. vm_compute. reflexivity. Qed.

(** X25: in a container narrower than 900 pixels the tick ignores the
    fractions it was configured with: on a grid of at most as many columns
    as the container has pixels (as it is when the font size is at least
    one pixel) the region runs from 52 to 96 hundredths of the columns,
    rounded down, and lies inside the grid. *)
Theorem tickRegion_narrow (cols w : Z) (regionStartFrac regionEndFrac : Q) :
  w < 900 -> 1 <= cols <= w ->
  let region := tickRegion cols w regionStartFrac regionEndFrac in
  startCol region = cols * 52 / 100 /\
  endCol region = cols * 96 / 100 /\
  0 <= startCol region <= endCol region /\ endCol region < cols.
Proof.
  intros Hw Hcols. cbv zeta.
  assert (Hsame : tickRegion cols w regionStartFrac regionEndFrac =
                  tickRegion cols 0 0 0).
  { unfold tickRegion. cbv zeta.
    destruct (Z.ltb_spec w 900) as [_|?]; [done | lia]. }
  rewrite Hsame.
  assert (Hok : narrowRegionOk cols = true).
  { apply (proj1 (forallb_forall narrowRegionOk (seqZ 1 899))
                 narrowRegionOk_all).
    apply list_elem_of_In, elem_of_seqZ. lia. }
  unfold narrowRegionOk in Hok. cbv zeta in Hok.
  apply andb_true_iff in Hok as [Hs%Z.eqb_eq He%Z.eqb_eq].
  rewrite Hs, He. split; [done|]. split; [done|].
  split; [split|].
  - apply Z.div_pos; lia.
  - apply Z.div_le_mono; lia.
  - apply Z.div_lt_upper_bound; lia.
Qed.

Lemma tickRegion_narrow_witness :
  startCol (tickRegion 30 600 (58 # 100) (96 # 100)) = 30 * 52 / 100 /\
  endCol (tickRegion 30 600 (58 # 100) (96 # 100)) = 30 * 96 / 100 /\
  0 <= startCol (tickRegion 30 600 (58 # 100) (96 # 100))
    <= endCol (tickRegion 30 600 (58 # 100) (96 # 100)) /\
  endCol (tickRegion 30 600 (58 # 100) (96 # 100)) < 30.
Proof.
  apply (tickRegion_narrow 30 600 (58 # 100) (96 # 100)); lia.
Defined.
